(** * kbdgen command line front end ([pysrc/kbdgen/cli.py])

    A shallow embedding of [parse_args], [print_diagnostics],
    [enable_verbose_requests_log] and [run_cli], together with the part of
    CPython's [argparse] (as of CPython 3.11) that [parse_args] drives, and
    a model of the override parser described in the specification.

    Python values are dynamically typed, so the embedding works over one
    type [PyVal] of values.  Side effects (log records, writes to the
    standard streams, calls into collaborators) are collected in a trace
    of [Event]s by a small writer/exception monad.  A string is a sequence
    of characters with code points below 256, one [ascii] each; where
    Python looks at Unicode properties of characters ([str.strip], the
    digit class of a regular expression) the embedding gives these code
    points the properties Python gives them.  Characters beyond are not
    represented. *)

From Stdlib Require Import String Ascii List ZArith Bool Lia DecimalString.
Import ListNotations.

Local Open Scope string_scope.
Local Open Scope list_scope.

(** ** Python values and strings *)

Module Py.

(** A Python value as far as this program looks at it. *)
#[warnings="-register-all"]
Inductive PyVal : Type :=
| VNone
| VBool (b : bool)
| VInt (z : Z)
| VStr (s : string)
| VList (l : list PyVal)
| VObj (str_ : string).     (* any other object, known through its str() *)

(** The newline character and the strings built on it. *)
Definition nl_char : ascii := ascii_of_nat 10.
Definition nl : string := String nl_char EmptyString.

Definition cat (a b : string) : string := String.append a b.
Infix "^^" := cat (at level 60, right associativity).

(** [sep.join(l)] *)
Fixpoint join (sep : string) (l : list string) : string :=
  match l with
  | [] => EmptyString
  | [x] => x
  | x :: rest => x ^^ sep ^^ join sep rest
  end.

(** [s.startswith(p)] *)
Fixpoint startswith (s p : string) : bool :=
  match p, s with
  | EmptyString, _ => true
  | String c p', String d s' => Ascii.eqb c d && startswith s' p'
  | String _ _, EmptyString => false
  end.

(** [c in s] for a one-character string [c] *)
Fixpoint has_char (c : ascii) (s : string) : bool :=
  match s with
  | EmptyString => false
  | String d s' => Ascii.eqb c d || has_char c s'
  end.

(** [s.split(c, 1)] when [c in s]: the text before the first [c] and the
    text after it. *)
Fixpoint split_first (c : ascii) (s : string) : option (string * string) :=
  match s with
  | EmptyString => None
  | String d s' =>
      if Ascii.eqb c d then Some (EmptyString, s')
      else match split_first c s' with
           | Some (a, b) => Some (String d a, b)
           | None => None
           end
  end.

(** [s.split(c)]: never empty, one more piece than there are [c]s. *)
Fixpoint split_on (c : ascii) (s : string) : list string :=
  match s with
  | EmptyString => [EmptyString]
  | String d s' =>
      if Ascii.eqb c d then EmptyString :: split_on c s'
      else match split_on c s' with
           | piece :: rest => String d piece :: rest
           | [] => [String d EmptyString]
           end
  end.

(** White space as [str.strip] and [str.isspace] see it: of the code
    points below 256, the characters 9 to 13, 28 to 32, 133 (next line)
    and 160 (no-break space). *)
Definition is_space (c : ascii) : bool :=
  let n := nat_of_ascii c in
  (Nat.leb 9 n && Nat.leb n 13) || (Nat.leb 28 n && Nat.leb n 32)
  || Nat.eqb n 133 || Nat.eqb n 160.

Fixpoint lstrip (s : string) : string :=
  match s with
  | EmptyString => EmptyString
  | String c s' => if is_space c then lstrip s' else s
  end.

(** [rstrip] drops the trailing white space: a character is kept when it
    is not white space or when something is kept after it. *)
Fixpoint rstrip (s : string) : string :=
  match s with
  | EmptyString => EmptyString
  | String c s' =>
      match rstrip s' with
      | EmptyString => if is_space c then EmptyString else String c EmptyString
      | kept => String c kept
      end
  end.

(** [s.strip()] *)
Definition strip (s : string) : string := rstrip (lstrip s).

Fixpoint all_space (s : string) : bool :=
  match s with
  | EmptyString => true
  | String c s' => is_space c && all_space s'
  end.

(** A text that neither starts nor ends with white space. *)
Definition edge_free (t : string) : Prop :=
  (forall c r, t = String c r -> is_space c = false)
  /\ (forall r c, t = r ^^ String c EmptyString -> is_space c = false).

(** [t] is [s] without the white space at its two ends. *)
Definition trimmed_of (s t : string) : Prop :=
  exists lead trail,
    s = lead ^^ t ^^ trail
    /\ all_space lead = true /\ all_space trail = true /\ edge_free t.

(** Decimal rendering of an integer, [str(n)]. *)
Definition str_of_Z (z : Z) : string := NilZero.string_of_int (Z.to_int z).

(** [sub in s] for strings, as a proposition. *)
Definition contains (s sub : string) : Prop :=
  exists pre post, s = pre ^^ sub ^^ post.

Section Repr.

(** [repr] of a string is left to the interpreter (quote selection and
    escapes play no role in this program). *)
Variable repr_str : string -> string.

(** [repr(v)]; [str] and [repr] differ on strings only. *)
Fixpoint py_repr (v : PyVal) : string :=
  match v with
  | VNone => "None"
  | VBool true => "True"
  | VBool false => "False"
  | VInt z => str_of_Z z
  | VStr s => repr_str s
  | VList l => "[" ^^ join ", " (map py_repr l) ^^ "]"
  | VObj s => s
  end.

(** [str(v)] *)
Definition py_str (v : PyVal) : string :=
  match v with
  | VStr s => s
  | _ => py_repr v
  end.

End Repr.

(** An exception object, as far as the handlers of [run_cli] look at it:
    the classes it is an instance of, its [args], and for a YAML scanner
    error its [problem] and [problem_mark].  [SystemExit] carries its
    status in [exc_code]. *)
Record PyExc : Type := mkExc {
  exc_class : string;
  is_Exception : bool;
  is_ScannerError : bool;
  is_UserException : bool;
  is_KbdgenException : bool;
  exc_args : list PyVal;
  exc_problem : PyVal;
  exc_problem_mark : PyVal;
  exc_code : PyVal
}.

(** [Exception(msg)] *)
Definition Exception_ (msg : string) : PyExc :=
  mkExc "Exception" true false false false [VStr msg] VNone VNone VNone.

(** [TypeError(msg)] *)
Definition TypeError_ (msg : string) : PyExc :=
  mkExc "TypeError" true false false false [VStr msg] VNone VNone VNone.

(** [AttributeError(msg)] *)
Definition AttributeError_ (msg : string) : PyExc :=
  mkExc "AttributeError" true false false false [VStr msg] VNone VNone VNone.

(** [SystemExit(status)], which is not an [Exception]. *)
Definition SystemExit_ (status : Z) : PyExc :=
  mkExc "SystemExit" false false false false [VInt status] VNone VNone
        (VInt status).

(** A generator class, as stored in the registry [gen]. *)
Inductive GenClass : Type := Class (name : string).

(** Logging levels used by this module. *)
Inductive Level : Type := DEBUG | ERROR | CRITICAL.

(** What a logging call is given: a formatted message or an exception
    object. *)
Inductive LogArg : Type :=
| LMsg (s : string)
| LExc (e : PyExc).

(** Observable steps of one invocation. *)
Inductive Event : Type :=
| EStdout (s : string)                       (* text written to sys.stdout *)
| EStderr (s : string)                       (* text written to sys.stderr *)
| EOpen (name : string)                      (* open(name, 'r') by FileType *)
| ELog (lvl : Level) (a : LogArg)            (* logger.debug/error/critical *)
| EHttpDebuglevel (n : Z)                    (* HTTPConnection.debuglevel = n *)
| EGetLogger (name : string)                 (* logging.getLogger(name) *)
| EParse (project cfg_pairs : PyVal)         (* Parser().parse(...) *)
| EConstruct (cls : GenClass) (project : PyVal) (options : list (string * PyVal))
| EGenerate (inst out : PyVal).              (* x.generate(out) *)

(** The result of a computation that may raise. *)
Inductive Res (A : Type) : Type :=
| Ok (a : A)
| Raise (e : PyExc).
Arguments Ok {A} a.
Arguments Raise {A} e.

(** A computation: the events it performs, in order, and how it ends. *)
Definition M (A : Type) : Type := (list Event * Res A)%type.

Definition ret {A} (a : A) : M A := ([], Ok a).

Definition bind {A B} (m : M A) (f : A -> M B) : M B :=
  match m with
  | (t, Ok a) => let (t', r) := f a in (t ++ t', r)
  | (t, Raise e) => (t, Raise e)
  end.

Definition emit (ev : Event) : M unit := ([ev], Ok tt).

Definition raise {A} (e : PyExc) : M A := ([], Raise e).

(** Lifts the result of a call into a collaborator. *)
Definition lift {A} (r : Res A) : M A := ([], r).

(** [try: m except ...: h]: the handler sees every exception of [m]; it
    re-raises the ones no clause matches. *)
Definition try_except {A} (m : M A) (h : PyExc -> M A) : M A :=
  match m with
  | (t, Ok a) => (t, Ok a)
  | (t, Raise e) => let (t', r) := h e in (t ++ t', r)
  end.

Definition trace {A} (m : M A) : list Event := fst m.
Definition result {A} (m : M A) : Res A := snd m.

Notation "x <- c1 ;; c2" := (bind c1 (fun x => c2))
  (at level 61, c1 at next level, right associativity).
Notation "c1 ;; c2" := (bind c1 (fun _ => c2))
  (at level 61, right associativity).

(** [for x in l: body(x)] *)
Fixpoint for_each {A} (l : list A) (body : A -> M unit) : M unit :=
  match l with
  | [] => ret tt
  | x :: rest => body x ;; for_each rest body
  end.

(** The events of [evs], in order. *)
Definition emits (evs : list Event) : M unit := (evs, Ok tt).

(** [[f(x) for x in l]] *)
Fixpoint map_m {A B} (f : A -> M B) (l : list A) : M (list B) :=
  match l with
  | [] => ret []
  | x :: rest => y <- f x ;; ys <- map_m f rest ;; ret (y :: ys)
  end.

(** A loop that threads a state through its body. *)
Fixpoint fold_m {A B} (f : A -> B -> M A) (a : A) (l : list B) : M A :=
  match l with
  | [] => ret a
  | x :: rest => a' <- f a x ;; fold_m f a' rest
  end.

End Py.

(** ** The argument parser library

    The part of [argparse.ArgumentParser] that a parser built from
    [store], [store_true], [help] and [version] actions with [nargs] of
    [None], ['*'] or [0] exercises: classification of the argument
    strings, the alternation of [consume_positionals] and
    [consume_optional], value conversion and the final checks. *)

Module Argparse.
Import Py.

Inductive Nargs : Type :=
| NargsNone       (* nargs=None: exactly one argument *)
| NargsStar       (* nargs='*' *)
| NargsZero.      (* nargs=0, as flags have *)

Inductive ActionKind : Type :=
| Store
| StoreTrue
| HelpAction
| VersionAction (version : string).

(** What calling [type=] on an argument string does. *)
Inductive TypeRes : Type :=
| TVal (v : PyVal)
| TArgumentTypeError (msg : string)
| TValueError.

Definition TypeFn : Type := string -> list Event * TypeRes.

Record Action : Type := mkAction {
  ident : nat;                      (* object identity, the rank in _actions *)
  option_strings : list string;
  dest : option string;             (* None: SUPPRESS *)
  nargs : Nargs;
  kind : ActionKind;
  default : PyVal;
  type_ : option TypeFn;            (* None: the argument string itself *)
  type_name : string;               (* how an invalid value names the type *)
  required : bool;
  choices : option (list string)    (* the keys of a dict *)
}.

(** The attributes of a [Namespace], in the order of [__dict__]. *)
Definition Namespace : Type := list (string * PyVal).

Fixpoint setattr (ns : Namespace) (name : string) (v : PyVal) : Namespace :=
  match ns with
  | [] => [(name, v)]
  | (k, x) :: rest =>
      if String.eqb k name then (k, v) :: rest
      else (k, x) :: setattr rest name v
  end.

Fixpoint lookup {A} (name : string) (l : list (string * A)) : option A :=
  match l with
  | [] => None
  | (k, x) :: rest => if String.eqb k name then Some x else lookup name rest
  end.

Definition hasattr (ns : Namespace) (name : string) : bool :=
  match lookup name ns with Some _ => true | None => false end.

Fixpoint mem_str (s : string) (l : list string) : bool :=
  match l with
  | [] => false
  | x :: rest => String.eqb x s || mem_str s rest
  end.

#[warnings="-register-all"]
Fixpoint pyval_eqb (a b : PyVal) : bool :=
  match a, b with
  | VNone, VNone => true
  | VBool x, VBool y => Bool.eqb x y
  | VInt x, VInt y => Z.eqb x y
  | VStr x, VStr y => String.eqb x y
  | VObj x, VObj y => String.eqb x y
  | VList x, VList y =>
      (fix all2 (x y : list PyVal) : bool :=
         match x, y with
         | [], [] => true
         | u :: x', v :: y' => pyval_eqb u v && all2 x' y'
         | _, _ => false
         end) x y
  | _, _ => false
  end.

(** *** Matching [nargs] patterns

    [argparse] matches regular expressions against the string of ['O'],
    ['A'] and ['-'] that classifies the argument strings.  The patterns
    it builds are sequences of single characters and starred character
    classes. *)

Inductive SymK : Type := KA | KO | KDash.

Definition symk_eqb (a b : SymK) : bool :=
  match a, b with
  | KA, KA | KO, KO | KDash, KDash => true
  | _, _ => false
  end.

Definition in_class (c : SymK) (cs : list SymK) : bool :=
  existsb (symk_eqb c) cs.

Inductive Atom : Type :=
| One (cs : list SymK)       (* one character of the class *)
| Many (cs : list SymK).     (* class*, greedy *)

(** [re.match] of a sequence of atoms at the start of [s]: how many
    characters each atom took, in the first alternative that a greedy,
    backtracking matcher finds. *)
Fixpoint match_atoms (p : list Atom) (s : list SymK) {struct p}
  : option (list nat) :=
  match p with
  | [] => Some []
  | One cs :: p' =>
      match s with
      | c :: s' =>
          if in_class c cs
          then option_map (cons 1) (match_atoms p' s')
          else None
      | [] => None
      end
  | Many cs :: p' =>
      (fix star (s : list SymK) : option (list nat) :=
         let stop := option_map (cons 0) (match_atoms p' s) in
         match s with
         | c :: s' =>
             if in_class c cs
             then match star s' with
                  | Some (n :: r) => Some (S n :: r)
                  | _ => stop
                  end
             else stop
         | [] => stop
         end) s
  end.

(** [_get_nargs_pattern] before the adjustment for optionals. *)
Definition nargs_pattern_base (n : Nargs) : list Atom :=
  match n with
  | NargsNone => [Many [KDash]; One [KA]; Many [KDash]]        (* group of -*A-* *)
  | NargsStar => [Many [KDash]; Many [KA; KDash]]              (* group of -*[A-]* *)
  | NargsZero => [Many [KDash]; Many [KDash]]                  (* group of -*-* *)
  end.

Definition is_dash_star (a : Atom) : bool :=
  match a with
  | Many [KDash] => true
  | _ => false
  end.

Definition drop_dash (a : Atom) : Atom :=
  let keep := filter (fun c => negb (symk_eqb c KDash)) in
  match a with
  | One cs => One (keep cs)
  | Many cs => Many (keep cs)
  end.

(** [_get_nargs_pattern]: an optional's pattern has its ['-*'] and then
    its ['-'] removed. *)
Definition nargs_pattern (a : Action) : list Atom :=
  let base := nargs_pattern_base (nargs a) in
  match option_strings a with
  | [] => base
  | _ :: _ => map drop_dash (filter (fun x => negb (is_dash_star x)) base)
  end.

Definition sum_nat (l : list nat) : nat := fold_right Nat.add 0 l.

(** The lengths of the groups of a match, one group per pattern. *)
Fixpoint group_lengths (groups : list (list Atom)) (counts : list nat)
  : list nat :=
  match groups with
  | [] => []
  | g :: rest =>
      sum_nat (firstn (List.length g) counts)
      :: group_lengths rest (skipn (List.length g) counts)
  end.

Definition match_groups (groups : list (list Atom)) (s : list SymK)
  : option (list nat) :=
  option_map (group_lengths groups) (match_atoms (concat groups) s).

(** [_match_arguments_partial]: the longest prefix of [actions] whose
    patterns match together. *)
Fixpoint match_arguments_partial_upto (i : nat) (actions : list Action)
  (s : list SymK) : list nat :=
  match i with
  | 0 => []
  | S j =>
      match match_groups (map nargs_pattern (firstn i actions)) s with
      | Some lens => lens
      | None => match_arguments_partial_upto j actions s
      end
  end.

Definition match_arguments_partial (actions : list Action) (s : list SymK)
  : list nat :=
  match_arguments_partial_upto (List.length actions) actions s.

(** *** Classification of the argument strings *)

(** An option tuple: the action an option string selects (none when the
    string looks like an option that the parser does not have), the
    option string, and the argument attached to it. *)
Definition OptionTuple : Type := (option Action * string * option string)%type.

Inductive Sym : Type :=
| SymO (t : OptionTuple)     (* 'O' *)
| SymA                       (* 'A' *)
| SymDash.                   (* '-', the first '--' *)

Definition Item : Type := (string * Sym)%type.

Definition sym_kind (s : Sym) : SymK :=
  match s with
  | SymO _ => KO
  | SymA => KA
  | SymDash => KDash
  end.

Definition pattern_of (items : list Item) : list SymK :=
  map (fun it => sym_kind (snd it)) items.

(** The class [\d] of a [str] pattern is the decimal digits of Unicode;
    of the code points below 256 these are 48 to 57. *)
Definition is_digit (c : ascii) : bool :=
  let n := nat_of_ascii c in Nat.leb 48 n && Nat.leb n 57.

Fixpoint all_digits (s : string) : bool :=
  match s with
  | EmptyString => true
  | String c s' => is_digit c && all_digits s'
  end.

Definition nonempty (s : string) : bool :=
  match s with
  | EmptyString => false
  | String _ _ => true
  end.

(** The text that a final [$] accepts: [s] without one trailing newline. *)
Fixpoint chomp (s : string) : string :=
  match s with
  | EmptyString => EmptyString
  | String c EmptyString => if Ascii.eqb c nl_char then EmptyString else s
  | String c s' => String c (chomp s')
  end.

(** [_negative_number_matcher.match]: a dash and digits, or a dash,
    digits, a dot and at least one digit; the digits are those of the
    class [\d], [is_digit]. *)
Definition negative_number_like (s : string) : bool :=
  match s with
  | String c body =>
      Ascii.eqb c "-" &&
      (let b := chomp body in
       (nonempty b && all_digits b)
       || match split_first "." b with
          | Some (i, f) => all_digits i && nonempty f && all_digits f
          | None => false
          end)
  | EmptyString => false
  end.

Definition first_char (s : string) : string :=
  match s with
  | String c _ => String c EmptyString
  | EmptyString => EmptyString
  end.

(** [s[1] in prefix_chars] *)
Definition second_is_dash (s : string) : bool :=
  match s with
  | String _ (String c _) => Ascii.eqb c "-"
  | _ => false
  end.

(** History of the [take_action] calls and state of [_parse_known_args]. *)
Definition ActionTuple : Type := (Action * list string * option string)%type.

Record PState : Type := mkState {
  st_namespace : Namespace;
  st_seen : list nat;                 (* seen_actions *)
  st_extras : list string;            (* extras *)
  st_positionals : list Action;       (* positionals still to be parsed *)
  st_calls : list ActionTuple         (* the take_action calls so far *)
}.

Definition with_namespace (st : PState) (ns : Namespace) : PState :=
  mkState ns (st_seen st) (st_extras st) (st_positionals st) (st_calls st).

Definition add_extras (st : PState) (l : list string) : PState :=
  mkState (st_namespace st) (st_seen st) (st_extras st ++ l)
          (st_positionals st) (st_calls st).

Definition with_positionals (st : PState) (l : list Action) : PState :=
  mkState (st_namespace st) (st_seen st) (st_extras st) l (st_calls st).

Definition mark_seen (st : PState) (t : ActionTuple) : PState :=
  mkState (st_namespace st) (ident (fst (fst t)) :: st_seen st) (st_extras st)
          (st_positionals st) (st_calls st ++ [t]).

(** [arg_strings.remove('--')]: without its first ['--'], if any. *)
Fixpoint remove_first_dashdash (l : list string) : list string :=
  match l with
  | [] => []
  | x :: rest =>
      if String.eqb x "--" then rest else x :: remove_first_dashdash rest
  end.

(** An [ArgumentParser]: its program name and actions, and the renderings
    of its help formatter, which are taken as given. *)
Record ArgumentParser : Type := mkParser {
  p_prog : string;                        (* parser.prog *)
  p_actions : list Action;                (* parser._actions *)
  p_format_usage : string;                (* parser.format_usage() *)
  p_format_help : string;                 (* parser.format_help() *)
  p_format_text : string -> string;       (* the formatter on one text *)
  p_repr_str : string -> string           (* repr of a string *)
}.

Section Parser.

Variable self : ArgumentParser.

Local Abbreviation prog := (p_prog self).
Local Abbreviation actions := (p_actions self).
Local Abbreviation format_usage := (p_format_usage self).
Local Abbreviation format_help := (p_format_help self).
Local Abbreviation format_text := (p_format_text self).
Local Abbreviation repr_str := (p_repr_str self).

(** [_print_message] *)
Definition print_message (out : string -> Event) (message : string)
  : M unit :=
  match message with
  | EmptyString => ret tt
  | _ => emit (out message)
  end.

(** [parser.exit(status, message)] *)
Definition exit {A} (status : Z) (message : string) : M A :=
  print_message EStderr message ;;
  raise (SystemExit_ status).

(** [parser.error(message)] *)
Definition error {A} (message : string) : M A :=
  print_message EStderr format_usage ;;
  exit 2 (prog ^^ ": error: " ^^ message ^^ nl).

(** [_get_action_name] *)
Definition get_action_name (a : Action) : option string :=
  match option_strings a with
  | _ :: _ => Some (join "/" (option_strings a))
  | [] => dest a
  end.

(** An [ArgumentError] of [_parse_known_args] always ends in
    [parser.error(str(err))]. *)
Definition argument_error {A} (a : Action) (message : string) : M A :=
  error (match get_action_name a with
         | Some name => "argument " ^^ name ^^ ": " ^^ message
         | None => message
         end).

(** [parser._option_string_actions], in insertion order. *)
Definition option_string_actions : list (string * Action) :=
  flat_map (fun a => map (fun s => (s, a)) (option_strings a)) actions.

Definition has_negative_number_optionals : bool :=
  existsb (fun p => negative_number_like (fst p)) option_string_actions.

(** [_get_option_tuples], with [allow_abbrev] on. *)
Definition get_option_tuples (option_string : string)
  : M (list OptionTuple) :=
  match option_string with
  | String c0 (String c1 rest) =>
      if Ascii.eqb c0 "-" && Ascii.eqb c1 "-" then
        let '(option_prefix, explicit_arg) :=
          match split_first "=" option_string with
          | Some (a, b) => (a, Some b)
          | None => (option_string, None)
          end in
        ret (flat_map
               (fun p : string * Action =>
                  if startswith (fst p) option_prefix
                  then [(Some (snd p), fst p, explicit_arg)]
                  else [])
               option_string_actions)
      else if Ascii.eqb c0 "-" then
        let short_option_prefix := String c0 (String c1 EmptyString) in
        let short_explicit_arg := rest in
        ret (flat_map
               (fun p : string * Action =>
                  if String.eqb (fst p) short_option_prefix
                  then [(Some (snd p), fst p, Some short_explicit_arg)]
                  else if startswith (fst p) option_string
                  then [(Some (snd p), fst p, None)]
                  else [])
               option_string_actions)
      else error ("unexpected option string: " ^^ option_string)
  | _ => error ("unexpected option string: " ^^ option_string)
  end.

(** [_parse_optional]: [None] for a positional argument. *)
Definition parse_optional (arg_string : string) : M (option OptionTuple) :=
  match arg_string with
  | EmptyString => ret None
  | String c0 rest =>
      if negb (Ascii.eqb c0 "-") then ret None
      else
        match lookup arg_string option_string_actions with
        | Some a => ret (Some (Some a, arg_string, None))
        | None =>
            match rest with
            | EmptyString => ret None
            | String _ _ =>
                let before_eq :=
                  match split_first "=" arg_string with
                  | Some (option_string, explicit_arg) =>
                      match lookup option_string option_string_actions with
                      | Some a => Some (Some a, option_string, Some explicit_arg)
                      | None => None
                      end
                  | None => None
                  end in
                match before_eq with
                | Some t => ret (Some t)
                | None =>
                    option_tuples <- get_option_tuples arg_string ;;
                    match option_tuples with
                    | _ :: _ :: _ =>
                        error ("ambiguous option: " ^^ arg_string
                               ^^ " could match "
                               ^^ join ", " (map (fun t : OptionTuple =>
                                                    snd (fst t))
                                                 option_tuples))
                    | [t] => ret (Some t)
                    | [] =>
                        if negative_number_like arg_string
                           && negb has_negative_number_optionals
                        then ret None
                        else if has_char " " arg_string then ret None
                        else ret (Some (None, arg_string, None))
                    end
                end
            end
        end
  end.

(** The first loop of [_parse_known_args]: everything after the first
    ['--'] is an argument. *)
Fixpoint classify (arg_strings : list string) : M (list Item) :=
  match arg_strings with
  | [] => ret []
  | arg_string :: rest =>
      if String.eqb arg_string "--"
      then ret ((arg_string, SymDash) :: map (fun s => (s, SymA)) rest)
      else
        option_tuple <- parse_optional arg_string ;;
        items <- classify rest ;;
        ret ((arg_string,
              match option_tuple with
              | Some t => SymO t
              | None => SymA
              end) :: items)
  end.

(** *** Values *)

(** [_get_value]: the [type=] function applied to one argument
    string. *)
Definition get_value (a : Action) (arg_string : string) : M PyVal :=
  match type_ a with
  | None => ret (VStr arg_string)
  | Some type_func =>
      emits (fst (type_func arg_string)) ;;
      match snd (type_func arg_string) with
      | TVal v => ret v
      | TArgumentTypeError msg => argument_error a msg
      | TValueError =>
          argument_error a ("invalid " ^^ type_name a ^^ " value: "
                            ^^ repr_str arg_string)
      end
  end.

(** [_check_value]: [value not in action.choices] hashes the value,
    which a list does not allow. *)
Definition check_value (a : Action) (value : PyVal) : M unit :=
  match choices a with
  | None => ret tt
  | Some keys =>
      let invalid : M unit :=
        argument_error a ("invalid choice: " ^^ py_repr repr_str value
                          ^^ " (choose from "
                          ^^ join ", " (map repr_str keys) ^^ ")") in
      match value with
      | VStr s => if mem_str s keys then ret tt else invalid
      | VList _ => raise (TypeError_ "unhashable type: 'list'")
      | _ => invalid
      end
  end.

(** [_get_values] *)
Definition get_values (a : Action) (arg_strings : list string) : M PyVal :=
  let arg_strings := remove_first_dashdash arg_strings in
  match arg_strings, nargs a, option_strings a with
  | [], NargsStar, [] =>
      let value := match default a with
                   | VNone => VList []
                   | d => d
                   end in
      check_value a value ;;
      ret value
  | [arg_string], NargsNone, _ =>
      value <- get_value a arg_string ;;
      check_value a value ;;
      ret value
  | _, _, _ =>
      values <- map_m (get_value a) arg_strings ;;
      for_each values (check_value a) ;;
      ret (VList values)
  end.

(** [take_action]: the action is marked as seen, its values are
    converted, and the action object is called. *)
Definition take_action (st : PState) (t : ActionTuple) : M PState :=
  let a := fst (fst t) in
  let st := mark_seen st t in
  argument_values <- get_values a (snd (fst t)) ;;
  match kind a with
  | Store =>
      ret (match dest a with
           | Some d =>
               with_namespace st (setattr (st_namespace st) d argument_values)
           | None => st
           end)
  | StoreTrue =>
      ret (match dest a with
           | Some d =>
               with_namespace st (setattr (st_namespace st) d (VBool true))
           | None => st
           end)
  | HelpAction =>
      print_message EStdout format_help ;;
      exit 0 EmptyString
  | VersionAction version =>
      print_message EStdout (format_text version) ;;
      exit 0 EmptyString
  end.

(** *** Optionals *)

(** [_match_argument] *)
Definition match_argument (a : Action) (pattern : list SymK) : M nat :=
  match match_atoms (nargs_pattern a) pattern with
  | Some counts => ret (sum_nat counts)
  | None =>
      argument_error a
        match nargs a with
        | NargsNone => "expected one argument"
        | NargsStar => "expected * arguments"
        | NargsZero => "expected 0 arguments"
        end
  end.

(** The branch of [consume_optional] without an explicit argument: the
    option takes the argument strings that follow it.  The number
    returned is the count of following strings taken. *)
Definition no_explicit (a : Action) (option_string : string)
  (action_tuples : list ActionTuple) (following : list Item)
  : M (list ActionTuple * nat) :=
  arg_count <- match_argument a (pattern_of following) ;;
  ret (action_tuples
         ++ [(a, map fst (firstn arg_count following), Some option_string)],
       arg_count).

(** The branch with an explicit argument.  A single-dash option that
    takes no argument hands the rest of the string on to the option
    named by its next character. *)
Fixpoint with_explicit (explicit_arg : string) (a : Action)
  (option_string : string) (action_tuples : list ActionTuple)
  (following : list Item) {struct explicit_arg}
  : M (list ActionTuple * nat) :=
  arg_count <- match_argument a [KA] ;;
  let ignored : M (list ActionTuple * nat) :=
    argument_error a ("ignored explicit argument " ^^ repr_str explicit_arg) in
  let otherwise : M (list ActionTuple * nat) :=
    if Nat.eqb arg_count 1
    then ret (action_tuples ++ [(a, [explicit_arg], Some option_string)], 0)
    else ignored in
  match explicit_arg with
  | String c new_explicit_arg =>
      if Nat.eqb arg_count 0 && negb (second_is_dash option_string) then
        let action_tuples := action_tuples ++ [(a, [], Some option_string)] in
        let option_string' := first_char option_string ^^ String c EmptyString in
        match lookup option_string' option_string_actions with
        | Some a' =>
            match new_explicit_arg with
            | EmptyString =>
                no_explicit a' option_string' action_tuples following
            | String _ _ =>
                with_explicit new_explicit_arg a' option_string'
                              action_tuples following
            end
        | None => ignored
        end
      else otherwise
  | EmptyString => otherwise
  end.

(** [consume_optional] for the option [arg_string], classified as [t]
    and followed by [following]. *)
Definition consume_optional (arg_string : string) (t : OptionTuple)
  (following : list Item) (st : PState) : M (PState * nat) :=
  match fst (fst t) with
  | None => ret (add_extras st [arg_string], 0)
  | Some a =>
      r <- match snd t with
           | Some explicit_arg =>
               with_explicit explicit_arg a (snd (fst t)) [] following
           | None => no_explicit a (snd (fst t)) [] following
           end ;;
      st' <- fold_m take_action st (fst r) ;;
      ret (st', snd r)
  end.

(** *** Positionals *)

Fixpoint take_positionals (pairs : list (Action * nat)) (items : list Item)
  (st : PState) (taken : nat) : M (PState * nat) :=
  match pairs with
  | [] => ret (st, taken)
  | (a, arg_count) :: rest =>
      st' <- take_action st (a, map fst (firstn arg_count items), None) ;;
      take_positionals rest (skipn arg_count items) st' (taken + arg_count)
  end.

(** [consume_positionals]: as many positionals as match at the start
    of [items]; the number returned is the count of strings taken. *)
Definition consume_positionals (items : list Item) (st : PState)
  : M (PState * nat) :=
  let positionals := st_positionals st in
  let arg_counts := match_arguments_partial positionals (pattern_of items) in
  r <- take_positionals (combine positionals arg_counts) items st 0 ;;
  ret (with_positionals (fst r) (skipn (List.length arg_counts) positionals),
       snd r).

(** *** The main loop *)

(** The strings before the next option string, and that option with
    what follows it. *)
Fixpoint split_at_option (items : list Item)
  : list Item * option (string * OptionTuple * list Item) :=
  match items with
  | [] => ([], None)
  | (s, SymO t) :: rest => ([], Some (s, t, rest))
  | it :: rest =>
      let (before, r) := split_at_option rest in (it :: before, r)
  end.

(** [while start_index <= max_option_string_index], on the strings
    from [start_index] on; the result is the state and the strings left
    when the loop ends.  Every round takes at least one string, so a
    [fuel] above the number of strings is never used up
    ([consume_loop_fuel]). *)
Fixpoint consume_loop (fuel : nat) (items : list Item) (st : PState)
  : M (PState * list Item) :=
  match fuel with
  | 0 => ret (st, items)
  | S fuel' =>
      match split_at_option items with
      | (_, None) => ret (st, items)
      | ([], Some (arg_string, t, following)) =>
          r <- consume_optional arg_string t following st ;;
          consume_loop fuel' (skipn (snd r) following) (fst r)
      | (before, Some (arg_string, t, following)) =>
          r <- consume_positionals items st ;;
          if Nat.ltb 0 (snd r)
          then consume_loop fuel' (skipn (snd r) items) (fst r)
          else
            r' <- consume_optional arg_string t following
                    (add_extras (fst r) (map fst before)) ;;
            consume_loop fuel' (skipn (snd r') following) (fst r')
      end
  end.

(** The defaults that [parse_known_args] puts into a fresh
    namespace. *)
Definition initial_namespace : Namespace :=
  fold_left
    (fun ns a =>
       match dest a with
       | Some d => if hasattr ns d then ns else setattr ns d (default a)
       | None => ns
       end)
    actions [].

(** One round of the loop over [_actions] that collects the required
    actions not seen and converts string defaults. *)
Definition finish_action (acc : PState * list string) (a : Action)
  : M (PState * list string) :=
  let st := fst acc in
  if existsb (Nat.eqb (ident a)) (st_seen st) then ret acc
  else if required a then
    ret (st, snd acc ++ match get_action_name a with
                        | Some name => [name]
                        | None => []
                        end)
  else
    match default a, dest a with
    | VStr s, Some d =>
        match lookup d (st_namespace st) with
        | Some v =>
            if pyval_eqb v (default a) then
              v' <- get_value a s ;;
              ret (with_namespace st (setattr (st_namespace st) d v'), snd acc)
            else ret acc
        | None => ret acc
        end
    | _, _ => ret acc
    end.

(** [_parse_known_args], returning its whole final state. *)
Definition parse_known_args_state (arg_strings : list string) : M PState :=
  items <- classify arg_strings ;;
  let positionals :=
    filter (fun a => match option_strings a with
                     | [] => true
                     | _ :: _ => false
                     end) actions in
  let st0 := mkState initial_namespace [] [] positionals [] in
  r <- consume_loop (S (List.length items)) items st0 ;;
  let rest := snd r in
  r' <- consume_positionals rest (fst r) ;;
  let st' := add_extras (fst r') (map fst (skipn (snd r') rest)) in
  fin <- fold_m finish_action (st', []) actions ;;
  match snd fin with
  | _ :: _ =>
      error ("the following arguments are required: " ^^ join ", " (snd fin))
  | [] => ret (fst fin)
  end.

(** [parse_known_args] *)
Definition parse_known_args (arg_strings : list string)
  : M (Namespace * list string) :=
  st <- parse_known_args_state arg_strings ;;
  ret (st_namespace st, st_extras st).

(** [parser.parse_args(args)] *)
Definition parse_args (arg_strings : list string) : M Namespace :=
  r <- parse_known_args arg_strings ;;
  match snd r with
  | _ :: _ => error ("unrecognized arguments: " ^^ join " " (snd r))
  | [] => ret (fst r)
  end.

End Parser.

(** What [_get_values] returns for an action without [type=] and without
    [choices=]. *)
Definition plain_values (a : Action) (arg_strings : list string) : PyVal :=
  match remove_first_dashdash arg_strings, nargs a, option_strings a with
  | [], NargsStar, [] =>
      match default a with
      | VNone => VList []
      | d => d
      end
  | [arg_string], NargsNone, _ => VStr arg_string
  | l, _, _ => VList (map VStr l)
  end.

(** The events that parsing a command line can perform: writes to the
    standard streams and the opening of files by [type=] functions. *)
Definition parse_event (ev : Event) : Prop :=
  match ev with
  | EStdout _ | EStderr _ | EOpen _ => True
  | _ => False
  end.

(** Actions, option tuples and classified strings that belong to a given
    list of actions. *)
Definition tuple_ok (acts : list Action) (t : ActionTuple) : Prop :=
  In (fst (fst t)) acts.

Definition option_ok (acts : list Action) (t : OptionTuple) : Prop :=
  match fst (fst t) with
  | Some a => In a acts
  | None => True
  end.

Definition item_ok (acts : list Action) (it : Item) : Prop :=
  match snd it with
  | SymO t => option_ok acts t
  | _ => True
  end.

(** How [parse_args] leaves when it does not return: by [SystemExit],
    with status 0, or with status 2 after the line of [parser.error] on
    the standard error. *)
Definition parser_exit (self : ArgumentParser) (t : list Event) (e : PyExc)
  : Prop :=
  e = SystemExit_ 0
  \/ (e = SystemExit_ 2
      /\ exists before message,
           t = before ++ [EStderr (p_prog self ^^ ": error: " ^^ message ^^ nl)]).

(** A value that [in] can look up among the keys of a dict. *)
Definition hashable (v : PyVal) : Prop :=
  match v with
  | VList _ => False
  | _ => True
  end.

(** The state in which [_parse_known_args] starts. *)
Definition start (self : ArgumentParser) : PState :=
  mkState (initial_namespace self) [] []
    (filter (fun a => match option_strings a with
                      | [] => true
                      | _ :: _ => false
                      end) (p_actions self)) [].

(** The [take_action] calls account for the actions seen. *)
Definition seen_calls (st : PState) : Prop :=
  st_seen st = rev (map (fun c : ActionTuple => ident (fst (fst c))) (st_calls st)).

(** An attribute whose actions were never taken holds the default. *)
Definition untouched (acts : list Action) (st : PState) : Prop :=
  forall a d,
    In a acts -> dest a = Some d ->
    (forall c, In c (st_calls st) -> dest (fst (fst c)) <> Some d) ->
    lookup d (st_namespace st) = Some (default a).

(** What a [store] action without [type=] and [choices=], or a
    [store_true] action, writes when it is taken with [strs]. *)
Definition stored_value (a : Action) (strs : list string) : option PyVal :=
  match kind a, type_ a, choices a with
  | StoreTrue, _, _ => Some (VBool true)
  | Store, None, None => Some (plain_values a strs)
  | _, _, _ => None
  end.

(** An attribute holds what the last take of its actions wrote. *)
Definition last_take (st : PState) : Prop :=
  forall before a strs os after d v,
    st_calls st = before ++ (a, strs, os) :: after ->
    dest a = Some d ->
    (forall c, In c after -> dest (fst (fst c)) <> Some d) ->
    stored_value a strs = Some v ->
    lookup d (st_namespace st) = Some v.


(** The argument strings before the first ['--']: the ones that the
    first loop of [_parse_known_args] hands to [_parse_optional]. *)
Fixpoint options_part (arg_strings : list string) : list string :=
  match arg_strings with
  | [] => []
  | s :: rest => if String.eqb s "--" then [] else s :: options_part rest
  end.





End Argparse.

(** ** The command line front end, [kbdgen/cli.py] *)

Module Cli.
Import Py Argparse.

(** What [open(name, 'r')] does. *)
Inductive OpenRes : Type :=
| Opened (f : PyVal)
| OSError (msg : string)       (* str(e) of the OSError *)
| OpenValueError.              (* for instance an embedded null byte *)

(** What [run_cli] reads from its surroundings: the package ([__version__]
    and the registry [gen]), the interpreter and the process, the
    renderings of the help formatter, and the collaborators it calls
    (the project parser, the generator classes and their instances). *)
Record World : Type := mkWorld {
  version : string;                                   (* __version__ *)
  gen : list (string * GenClass);                     (* the dict gen, in order *)
  repr_str : string -> string;                        (* repr of a string *)
  format_usage : string;
  format_help : string;
  format_text : string -> string;
  sys_stdin : PyVal;
  open_r : string -> OpenRes;
  sys_version : string;
  platform_platform : string;
  os_environ : list (string * string);
  Parser_parse : PyVal -> PyVal -> Res PyVal;         (* Parser().parse(p, c) *)
  construct : GenClass -> PyVal -> list (string * PyVal) -> Res PyVal;
  output_dir : PyVal -> Res PyVal;                    (* x.output_dir *)
  generate : PyVal -> PyVal -> Res PyVal              (* x.generate(out) *)
}.

(** [logging_type], the [type=] of [--logging]. *)
Definition logging_type (string_ : string) : list Event * TypeRes :=
  let n := lookup string_
             [("critical", 50%Z); ("error", 40%Z); ("warning", 30%Z);
              ("info", 20%Z); ("debug", 10%Z); ("trace", 5%Z)] in
  match n with
  | None => ([], TArgumentTypeError "Invalid logging level.")
  | Some n => ([], TVal (VInt n))
  end.

Section WithWorld.

Variable w : World.

(** [argparse.FileType("r")], the [type=] of [--global]. *)
Definition FileType_r (string_ : string) : list Event * TypeRes :=
  if String.eqb string_ "-" then ([], TVal (sys_stdin w))
  else
    ([EOpen string_],
     match open_r w string_ with
     | Opened f => TVal f
     | OSError e =>
         TArgumentTypeError ("can't open '" ^^ string_ ^^ "': " ^^ e)
     | OpenValueError => TValueError
     end).

(** [gen.keys()] *)
Definition gen_keys : list string := map fst (gen w).

(** The action of [-K/--key]: [nargs="*"], [dest="cfg_pairs"], no
    default. *)
Definition key_action : Action :=
  mkAction 5 ["-K"; "--key"] (Some "cfg_pairs") NargsStar Store
           VNone None "None" false None.

(** The action of [-t/--target]: required, [choices=gen.keys()]. *)
Definition target_action : Action :=
  mkAction 13 ["-t"; "--target"] (Some "target") NargsNone Store
           VNone None "None" true (Some gen_keys).

(** The actions of the parser that [parse_args] builds: the help action
    that [ArgumentParser] adds by itself, then one per [add_argument],
    in the order of the calls.  [dest] is the long option string
    without its dashes and with [-] replaced by [_], unless given. *)
Definition parser_actions : list Action :=
  [ mkAction 0 ["-h"; "--help"] None NargsZero HelpAction
             VNone None "None" false None;
    mkAction 1 ["--version"] None NargsZero
             (VersionAction ("%(prog)s " ^^ version w))
             VNone None "None" false None;
    mkAction 2 ["--logging"] (Some "logging") NargsNone Store
             (VInt 20) (Some logging_type) "logging_type" false None;
    mkAction 3 ["--local"] (Some "local") NargsZero StoreTrue
             (VBool false) None "None" false None;
    mkAction 4 ["--legacy"] (Some "legacy") NargsZero StoreTrue
             (VBool false) None "None" false None;
    key_action;
    mkAction 6 ["-D"; "--dry-run"] (Some "dry_run") NargsZero StoreTrue
             (VBool false) None "None" false None;
    mkAction 7 ["-R"; "--release"] (Some "release") NargsZero StoreTrue
             (VBool false) None "None" false None;
    mkAction 8 ["-G"; "--global"] (Some "global") NargsNone Store
             VNone (Some FileType_r) "FileType('r')" false None;
    mkAction 9 ["-r"; "--kbd-repo"] (Some "kbd_repo") NargsNone Store
             VNone None "None" false None;
    mkAction 10 ["-b"; "--kbd-branch"] (Some "kbd_branch") NargsNone Store
             (VStr "main") None "None" false None;
    mkAction 11 ["--divvunspell-repo"] (Some "divvunspell_repo") NargsNone
             Store VNone None "None" false None;
    mkAction 12 ["--divvunspell-branch"] (Some "divvunspell_branch")
             NargsNone Store VNone None "None" false None;
    target_action;
    mkAction 14 ["-o"; "--output"] (Some "output") NargsNone Store
             (VStr ".") None "None" false None;
    mkAction 15 [] (Some "project") NargsNone Store
             VNone None "None" true None;
    mkAction 16 ["-f"; "--flag"] (Some "flags") NargsStar Store
             (VList []) None "None" false None;
    mkAction 17 ["-l"; "--layout"] (Some "layout") NargsNone Store
             VNone None "None" false None;
    mkAction 18 ["--github-username"] (Some "github_username") NargsNone
             Store VNone None "None" false None;
    mkAction 19 ["--github-token"] (Some "github_token") NargsNone Store
             VNone None "None" false None;
    mkAction 20 ["-c"; "--command"] (Some "command") NargsNone Store
             VNone None "None" false None;
    mkAction 21 ["--ci"] (Some "ci") NargsZero StoreTrue
             (VBool false) None "None" false None ].

(** [p = argparse.ArgumentParser(prog="kbdgen")] with its
    arguments added. *)
Definition p : ArgumentParser :=
  mkParser "kbdgen" parser_actions (format_usage w) (format_help w)
           (format_text w) (repr_str w).

(** [parse_args(args)] *)
Definition parse_args (args : list string) : M Namespace :=
  Argparse.parse_args p args.

(** [enable_verbose_requests_log()] *)
Definition enable_verbose_requests_log : M unit :=
  emit (EHttpDebuglevel 1) ;;
  emit (EGetLogger "urllib3").

(** [print_diagnostics()] *)
Definition print_diagnostics : M unit :=
  emit (ELog DEBUG (LMsg ("Python version: "
          ^^ repr_str w (join " " (split_on nl_char (sys_version w)))))) ;;
  emit (ELog DEBUG (LMsg ("Platform: " ^^ repr_str w (platform_platform w)))) ;;
  emit (ELog DEBUG (LMsg "Environment:")) ;;
  for_each (os_environ w)
    (fun kv => emit (ELog DEBUG (LMsg ("  " ^^ fst kv ^^ " = "
                                       ^^ repr_str w (snd kv))))).

(** [args.name] *)
Definition getattr (args : Namespace) (name : string) : M PyVal :=
  match lookup name args with
  | Some v => ret v
  | None =>
      raise (AttributeError_ ("'Namespace' object has no attribute '"
                              ^^ name ^^ "'"))
  end.

(** [v == n] for an integer literal [n] *)
Definition py_eq_int (v : PyVal) (n : Z) : bool :=
  match v with
  | VInt z => Z.eqb z n
  | VBool b => Z.eqb (if b then 1 else 0) n
  | _ => false
  end.

(** [gen.get(key)]: a list cannot be hashed; no key but a string is in
    the registry. *)
Definition gen_get (key : PyVal) : M (option GenClass) :=
  match key with
  | VStr s => ret (lookup s (gen w))
  | VList _ => raise (TypeError_ "unhashable type: 'list'")
  | _ => ret None
  end.

Definition is_None (v : PyVal) : bool :=
  match v with
  | VNone => true
  | _ => false
  end.

(** The [try] statement around the project parser.  [inl project] is
    the normal exit, [inr v] a [return v] in a handler. *)
Definition load_project (args : Namespace) : M (PyVal + PyVal) :=
  try_except
    (path <- getattr args "project" ;;
     cfg_pairs <- getattr args "cfg_pairs" ;;
     emit (EParse path cfg_pairs) ;;
     project <- lift (Parser_parse w path cfg_pairs) ;;
     if is_None project
     then raise (Exception_ "Project parser returned empty project.")
     else ret (inl project))
    (fun e =>
       if is_ScannerError e then
         emit (ELog CRITICAL
                 (LMsg ("Error parsing project:" ^^ nl
                        ^^ strip (py_str (repr_str w) (exc_problem e))
                        ^^ " "
                        ^^ strip (py_str (repr_str w) (exc_problem_mark e))))) ;;
         ret (inr (VInt 1))
       else if is_Exception e then
         for_each (exc_args e)
           (fun arg => emit (ELog CRITICAL (LMsg (py_str (repr_str w) arg)))) ;;
         if is_UserException e then ret (inr (VInt 1))
         else
           emit (ELog CRITICAL (LMsg
             "You should not be seeing this error. Please report this as a bug.")) ;;
           emit (ELog CRITICAL (LMsg
             "To receive a more detailed stacktrace, add `--logging trace` to your build command and submit it with your bug report.")) ;;
           emit (ELog CRITICAL (LMsg
             "URL: <https://github.com/divvun/kbdgen/issues/>")) ;;
           ret (inr (VInt 1))
       else raise e).

(** The [try] statement around [x.generate(x.output_dir)].  The
    property [x.output_dir] is read inside it, before the call, and can
    raise like any property. *)
Definition run_generate (x : PyVal) : M unit :=
  try_except
    (out <- lift (output_dir w x) ;;
     emit (EGenerate x out) ;;
     lift (generate w x out) ;;
     ret tt)
    (fun e =>
       if is_KbdgenException e then emit (ELog ERROR (LExc e))
       else raise e).

(** The statements of [run_cli] after the project is loaded: the
    generator class is looked up, an instance is constructed and asked
    to generate. *)
Definition dispatch (args : Namespace) (project : PyVal) : M PyVal :=
  target <- getattr args "target" ;;
  generator <- gen_get target ;;
  match generator with
  | None =>
      target <- getattr args "target" ;;
      emit (EStderr ("Error: '" ^^ py_str (repr_str w) target
                     ^^ "' is not a valid target." ^^ nl)) ;;
      emit (EStderr ("Valid targets: " ^^ join ", " gen_keys ^^ nl)) ;;
      ret (VInt 1)
  | Some cls =>
      let options := args in          (* dict(args._get_kwargs()) *)
      emit (EConstruct cls project options) ;;
      x <- lift (construct w cls project options) ;;
      run_generate x ;;
      ret VNone
  end.

(** [run_cli] from the statement after [args = parse_args(cli_args)]
    on. *)
Definition run_cli_from (args : Namespace) : M PyVal :=
  print_diagnostics ;;
  level <- getattr args "logging" ;;
  (if py_eq_int level 5 then enable_verbose_requests_log else ret tt) ;;
  loaded <- load_project args ;;
  match loaded with
  | inr v => ret v
  | inl project => dispatch args project
  end.

(** [run_cli(cli_args)] *)
Definition run_cli (cli_args : list string) : M PyVal :=
  args <- parse_args cli_args ;;
  run_cli_from args.

(** The records of the diagnostic dump. *)
Definition diagnostics : list Event :=
  [ ELog DEBUG (LMsg ("Python version: "
       ^^ repr_str w (join " " (split_on nl_char (sys_version w)))));
    ELog DEBUG (LMsg ("Platform: " ^^ repr_str w (platform_platform w)));
    ELog DEBUG (LMsg "Environment:") ]
  ++ map (fun kv => ELog DEBUG (LMsg ("  " ^^ fst kv ^^ " = "
                                      ^^ repr_str w (snd kv))))
         (os_environ w).

(** The records that follow a failure that is not the user's. *)
Definition bug_report : list Event :=
  [ ELog CRITICAL (LMsg
      "You should not be seeing this error. Please report this as a bug.");
    ELog CRITICAL (LMsg
      "To receive a more detailed stacktrace, add `--logging trace` to your build command and submit it with your bug report.");
    ELog CRITICAL (LMsg "URL: <https://github.com/divvun/kbdgen/issues/>") ].

(** The value of [args.cfg_pairs] after the [take_action] calls [calls]:
    [None] until the action of [-K/--key] is taken, then the strings of
    its last take. *)
Definition stores_cfg_pairs (t : ActionTuple) : bool :=
  match dest (fst (fst t)) with
  | Some d => String.eqb d "cfg_pairs"
  | None => false
  end.

Fixpoint cfg_pairs_of (calls : list ActionTuple) (current : PyVal) : PyVal :=
  match calls with
  | [] => current
  | t :: rest =>
      cfg_pairs_of rest
        (if stores_cfg_pairs t
         then plain_values (fst (fst t)) (snd (fst t))
         else current)
  end.


(** What [parse_args] leaves in [args.target]: a key of the registry, or
    a list (from a lone [--] attached to the option). *)
Definition target_ok (v : PyVal) : Prop :=
  (exists s, v = VStr s /\ mem_str s gen_keys = true) \/ (exists l, v = VList l).

(** What holds of the state of the argument parser all along
    [parse_args]: no attribute is ever removed, [cfg_pairs] follows the
    takes of [-K/--key], and once [-t/--target] has been seen [target] is
    a key of the registry or a list. *)
Definition state_inv (st : PState) : Prop :=
  (forall k, lookup k (initial_namespace p) <> None ->
             lookup k (st_namespace st) <> None)
  /\ lookup "cfg_pairs" (st_namespace st)
     = Some (cfg_pairs_of (st_calls st) VNone)
  /\ (In 13 (st_seen st) ->
      exists v, lookup "target" (st_namespace st) = Some v /\ target_ok v)
  /\ Forall (tuple_ok (p_actions p)) (st_calls st).

End WithWorld.

(** *** The option [-K/--key] on the command line *)

(** The one-letter options of [parse_args] that take no argument: [-h]
    of the parser itself, [-D] and [-R]. *)
Definition is_flag (c : ascii) : bool :=
  Ascii.eqb c "h" || Ascii.eqb c "D" || Ascii.eqb c "R".

(** The letters after the dash of a one-dash argument string give
    [-K]: one-letter options that take no argument, then [K] (what
    follows [K] is its value). *)
Fixpoint cluster_key (s : string) : bool :=
  match s with
  | EmptyString => false
  | String c r => Ascii.eqb c "K" || (is_flag c && cluster_key r)
  end.

(** What follows the first option letter of a one-dash string: an [=]
    right after the letter separates it from what is attached to it. *)
Definition after_eq (r : string) : string :=
  match r with
  | String c r' => if Ascii.eqb c "=" then r' else r
  | EmptyString => r
  end.

(** The argument strings that give the option [-K/--key]: [--key] or
    its abbreviation [--ke], alone or with [=value]; or one dash, then
    letters of options without argument, if any, then [K], as in [-K],
    [-Kvalue], [-K=value], [-DK], [-DRKvalue] and [-D=K].  ([--k] is
    also the start of [--kbd-repo] and [--kbd-branch].) *)
Definition key_flag (s : string) : bool :=
  match s with
  | String c0 (String c1 r) =>
      if negb (Ascii.eqb c0 "-") then false
      else if Ascii.eqb c1 "-" then
        let name := match split_first "=" s with
                    | Some (a, _) => a
                    | None => s
                    end in
        startswith "--key" name && startswith name "--ke"
      else
        cluster_key (String c1 (after_eq r))
  | _ => false
  end.







(** The events by which verbose logging of HTTP connections is switched
    on, for the level [--logging trace]. *)
Definition http_events (level : PyVal) : list Event :=
  if py_eq_int level 5
  then [EHttpDebuglevel 1; EGetLogger "urllib3"]
  else [].

(** How many generator instances a trace constructs, and how many
    [generate] calls it makes. *)
Fixpoint count_construct (t : list Event) : nat :=
  match t with
  | [] => 0
  | EConstruct _ _ _ :: rest => S (count_construct rest)
  | _ :: rest => count_construct rest
  end.

Fixpoint count_generate (t : list Event) : nat :=
  match t with
  | [] => 0
  | EGenerate _ _ :: rest => S (count_generate rest)
  | _ :: rest => count_generate rest
  end.

(** An event that neither constructs a generator nor asks one to
    generate. *)
Definition quiet (ev : Event) : Prop :=
  match ev with
  | EConstruct _ _ _ | EGenerate _ _ => False
  | _ => True
  end.

(** At most one generator instance and at most one [generate] call. *)
Definition at_most_once (t : list Event) : Prop :=
  count_construct t <= 1 /\ count_generate t <= 1.

(** An event other than a [logger.debug] record. *)
Definition not_debug (ev : Event) : Prop :=
  match ev with
  | ELog DEBUG _ => False
  | _ => True
  end.

(** An event with the [logging] entry of the options given to a
    generator class blanked. *)
Definition without_logging (ev : Event) : Event :=
  match ev with
  | EConstruct cls project options =>
      EConstruct cls project (setattr options "logging" VNone)
  | _ => ev
  end.

(** The values of [logging_type]. *)
Definition levels : list Z := [50; 40; 30; 20; 10; 5]%Z.

(** What [parse_args] leaves in [args.logging]: one of the levels, or a
    list (from a lone [--] attached to the option). *)
Definition level_ok (v : PyVal) : Prop :=
  (exists n, v = VInt n /\ In n levels) \/ (exists l, v = VList l).

(** The destinations of the [store_true] actions. *)
Definition flag_names : list string :=
  ["local"; "legacy"; "dry_run"; "release"; "ci"].

(** The attributes of the namespace of [parse_args], in order. *)
Definition attribute_names : list string :=
  ["logging"; "local"; "legacy"; "cfg_pairs"; "dry_run"; "release"; "global";
   "kbd_repo"; "kbd_branch"; "divvunspell_repo"; "divvunspell_branch";
   "target"; "output"; "project"; "flags"; "layout"; "github_username";
   "github_token"; "command"; "ci"].

(** A namespace whose level and flags have the values they can have. *)
Definition typed (ns : Namespace) : Prop :=
  (exists v, lookup "logging" ns = Some v /\ level_ok v)
  /\ (forall k, In k flag_names -> exists b, lookup k ns = Some (VBool b)).

(** What holds of the state of the argument parser all along
    [parse_args], besides [state_inv]. *)
Definition shape (w : World) (st : PState) : Prop :=
  typed (st_namespace st)
  /\ untouched (p_actions (p w)) st
  /\ seen_calls st.

(** An event with the [dry_run] entry of the options given to a
    generator class blanked. *)
Definition without_dry_run (ev : Event) : Event :=
  match ev with
  | EConstruct cls project options =>
      EConstruct cls project (setattr options "dry_run" VNone)
  | _ => ev
  end.

(** Modelled from the spec: the exit code of the process.  The entry
    point that calls [run_cli] is not among the sources; the exit code is
    what [sys.exit(run_cli(argv))] gives: 0 for [None], the integer
    returned otherwise, the status of a [SystemExit], and 1 for any other
    exception that is not caught. *)
Definition exit_code (r : Res PyVal) : Z :=
  match r with
  | Ok VNone => 0
  | Ok (VInt n) => n
  | Ok _ => 1
  | Raise e =>
      match exc_class e, exc_code e with
      | "SystemExit", VInt n => n
      | "SystemExit", VNone => 0
      | _, _ => 1
      end
  end.

End Cli.

(** ** The override parser *)

Module Overrides.
Import Py.

(** Why a raw override is refused. *)
Inductive MalformedOverrideError : Type :=
| MissingSeparator (raw : string)      (* no top-level [=] *)
| EmptySegment (raw : string).         (* an empty path segment *)

(** A node of an overlay: a scalar, kept as the original string, or a
    nested overlay.  Mappings keep their keys in insertion order. *)
#[warnings="-register-all"]
Inductive Node : Type :=
| Scalar (value : string)
| Tree (children : list (string * Node)).

Definition OverlayTree : Type := list (string * Node).
Definition Path : Type := list string.

(** Modelled from the spec: one [RawOverride] [dotted.path=value] is
    split on its first [=] only and its path on [.]; an entry without
    [=] or with an empty path segment is malformed.  (The override
    parser is part of the project parser, [kbdgen.base.Parser], which is
    not among the sources.) *)
Definition split_raw (raw : string) : MalformedOverrideError + (Path * string) :=
  match split_first "=" raw with
  | None => inl (MissingSeparator raw)
  | Some (path, value) =>
      let segments := split_on "." path in
      if existsb (String.eqb EmptyString) segments
      then inl (EmptySegment raw)
      else inr (segments, value)
  end.

Fixpoint get (k : string) (t : OverlayTree) : option Node :=
  match t with
  | [] => None
  | (k', n) :: rest => if String.eqb k' k then Some n else get k rest
  end.

(** [t[k] = n]: an existing key keeps its place. *)
Fixpoint set (k : string) (n : Node) (t : OverlayTree) : OverlayTree :=
  match t with
  | [] => [(k, n)]
  | (k', n') :: rest =>
      if String.eqb k' k then (k', n) :: rest else (k', n') :: set k n rest
  end.

(** Modelled from the spec: inserting a value at a path.  The value
    replaces whatever sits at the path; a scalar met on the way down is
    replaced by the nested overlay that the rest of the path needs. *)
Fixpoint insert (path : Path) (value : string) (t : OverlayTree)
  : OverlayTree :=
  match path with
  | [] => t
  | k :: rest =>
      match rest with
      | [] => set k (Scalar value) t
      | _ :: _ =>
          let sub := match get k t with
                     | Some (Tree children) => children
                     | _ => []
                     end in
          set k (Tree (insert rest value sub)) t
      end
  end.

Fixpoint parse_onto (t : OverlayTree) (raw : list string)
  : MalformedOverrideError + OverlayTree :=
  match raw with
  | [] => inr t
  | r :: rest =>
      match split_raw r with
      | inl e => inl e
      | inr (path, value) => parse_onto (insert path value t) rest
      end
  end.

(** Modelled from the spec: [parse_overrides(raw)], the overrides
    inserted one after the other, in the order given, into an empty
    overlay. *)
Definition parse_overrides (raw : list string)
  : MalformedOverrideError + OverlayTree :=
  parse_onto [] raw.

(** The [path=value] pairs of an overlay, in the order of its keys. *)
Fixpoint flatten_node (prefix : Path) (n : Node) : list (Path * string) :=
  match n with
  | Scalar v => [(prefix, v)]
  | Tree children =>
      (fix go (l : list (string * Node)) : list (Path * string) :=
         match l with
         | [] => []
         | (k, n') :: rest => flatten_node (prefix ++ [k]) n' ++ go rest
         end) children
  end.

Definition flatten (t : OverlayTree) : list (Path * string) :=
  flatten_node [] (Tree t).

(** The overrides of a list, when all of them are well formed. *)
Fixpoint writes_of (raw : list string) : option (list (Path * string)) :=
  match raw with
  | [] => Some []
  | r :: rest =>
      match split_raw r, writes_of rest with
      | inr w, Some ws => Some (w :: ws)
      | _, _ => None
      end
  end.

Fixpoint is_prefix (p q : Path) : bool :=
  match p, q with
  | [], _ => true
  | a :: p', b :: q' => String.eqb a b && is_prefix p' q'
  | _ :: _, [] => false
  end.

(** Two writes meet when one path is the other one or leads to it. *)
Definition conflict (p q : Path) : bool := is_prefix p q || is_prefix q p.

(** The last write of [writes] that meets the path [p]. *)
Fixpoint last_write (writes : list (Path * string)) (p : Path)
  : option (Path * string) :=
  match writes with
  | [] => None
  | (q, w) :: rest =>
      match last_write rest p with
      | Some x => Some x
      | None => if conflict p q then Some (q, w) else None
      end
  end.

(** Modelled from the spec: a [RawOverride] is a string of the form
    [dotted.path=value]; this is the one that writes [value] at
    [path]. *)
Definition render (w : Path * string) : string :=
  join "." (fst w) ^^ "=" ^^ snd w.

(** A text without [.] and [=]. *)
Definition plain (s : string) : bool :=
  negb (has_char "." s) && negb (has_char "=" s).

(** A path segment: not empty, and without [.] and [=]. *)
Definition segment (s : string) : bool :=
  negb (String.eqb s EmptyString) && plain s.

(** A write whose path has at least one segment, none of them empty. *)
Definition well_formed (w : Path * string) : Prop :=
  fst w <> [] /\ Forall (fun s => segment s = true) (fst w).

(** Modelled from the spec: an entry that lacks a top-level [=]
    separator or has an empty path segment. *)
Definition malformed (raw : string) : Prop :=
  has_char "=" raw = false
  \/ exists path value,
       raw = render (path, value) /\ path <> []
       /\ Forall (fun s => plain s = true) path /\ In EmptyString path.

(** Every mapping of an overlay has each of its keys once. *)
#[warnings="-register-all"]
Inductive unique_keys : Node -> Prop :=
| unique_scalar v : unique_keys (Scalar v)
| unique_tree l :
    NoDup (map fst l) ->
    Forall (fun kn => unique_keys (snd kn)) l ->
    unique_keys (Tree l).

(** The mapping under the key [k], empty when there is none. *)
Definition children_at (k : string) (t : OverlayTree) : OverlayTree :=
  match get k t with
  | Some (Tree children) => children
  | _ => []
  end.

(** The writes [ws] made one after the other on the overlay [t]. *)
Definition apply_writes (ws : list (Path * string)) (t : OverlayTree)
  : OverlayTree :=
  fold_left (fun t pw => insert (fst pw) (snd pw) t) ws t.

End Overrides.

(** ** Concrete surroundings, for running the model *)

Module Demo.
Import Py Argparse Cli.

Definition quote (s : string) : string := "'" ^^ s ^^ "'".

Definition registry : list (string * GenClass) :=
  [("win", Class "WindowsGenerator"); ("mac", Class "MacGenerator");
   ("android", Class "AndroidGenerator")].

(** A generator instance remembers the [output] option it was built
    with. *)
Definition build (cls : GenClass) (project : PyVal)
  (options : list (string * PyVal)) : Res PyVal :=
  Ok (match lookup "output" options with
      | Some (VStr out) => VObj out
      | _ => VObj "."
      end).

Definition instance_output_dir (x : PyVal) : Res PyVal :=
  Ok match x with
     | VObj out => VStr out
     | _ => VStr "."
     end.

(** Surroundings in which the project parser answers [load] and every
    [generate] ends as [done]. *)
Definition world (load : Res PyVal) (done : Res PyVal) : World :=
  mkWorld "2.0.0" registry quote
          ("usage: kbdgen [-h] -t {win,mac,android} project" ^^ nl)
          ("usage: kbdgen [-h] -t {win,mac,android} project" ^^ nl)
          (fun text => text ^^ nl)
          (VObj "<stdin>")
          (fun name => OSError "No such file or directory")
          ("3.11.2 (main)" ^^ nl ^^ "[GCC 12.2.0]")
          "Linux-6.1-x86_64"
          [("HOME", "/root"); ("LANG", "C.UTF-8")]
          (fun _ _ => load)
          build
          instance_output_dir
          (fun _ _ => done).

Definition project : PyVal := VObj "<kbdgen.base.Project>".

(** Everything works. *)
Definition fine : World := world (Ok project) (Ok VNone).

(** Surroundings in which every generator class fails to construct its
    instance. *)
Definition failing_constructor (e : PyExc) : World :=
  mkWorld "2.0.0" registry quote
          ("usage: kbdgen [-h] -t {win,mac,android} project" ^^ nl)
          ("usage: kbdgen [-h] -t {win,mac,android} project" ^^ nl)
          (fun text => text ^^ nl)
          (VObj "<stdin>")
          (fun name => OSError "No such file or directory")
          ("3.11.2 (main)" ^^ nl ^^ "[GCC 12.2.0]")
          "Linux-6.1-x86_64"
          [("HOME", "/root"); ("LANG", "C.UTF-8")]
          (fun _ _ => Ok project)
          (fun _ _ _ => Raise e)
          instance_output_dir
          (fun _ _ => Ok VNone).

(** A YAML scanner error, as [yaml.scanner.ScannerError] carries it. *)
Definition scanner_error : PyExc :=
  mkExc "ScannerError" true true false false []
        (VStr "mapping values are not allowed here")
        (VObj ("  in " ^^ quote "project.yaml" ^^ ", line 3, column 8"))
        VNone.

Definition kbdgen_exception : PyExc :=
  mkExc "KbdgenException" true false false true
        [VStr "Build failed"] VNone VNone VNone.

Definition key_error : PyExc :=
  mkExc "KeyError" true false false false
        [VStr "layouts"] VNone VNone VNone.

Definition user_exception : PyExc :=
  mkExc "UserException" true false true false
        [VStr "Layout file not found."; VInt 3] VNone VNone VNone.

(** An exception that is not of class [Exception]. *)
Definition keyboard_interrupt : PyExc :=
  mkExc "KeyboardInterrupt" false false false false [] VNone VNone VNone.

(** Surroundings in which reading [output_dir] raises a
    [KbdgenException]. *)
Definition no_output_dir : World :=
  mkWorld "2.0.0" registry quote
          ("usage: kbdgen [-h] -t {win,mac,android} project" ^^ nl)
          ("usage: kbdgen [-h] -t {win,mac,android} project" ^^ nl)
          (fun text => text ^^ nl)
          (VObj "<stdin>")
          (fun name => OSError "No such file or directory")
          ("3.11.2 (main)" ^^ nl ^^ "[GCC 12.2.0]")
          "Linux-6.1-x86_64"
          [("HOME", "/root"); ("LANG", "C.UTF-8")]
          (fun _ _ => Ok project)
          build
          (fun _ => Raise kbdgen_exception)
          (fun _ _ => Ok VNone).

(** Command lines, and the namespaces that [parse_args] makes of
    them. *)
Definition namespace_of (cli_args : list string) : Namespace :=
  match snd (parse_args fine cli_args) with
  | Ok args => args
  | Raise _ => []
  end.

Definition cli : list string := ["-t"; "win"; "proj.kbdgen"].
Definition parsed : Namespace := Eval vm_compute in namespace_of cli.

Definition cli_dry_run : list string :=
  ["--dry-run"; "-t"; "win"; "proj.kbdgen"].
Definition parsed_dry_run : Namespace :=
  Eval vm_compute in namespace_of cli_dry_run.

Definition cli_debug : list string :=
  ["--logging"; "debug"; "-t"; "win"; "proj.kbdgen"].
Definition parsed_debug : Namespace :=
  Eval vm_compute in namespace_of cli_debug.

Definition cli_no_values : list string :=
  ["proj.kbdgen"; "-t"; "win"; "-K"].

Definition cli_values : list string :=
  ["-t"; "win"; "-K"; "a=1"; "a.b=2"; "--"; "proj.kbdgen"].

(** Options given twice. *)
Definition cli_twice : list string :=
  ["-o"; "a"; "-f"; "x"; "-t"; "win"; "--out=b"; "-f"; "--"; "proj.kbdgen"].
Definition parsed_twice : Namespace :=
  Eval vm_compute in namespace_of cli_twice.

(** A lone [--] attached to [-t]. *)
Definition cli_dashes : list string := ["-t--"; "proj.kbdgen"].
Definition parsed_dashes : Namespace :=
  Eval vm_compute in namespace_of cli_dashes.

End Demo.

(** * Properties *)

(** ** Reasoning about computations

    [spec P Q m]: every event of [m] satisfies [P], and if [m] returns,
    its value satisfies [Q]. *)

Module Hoare.
Import Py.

Definition spec {A} (P : Event -> Prop) (Q : A -> Prop) (m : M A) : Prop :=
  Forall P (fst m) /\ forall a, snd m = Ok a -> Q a.

(** [raises E Q m]: if [m] returns, its value satisfies [Q]; if it
    raises, its events and the exception satisfy [E]. *)
Definition raises {A} (E : list Event -> PyExc -> Prop) (Q : A -> Prop)
  (m : M A) : Prop :=
  match snd m with
  | Ok a => Q a
  | Raise e => E (fst m) e
  end.

Lemma bind_ok {A B} (m : M A) (f : A -> M B) t a :
  m = (t, Ok a) -> bind m f = (t ++ fst (f a), snd (f a)).
Proof.
  intros ->. unfold bind. destruct (f a); reflexivity.
Qed.

Lemma bind_raise {A B} (m : M A) (f : A -> M B) t e :
  m = (t, Raise e) -> bind m f = (t, Raise e).
Proof.
  intros ->. reflexivity.
Qed.

Lemma bind_inv_ok {A B} (m : M A) (f : A -> M B) t b :
  bind m f = (t, Ok b) ->
  exists t1 a t2, m = (t1, Ok a) /\ f a = (t2, Ok b) /\ t = t1 ++ t2.
Proof.
  destruct m as [t1 [a | e]]; unfold bind.
  - destruct (f a) as [t2 r] eqn:E. intros H. inversion H; subst.
    exists t1, a, t2. auto.
  - discriminate.
Qed.

Lemma bind_ret_l {A B} (a : A) (f : A -> M B) : bind (ret a) f = f a.
Proof.
  unfold bind, ret. destruct (f a); reflexivity.
Qed.

Lemma try_except_raise {A} t e (h : PyExc -> M A) :
  try_except (t, Raise e) h = (t ++ fst (h e), snd (h e)).
Proof.
  unfold try_except. destruct (h e); reflexivity.
Qed.

Lemma eta {A} (m : M A) : m = (fst m, snd m).
Proof. destruct m; reflexivity. Qed.

Section Rules.

Variable P : Event -> Prop.

Lemma spec_ret {A} (Q : A -> Prop) a : Q a -> spec P Q (ret a).
Proof.
  intros H. split; [constructor |]. simpl. intros ? [= <-]. exact H.
Qed.

Lemma spec_raise {A} (Q : A -> Prop) e : spec P Q (raise e).
Proof.
  split; [constructor |]. simpl. discriminate.
Qed.

Lemma spec_emit (Q : unit -> Prop) ev : P ev -> Q tt -> spec P Q (emit ev).
Proof.
  intros Hev HQ. split; [repeat constructor; exact Hev |].
  simpl. intros ? [= <-]. exact HQ.
Qed.

Lemma spec_emits (Q : unit -> Prop) evs :
  Forall P evs -> Q tt -> spec P Q (emits evs).
Proof.
  intros Hev HQ. split; [exact Hev |]. simpl. intros ? [= <-]. exact HQ.
Qed.

Lemma spec_bind {A B} (R : A -> Prop) (Q : B -> Prop) m (f : A -> M B) :
  spec P R m -> (forall a, R a -> spec P Q (f a)) -> spec P Q (bind m f).
Proof.
  intros [Ht Hr] Hf. destruct m as [t [a | e]]; simpl in *.
  - specialize (Hf a (Hr a eq_refl)). destruct Hf as [Ht' Hq].
    destruct (f a) as [t' r]; simpl in *. split.
    + apply Forall_app; auto.
    + exact Hq.
  - split; [exact Ht | discriminate].
Qed.

Lemma spec_weaken {A} (Q Q' : A -> Prop) m :
  spec P Q m -> (forall a, Q a -> Q' a) -> spec P Q' m.
Proof.
  intros [Ht Hq] H. split; auto.
Qed.

Lemma spec_for_each {A} (l : list A) (body : A -> M unit) :
  (forall x, In x l -> spec P (fun _ => True) (body x)) ->
  spec P (fun _ => True) (for_each l body).
Proof.
  induction l as [| x rest IH]; intros H; simpl.
  - now apply spec_ret.
  - apply spec_bind with (R := fun _ => True).
    + apply H. now left.
    + intros _ _. apply IH. intros y Hy. apply H. now right.
Qed.

Lemma spec_map_m {A B} (f : A -> M B) (l : list A) :
  (forall x, In x l -> spec P (fun _ => True) (f x)) ->
  spec P (fun _ => True) (map_m f l).
Proof.
  induction l as [| x rest IH]; intros H; simpl.
  - now apply spec_ret.
  - apply spec_bind with (R := fun _ => True).
    + apply H. now left.
    + intros y _. apply spec_bind with (R := fun _ => True).
      * apply IH. intros z Hz. apply H. now right.
      * intros ys _. now apply spec_ret.
Qed.

Lemma spec_fold_m {A B} (I : A -> Prop) (f : A -> B -> M A) (l : list B) :
  (forall a x, In x l -> I a -> spec P I (f a x)) ->
  forall a, I a -> spec P I (fold_m f a l).
Proof.
  induction l as [| x rest IH]; intros H a Ha; simpl.
  - now apply spec_ret.
  - apply spec_bind with (R := I).
    + apply H; [now left | exact Ha].
    + intros a' Ha'. apply IH; [| exact Ha'].
      intros b y Hy. apply H. now right.
Qed.

Lemma spec_lift {A} (r : Res A) : spec P (fun _ => True) (lift r).
Proof.
  split; [constructor | auto].
Qed.

Lemma spec_try_except {A} (Q : A -> Prop) m (h : PyExc -> M A) :
  spec P Q m -> (forall e, spec P Q (h e)) -> spec P Q (try_except m h).
Proof.
  intros [Ht Hq] Hh. destruct m as [t [a | e]]; simpl in *.
  - split; [exact Ht | exact Hq].
  - destruct (Hh e) as [Ht' Hq']. destruct (h e) as [t' r]. simpl in *.
    split; [apply Forall_app; auto | exact Hq'].
Qed.

End Rules.

(** The two parts of a [spec], read on an equation. *)
Lemma spec_trace {A} P (Q : A -> Prop) m t r :
  spec P Q m -> m = (t, r) -> Forall P t.
Proof.
  intros [H _] ->. exact H.
Qed.

Lemma spec_value {A} P (Q : A -> Prop) m t a :
  spec P Q m -> m = (t, Ok a) -> Q a.
Proof.
  intros [_ H] ->. now apply H.
Qed.

End Hoare.

(** ** White space *)

Module StripFacts.
Import Py.

Lemma lstrip_spec s :
  exists lead,
    s = lead ^^ lstrip s /\ all_space lead = true
    /\ forall c r, lstrip s = String c r -> is_space c = false.
Proof.
  induction s as [| c s IH]; simpl.
  - exists EmptyString. repeat split. discriminate.
  - destruct (is_space c) eqn:Ec.
    + destruct IH as [lead [Hs [Hl Hc]]]. exists (String c lead).
      simpl. rewrite Ec, Hl. split; [| auto]. unfold cat in *. simpl.
      now rewrite <- Hs.
    + exists EmptyString. repeat split. intros c' r [= <- _]. exact Ec.
Qed.

Lemma rstrip_spec s :
  exists trail, s = rstrip s ^^ trail /\ all_space trail = true.
Proof.
  induction s as [| c s IH]; simpl.
  - exists EmptyString. auto.
  - destruct IH as [trail [Hs Ht]]. destruct (rstrip s) as [| k kept] eqn:Er.
    + unfold cat in Hs. simpl in Hs. subst trail.
      destruct (is_space c) eqn:Ec.
      * exists (String c s). simpl. rewrite Ec, Ht. auto.
      * exists s. auto.
    + exists trail. split; [| exact Ht]. unfold cat in *. simpl in *.
      now rewrite <- Hs.
Qed.

Lemma append_single r c d :
  (r ++ String c EmptyString)%string = String d EmptyString ->
  r = EmptyString /\ c = d.
Proof.
  destruct r as [| x r]; simpl.
  - now intros [= ->].
  - intros [= _ H]. destruct r; discriminate H.
Qed.

Lemma rstrip_last s :
  forall r c, rstrip s = r ^^ String c EmptyString -> is_space c = false.
Proof.
  unfold cat. induction s as [| d s IH]; intros r c; simpl.
  - destruct r; discriminate.
  - destruct (rstrip s) as [| k kept] eqn:Er.
    + destruct (is_space d) eqn:Ed.
      * destruct r; discriminate.
      * intros H. symmetry in H. apply append_single in H.
        destruct H as [_ ->]. exact Ed.
    + intros H. destruct r as [| x r]; simpl in H.
      * discriminate H.
      * injection H as _ H. now apply (IH r c).
Qed.

Lemma rstrip_first c s :
  is_space c = false -> exists r, rstrip (String c s) = String c r.
Proof.
  intros Ec. simpl. destruct (rstrip s); [rewrite Ec |]; eauto.
Qed.

(** [strip] takes the white space off both ends, and nothing else. *)
Lemma strip_trimmed s : trimmed_of s (strip s).
Proof.
  unfold strip.
  destruct (lstrip_spec s) as [lead [Hs [Hl Hc]]].
  destruct (rstrip_spec (lstrip s)) as [trail [Hu Ht]].
  exists lead, trail. split; [| split; [exact Hl | split; [exact Ht |]]].
  - now rewrite <- Hu.
  - split; [| apply rstrip_last].
    intros c r Hr. destruct (lstrip s) as [| d u] eqn:Eu.
    + discriminate Hr.
    + specialize (Hc d u eq_refl).
      destruct (rstrip_first d u Hc) as [r' Hr']. rewrite Hr' in Hr.
      injection Hr as <- _. exact Hc.
Qed.

End StripFacts.

(** ** The argument parser *)

Module ArgparseFacts.
Import Py Argparse Hoare.

Section Invariant.

Variable self : ArgumentParser.

(** The events allowed while parsing. *)
Variable P : Event -> Prop.
Hypothesis P_stdout : forall s, P (EStdout s).
Hypothesis P_stderr : forall s, P (EStderr s).
Hypothesis P_type :
  forall a f s, In a (p_actions self) -> type_ a = Some f -> Forall P (fst (f s)).

Lemma spec_print_message (out : string -> Event) msg (Q : unit -> Prop) :
  (forall s, P (out s)) -> Q tt -> spec P Q (print_message out msg).
Proof.
  intros Hout HQ. unfold print_message. destruct msg.
  - now apply spec_ret.
  - now apply spec_emit.
Qed.

Lemma spec_exit {A} status msg (Q : A -> Prop) : spec P Q (exit status msg).
Proof.
  unfold exit. apply spec_bind with (R := fun _ => True).
  - now apply spec_print_message.
  - intros _ _. apply spec_raise.
Qed.

Lemma spec_error {A} msg (Q : A -> Prop) : spec P Q (error self msg).
Proof.
  unfold error. apply spec_bind with (R := fun _ => True).
  - now apply spec_print_message.
  - intros _ _. apply spec_exit.
Qed.

Lemma spec_argument_error {A} a msg (Q : A -> Prop) :
  spec P Q (argument_error self a msg).
Proof.
  unfold argument_error. apply spec_error.
Qed.

(** *** Where the actions of a parse come from *)

Lemma lookup_In {A} k (l : list (string * A)) x :
  lookup k l = Some x -> exists k', In (k', x) l.
Proof.
  induction l as [| [k' y] rest IH]; simpl; [discriminate |].
  destruct (String.eqb k' k).
  - intros [= <-]. exists k'. now left.
  - intros H. destruct (IH H) as [k'' Hin]. exists k''. now right.
Qed.

Lemma option_string_actions_In s a :
  In (s, a) (option_string_actions self) -> In a (p_actions self).
Proof.
  unfold option_string_actions. rewrite in_flat_map.
  intros [b [Hb Hin]]. apply in_map_iff in Hin.
  destruct Hin as [s' [[= _ <-] _]]. exact Hb.
Qed.

Lemma lookup_option_In s a :
  lookup s (option_string_actions self) = Some a -> In a (p_actions self).
Proof.
  intros H. destruct (lookup_In _ _ _ H) as [k Hin].
  now apply option_string_actions_In in Hin.
Qed.

Lemma flat_map_option_ok (f : string * Action -> list OptionTuple) l :
  (forall p t, In p l -> In t (f p) -> fst (fst t) = Some (snd p)) ->
  (forall p, In p l -> In (snd p) (p_actions self)) ->
  Forall (option_ok (p_actions self)) (flat_map f l).
Proof.
  intros Hf Hl. apply Forall_forall. intros t Ht.
  apply in_flat_map in Ht. destruct Ht as [p [Hp Hin]].
  unfold option_ok. rewrite (Hf p t Hp Hin). now apply Hl.
Qed.

Lemma spec_get_option_tuples s :
  spec P (Forall (option_ok (p_actions self))) (get_option_tuples self s).
Proof.
  assert (Hl : forall p, In p (option_string_actions self) ->
                         In (snd p) (p_actions self)).
  { intros [k a] Hin. now apply option_string_actions_In in Hin. }
  unfold get_option_tuples.
  destruct s as [| c0 [| c1 rest]]; try apply spec_error.
  destruct (Ascii.eqb c0 "-" && Ascii.eqb c1 "-").
  - destruct (split_first "=" (String c0 (String c1 rest))) as [[a b] |];
      apply spec_ret; apply flat_map_option_ok; auto;
      intros p t _ Ht; destruct (startswith (fst p) _); simpl in Ht;
      [destruct Ht as [<- | []]; reflexivity | contradiction
      |destruct Ht as [<- | []]; reflexivity | contradiction].
  - destruct (Ascii.eqb c0 "-"); [| apply spec_error].
    apply spec_ret. apply flat_map_option_ok; auto.
    intros p t _ Ht. destruct (String.eqb (fst p) _); simpl in Ht.
    + destruct Ht as [<- | []]; reflexivity.
    + destruct (startswith (fst p) _); simpl in Ht;
        [destruct Ht as [<- | []]; reflexivity | contradiction].
Qed.

Lemma spec_parse_optional s :
  spec P (fun r => match r with
                   | Some t => option_ok (p_actions self) t
                   | None => True
                   end)
       (parse_optional self s).
Proof.
  unfold parse_optional. destruct s as [| c0 rest]; [now apply spec_ret |].
  destruct (negb (Ascii.eqb c0 "-")); [now apply spec_ret |].
  destruct (lookup (String c0 rest) (option_string_actions self)) as [a |] eqn:E.
  { apply spec_ret. unfold option_ok. simpl. now apply lookup_option_In in E. }
  destruct rest as [| c1 rest']; [now apply spec_ret |].
  destruct (split_first "=" (String c0 (String c1 rest'))) as [[os ex] |].
  - destruct (lookup os (option_string_actions self)) as [a |] eqn:E'.
    { apply spec_ret. unfold option_ok. simpl. now apply lookup_option_In in E'. }
    apply spec_bind with (R := Forall (option_ok (p_actions self)));
      [apply spec_get_option_tuples |].
    intros [| t [| t' l]] Hl.
    + destruct (_ && _); [now apply spec_ret |].
      destruct (has_char _ _); now apply spec_ret.
    + apply spec_ret. now inversion Hl.
    + apply spec_error.
  - apply spec_bind with (R := Forall (option_ok (p_actions self)));
      [apply spec_get_option_tuples |].
    intros [| t [| t' l]] Hl.
    + destruct (_ && _); [now apply spec_ret |].
      destruct (has_char _ _); now apply spec_ret.
    + apply spec_ret. now inversion Hl.
    + apply spec_error.
Qed.

Lemma spec_classify args :
  spec P (Forall (item_ok (p_actions self))) (classify self args).
Proof.
  induction args as [| a rest IH]; simpl.
  - apply spec_ret. constructor.
  - destruct (String.eqb a "--").
    + apply spec_ret. constructor; [exact I |].
      apply Forall_forall. intros it Hit. apply in_map_iff in Hit.
      destruct Hit as [x [<- _]]. exact I.
    + eapply spec_bind; [apply spec_parse_optional |].
      intros r Hr. eapply spec_bind; [apply IH |].
      intros items Hitems. apply spec_ret. constructor; [| exact Hitems].
      unfold item_ok. simpl. destruct r; [exact Hr | exact I].
Qed.

(** *** Values and actions *)

Lemma spec_get_value a s :
  In a (p_actions self) -> spec P (fun _ => True) (get_value self a s).
Proof.
  intros Ha. unfold get_value. destruct (type_ a) as [f |] eqn:E.
  - apply spec_bind with (R := fun _ => True).
    + apply spec_emits; [now apply (P_type a) | exact I].
    + intros _ _. destruct (snd (f s)); [now apply spec_ret | |];
        apply spec_argument_error.
  - now apply spec_ret.
Qed.

Lemma spec_check_value a v : spec P (fun _ => True) (check_value self a v).
Proof.
  unfold check_value. destruct (choices a); [| now apply spec_ret].
  destruct v; try apply spec_argument_error.
  - destruct (mem_str _ _); [now apply spec_ret | apply spec_argument_error].
  - apply spec_raise.
Qed.

Lemma spec_get_values a strs :
  In a (p_actions self) -> spec P (fun _ => True) (get_values self a strs).
Proof.
  intros Ha. unfold get_values.
  assert (Hlist : forall l,
    spec P (fun _ => True)
      (values <- map_m (get_value self a) l ;;
       for_each values (check_value self a) ;; ret (VList values))).
  { intros l. apply spec_bind with (R := fun _ => True).
    - apply spec_map_m. intros x _. now apply spec_get_value.
    - intros vs _. apply spec_bind with (R := fun _ => True).
      + apply spec_for_each. intros x _. apply spec_check_value.
      + intros _ _. now apply spec_ret. }
  assert (Hone : forall x,
    spec P (fun _ => True)
      (value <- get_value self a x ;; check_value self a value ;; ret value)).
  { intros x. apply spec_bind with (R := fun _ => True).
    - now apply spec_get_value.
    - intros v _. apply spec_bind with (R := fun _ => True).
      + apply spec_check_value.
      + intros _ _. now apply spec_ret. }
  destruct (remove_first_dashdash strs) as [| x [| y l]];
    destruct (nargs a); destruct (option_strings a);
    try apply Hlist; try apply Hone.
  apply spec_bind with (R := fun _ => True).
  - apply spec_check_value.
  - intros _ _. now apply spec_ret.
Qed.

Lemma spec_take_action_positionals st t :
  tuple_ok (p_actions self) t ->
  spec P (fun st' => st_positionals st' = st_positionals st)
       (take_action self st t).
Proof.
  intros Ht. unfold take_action.
  apply spec_bind with (R := fun _ => True).
  - now apply spec_get_values.
  - intros v _. destruct (kind (fst (fst t))).
    + apply spec_ret. now destruct (dest (fst (fst t))).
    + apply spec_ret. now destruct (dest (fst (fst t))).
    + apply spec_bind with (R := fun _ => True).
      * now apply spec_print_message.
      * intros _ _. apply spec_exit.
    + apply spec_bind with (R := fun _ => True).
      * now apply spec_print_message.
      * intros _ _. apply spec_exit.
Qed.

(** The state invariant under proof: a property [Inv] that every
    [take_action] and every round of the final loop keeps. *)
Variable Inv : PState -> Prop.
Hypothesis Inv_extras : forall st l, Inv st -> Inv (add_extras st l).
Hypothesis Inv_positionals : forall st l, Inv st -> Inv (with_positionals st l).
Hypothesis Inv_take :
  forall st t tr st',
    tuple_ok (p_actions self) t -> Inv st ->
    take_action self st t = (tr, Ok st') -> Inv st'.
Hypothesis Inv_finish :
  forall acc a tr acc',
    In a (p_actions self) -> Inv (fst acc) ->
    finish_action self acc a = (tr, Ok acc') -> Inv (fst acc').

Local Abbreviation state_ok :=
  (fun st => Inv st /\ incl (st_positionals st) (p_actions self)).

Lemma spec_take_action st t :
  tuple_ok (p_actions self) t -> state_ok st ->
  spec P state_ok (take_action self st t).
Proof.
  intros Ht [Hinv Hpos].
  destruct (spec_take_action_positionals st t Ht) as [Htr Hval].
  split; [exact Htr |]. intros st' Hst'. split.
  - eapply Inv_take; [exact Ht | exact Hinv |].
    rewrite (eta (take_action self st t)), Hst'. reflexivity.
  - now rewrite (Hval st' Hst').
Qed.

Lemma spec_fold_take st tuples :
  Forall (tuple_ok (p_actions self)) tuples -> state_ok st ->
  spec P state_ok (fold_m (take_action self) st tuples).
Proof.
  intros Ht Hst. apply spec_fold_m; [| exact Hst].
  intros a x Hx Ha. apply spec_take_action; [| exact Ha].
  rewrite Forall_forall in Ht. now apply Ht.
Qed.

(** *** Optionals *)

Lemma spec_match_argument a pat :
  spec P (fun _ => True) (match_argument self a pat).
Proof.
  unfold match_argument. destruct (match_atoms _ _).
  - now apply spec_ret.
  - apply spec_argument_error.
Qed.

Lemma spec_no_explicit a os tuples following :
  In a (p_actions self) -> Forall (tuple_ok (p_actions self)) tuples ->
  spec P (fun r => Forall (tuple_ok (p_actions self)) (fst r))
       (no_explicit self a os tuples following).
Proof.
  intros Ha Ht. unfold no_explicit.
  apply spec_bind with (R := fun _ => True); [apply spec_match_argument |].
  intros n _. apply spec_ret. simpl. apply Forall_app. split; [exact Ht |].
  repeat constructor. exact Ha.
Qed.

Lemma spec_with_explicit e :
  forall a os tuples following,
    In a (p_actions self) -> Forall (tuple_ok (p_actions self)) tuples ->
    spec P (fun r => Forall (tuple_ok (p_actions self)) (fst r))
         (with_explicit self e a os tuples following).
Proof.
  induction e as [| c e' IH]; intros a os tuples following Ha Ht; simpl.
  - apply spec_bind with (R := fun _ => True); [apply spec_match_argument |].
    intros n _. destruct (Nat.eqb n 1); [| apply spec_argument_error].
    apply spec_ret. simpl. apply Forall_app. split; [exact Ht |].
    repeat constructor. exact Ha.
  - apply spec_bind with (R := fun _ => True); [apply spec_match_argument |].
    intros n _.
    assert (Ht' : Forall (tuple_ok (p_actions self))
                         (tuples ++ [(a, [], Some os)])).
    { apply Forall_app. split; [exact Ht |]. repeat constructor. exact Ha. }
    destruct (Nat.eqb n 0 && negb (second_is_dash os)).
    + destruct (lookup _ (option_string_actions self)) as [a' |] eqn:E;
        [| apply spec_argument_error].
      apply lookup_option_In in E. destruct e'.
      * now apply spec_no_explicit.
      * now apply IH.
    + destruct (Nat.eqb n 1); [| apply spec_argument_error].
      apply spec_ret. simpl. apply Forall_app. split; [exact Ht |].
      repeat constructor. exact Ha.
Qed.

Lemma spec_consume_optional s t following st :
  option_ok (p_actions self) t -> state_ok st ->
  spec P (fun r => state_ok (fst r))
       (consume_optional self s t following st).
Proof.
  intros Ht Hst. unfold consume_optional. unfold option_ok in Ht.
  destruct (fst (fst t)) as [a |].
  - apply spec_bind
      with (R := fun r => Forall (tuple_ok (p_actions self)) (fst r)).
    + destruct (snd t).
      * now apply spec_with_explicit.
      * now apply spec_no_explicit.
    + intros r Hr. apply spec_bind with (R := state_ok).
      * now apply spec_fold_take.
      * intros st' Hst'. now apply spec_ret.
  - apply spec_ret. simpl. destruct Hst as [Hinv Hpos]. split.
    + now apply Inv_extras.
    + exact Hpos.
Qed.

(** *** Positionals *)

Lemma spec_take_positionals pairs :
  forall items st n,
    Forall (fun p => In (fst p) (p_actions self)) pairs -> state_ok st ->
    spec P (fun r => state_ok (fst r))
         (take_positionals self pairs items st n).
Proof.
  induction pairs as [| [a k] rest IH]; intros items st n Hp Hst; simpl.
  - now apply spec_ret.
  - inversion Hp; subst. apply spec_bind with (R := state_ok).
    + now apply spec_take_action.
    + intros st' Hst'. now apply IH.
Qed.

Lemma spec_consume_positionals items st :
  state_ok st ->
  spec P (fun r => state_ok (fst r)) (consume_positionals self items st).
Proof.
  intros Hst. unfold consume_positionals.
  apply spec_bind with (R := fun r => state_ok (fst r)).
  - apply spec_take_positionals; [| exact Hst].
    apply Forall_forall. intros [a k] Hin. apply in_combine_l in Hin.
    destruct Hst as [_ Hpos]. now apply Hpos.
  - intros r [Hinv Hpos]. apply spec_ret. simpl. split.
    + now apply Inv_positionals.
    + intros a Ha. destruct Hst as [_ Hpos0]. apply Hpos0.
      revert Ha. generalize (List.length
        (match_arguments_partial (st_positionals st) (pattern_of items))).
      generalize (st_positionals st). intros l n.
      rewrite <- (firstn_skipn n l) at 2. intros H. apply in_or_app. now right.
Qed.

(** *** The main loop *)

Lemma split_at_option_ok items before s t following :
  Forall (item_ok (p_actions self)) items ->
  split_at_option items = (before, Some (s, t, following)) ->
  option_ok (p_actions self) t /\ Forall (item_ok (p_actions self)) following.
Proof.
  revert before. induction items as [| [s' y] rest IH]; intros before Hok;
    simpl; [discriminate |].
  inversion Hok; subst. destruct y.
  - intros [= <- <- <- <-]. split; assumption.
  - destruct (split_at_option rest) as [b r] eqn:E.
    intros [= <- ->]. now apply (IH b).
  - destruct (split_at_option rest) as [b r] eqn:E.
    intros [= <- ->]. now apply (IH b).
Qed.

Lemma Forall_skipn {A} (Q : A -> Prop) n l : Forall Q l -> Forall Q (skipn n l).
Proof.
  intros H. rewrite <- (firstn_skipn n l) in H. apply Forall_app in H. tauto.
Qed.

Lemma spec_consume_loop fuel :
  forall items st,
    Forall (item_ok (p_actions self)) items -> state_ok st ->
    spec P (fun r => state_ok (fst r)) (consume_loop self fuel items st).
Proof.
  induction fuel as [| fuel IH]; intros items st Hitems Hst; simpl.
  - now apply spec_ret.
  - destruct (split_at_option items) as [before [[[s t] following] |]] eqn:E;
      [| destruct before; now apply spec_ret].
    destruct (split_at_option_ok _ _ _ _ _ Hitems E) as [Ht Hfol].
    destruct before as [| b before'].
    + apply spec_bind with (R := fun r => state_ok (fst r)).
      * now apply spec_consume_optional.
      * intros r Hr. apply IH; [now apply Forall_skipn | exact Hr].
    + apply spec_bind with (R := fun r => state_ok (fst r)).
      * now apply spec_consume_positionals.
      * intros r Hr. destruct (Nat.ltb 0 (snd r)).
        -- apply IH; [now apply Forall_skipn | exact Hr].
        -- apply spec_bind with (R := fun r => state_ok (fst r)).
           ++ apply spec_consume_optional; [exact Ht |].
              destruct Hr as [Hinv Hpos]. split; [now apply Inv_extras | exact Hpos].
           ++ intros r' Hr'. apply IH; [now apply Forall_skipn | exact Hr'].
Qed.

(** *** The final checks *)

Lemma spec_finish_action_trace acc a :
  In a (p_actions self) ->
  spec P (fun _ => True) (finish_action self acc a).
Proof.
  intros Ha. unfold finish_action.
  destruct (existsb _ _); [now apply spec_ret |].
  destruct (required a); [now apply spec_ret |].
  destruct (default a); try now apply spec_ret.
  destruct (dest a); [| now apply spec_ret].
  destruct (lookup _ _); [| now apply spec_ret].
  destruct (pyval_eqb _ _); [| now apply spec_ret].
  apply spec_bind with (R := fun _ => True).
  - now apply spec_get_value.
  - intros v _. now apply spec_ret.
Qed.

Lemma spec_finish_action acc a :
  In a (p_actions self) -> Inv (fst acc) ->
  spec P (fun acc' => Inv (fst acc')) (finish_action self acc a).
Proof.
  intros Ha Hacc. destruct (spec_finish_action_trace acc a Ha) as [Htr _].
  split; [exact Htr |]. intros acc' Hacc'.
  eapply Inv_finish; [exact Ha | exact Hacc |].
  rewrite (eta (finish_action self acc a)), Hacc'. reflexivity.
Qed.

(** The state in which [_parse_known_args] starts. *)
Lemma spec_parse_known_args_state args :
  Inv (mkState (initial_namespace self) [] []
               (filter (fun a => match option_strings a with
                                 | [] => true
                                 | _ :: _ => false
                                 end) (p_actions self)) []) ->
  spec P Inv (parse_known_args_state self args).
Proof.
  intros H0. unfold parse_known_args_state.
  eapply spec_bind; [apply spec_classify |]. intros items Hitems.
  apply spec_bind with (R := fun r => state_ok (fst r)).
  - apply spec_consume_loop; [exact Hitems |]. split; [exact H0 |].
    simpl. intros a Ha. apply filter_In in Ha. tauto.
  - intros r Hr. apply spec_bind with (R := fun r => state_ok (fst r)).
    + now apply spec_consume_positionals.
    + intros r' [Hr' _].
      apply spec_bind with (R := fun acc => Inv (fst acc)).
      * apply spec_fold_m.
        -- intros acc a Ha Hacc. now apply spec_finish_action.
        -- simpl. now apply Inv_extras.
      * intros fin Hfin. destruct (snd fin); [now apply spec_ret |].
        apply spec_error.
Qed.

End Invariant.

(** [parser.error] never returns. *)
Lemma error_raises {A} self msg :
  exists t e, @error self A msg = (t, Raise e).
Proof.
  destruct (@spec_error self (fun _ => True) (fun _ => I) A msg (fun _ => False))
    as [_ H].
  destruct (error self msg) as [t [a | e]]; [| eauto].
  destruct (H a eq_refl).
Qed.

(** [parse_args] returns the namespace of a final state without
    extras. *)
Lemma parse_args_state self args t ns :
  Argparse.parse_args self args = (t, Ok ns) ->
  exists st, parse_known_args_state self args = (t, Ok st)
             /\ ns = st_namespace st /\ st_extras st = [].
Proof.
  unfold Argparse.parse_args, parse_known_args.
  destruct (parse_known_args_state self args) as [t1 [st | e]];
    [| simpl; discriminate].
  unfold bind, ret. simpl. destruct (st_extras st) eqn:E.
  - simpl. intros [= <- <-]. exists st. rewrite !app_nil_r. auto.
  - match goal with
    | |- context [@error ?p ?A ?m] =>
        destruct (@error_raises A p m) as [t' [e' ->]]
    end.
    discriminate.
Qed.

Lemma parse_args_raise self args t e :
  parse_known_args_state self args = (t, Raise e) ->
  Argparse.parse_args self args = (t, Raise e).
Proof.
  unfold Argparse.parse_args, parse_known_args. intros ->. reflexivity.
Qed.

(** The events of [parse_args] are those its pieces allow. *)
Lemma spec_parse_args self (P : Event -> Prop) args :
  (forall s, P (EStdout s)) -> (forall s, P (EStderr s)) ->
  (forall a f s, In a (p_actions self) -> type_ a = Some f ->
                 Forall P (fst (f s))) ->
  spec P (fun _ => True) (Argparse.parse_args self args).
Proof.
  intros Ho He Ht. unfold Argparse.parse_args, parse_known_args.
  apply spec_bind with (R := fun _ => True).
  - apply spec_bind with (R := fun _ => True).
    + apply (spec_parse_known_args_state self P Ho He Ht (fun _ => True)); auto.
    + intros st _. now apply spec_ret.
  - intros r _. destruct (snd r); [now apply spec_ret |].
    now apply spec_error.
Qed.

(** *** The fuel of the main loop *)

Lemma split_at_option_length items before s t following :
  split_at_option items = (before, Some (s, t, following)) ->
  List.length following < List.length items.
Proof.
  revert before. induction items as [| [s' y] rest IH]; intros before;
    simpl; [discriminate |].
  destruct y.
  - intros [= _ _ _ <-]. lia.
  - destruct (split_at_option rest) as [b r]. intros [= _ ->].
    specialize (IH b eq_refl). lia.
  - destruct (split_at_option rest) as [b r]. intros [= _ ->].
    specialize (IH b eq_refl). lia.
Qed.

Lemma bind_ext {A B} (m : M A) (f g : A -> M B) :
  (forall a, f a = g a) -> bind m f = bind m g.
Proof.
  intros H. destruct m as [t [a | e]]; simpl; [now rewrite H | reflexivity].
Qed.

(** Fuel above the number of strings is never used up: more fuel gives
    the same result. *)
Lemma consume_loop_fuel self fuel :
  forall fuel' items st,
    List.length items < fuel -> List.length items < fuel' ->
    consume_loop self fuel items st = consume_loop self fuel' items st.
Proof.
  induction fuel as [| fuel IH]; intros fuel' items st H H'; [lia |].
  destruct fuel' as [| fuel']; [lia |]. simpl.
  destruct (split_at_option items) as [before [[[s t] following] |]] eqn:E;
    [| reflexivity].
  pose proof (split_at_option_length _ _ _ _ _ E) as Hlen.
  assert (Hskip : forall n, List.length (skipn n following) < fuel
                            /\ List.length (skipn n following) < fuel').
  { intros n. rewrite length_skipn. lia. }
  destruct before as [| b before'].
  - apply bind_ext. intros r. apply IH; apply Hskip.
  - apply bind_ext. intros r. destruct (Nat.ltb 0 (snd r)) eqn:En.
    + apply Nat.ltb_lt in En. apply IH; rewrite length_skipn; lia.
    + apply bind_ext. intros r'. apply IH; apply Hskip.
Qed.

End ArgparseFacts.

(** ** Namespaces and values *)

Module ValueFacts.
Import Py Argparse Hoare ArgparseFacts.

Lemma lookup_setattr ns d v k :
  lookup k (setattr ns d v) = if String.eqb d k then Some v else lookup k ns.
Proof.
  induction ns as [| [k' x] rest IH]; simpl.
  - reflexivity.
  - destruct (String.eqb k' d) eqn:E.
    + apply String.eqb_eq in E. subst k'. simpl.
      destruct (String.eqb d k); reflexivity.
    + simpl. destruct (String.eqb k' k) eqn:E'.
      * apply String.eqb_eq in E'. subst k'. now rewrite String.eqb_sym, E.
      * exact IH.
Qed.

Lemma lookup_setattr_some ns d v k :
  lookup k ns <> None -> lookup k (setattr ns d v) <> None.
Proof.
  rewrite lookup_setattr. destruct (String.eqb d k); [discriminate | auto].
Qed.

Lemma map_m_ret {A B} (f : A -> B) l :
  map_m (fun x => ret (f x)) l = ret (map f l).
Proof.
  induction l as [| x rest IH]; simpl; [reflexivity |].
  rewrite IH. reflexivity.
Qed.

Lemma for_each_ret {A} (l : list A) (body : A -> M unit) :
  (forall x, In x l -> body x = ret tt) -> for_each l body = ret tt.
Proof.
  induction l as [| x rest IH]; intros H; simpl; [reflexivity |].
  rewrite (H x (or_introl eq_refl)), IH; [reflexivity |].
  intros y Hy. apply H. now right.
Qed.

Lemma get_values_plain self a strs :
  type_ a = None -> choices a = None ->
  get_values self a strs = ret (plain_values a strs).
Proof.
  intros Ht Hc. unfold get_values, plain_values.
  assert (Hv : forall s, get_value self a s = ret (VStr s)).
  { intros s. unfold get_value. now rewrite Ht. }
  assert (Hk : forall v, check_value self a v = ret tt).
  { intros v. unfold check_value. now rewrite Hc. }
  assert (Hl : forall l,
    (values <- map_m (get_value self a) l ;;
     for_each values (check_value self a) ;; ret (VList values))
    = ret (VList (map VStr l))).
  { intros l.
    replace (map_m (get_value self a) l) with (ret (A := list PyVal) (map VStr l)).
    - rewrite bind_ret_l, for_each_ret; [reflexivity |].
      intros x _. apply Hk.
    - rewrite <- map_m_ret.
      induction l as [| x rest IH]; simpl; [reflexivity |].
      now rewrite Hv, IH. }
  destruct (remove_first_dashdash strs) as [| x [| y l]];
    destruct (nargs a); destruct (option_strings a); cbv iota beta;
    try apply Hl; try (rewrite Hk; reflexivity);
    rewrite Hv, bind_ret_l, Hk; reflexivity.
Qed.

(** An option with [choices=] that takes one argument gets a string
    among the choices, or a list. *)
Lemma get_values_choices self a strs keys v :
  type_ a = None -> choices a = Some keys -> nargs a = NargsNone ->
  snd (get_values self a strs) = Ok v ->
  (exists s, v = VStr s /\ mem_str s keys = true) \/ (exists l, v = VList l).
Proof.
  intros Ht Hc Hn. unfold get_values. rewrite Hn.
  assert (Hv : forall s, get_value self a s = ret (VStr s)).
  { intros s. unfold get_value. now rewrite Ht. }
  assert (Hl : forall l,
    snd (values <- map_m (get_value self a) l ;;
         for_each values (check_value self a) ;; ret (VList values)) = Ok v ->
    exists l', v = VList l').
  { intros l H.
    destruct (values <- map_m (get_value self a) l ;;
         for_each values (check_value self a) ;; ret (VList values))
      as [t r] eqn:E. simpl in H. subst r.
    apply bind_inv_ok in E. destruct E as [t1 [vs [t2 [_ [E _]]]]].
    apply bind_inv_ok in E. destruct E as [t3 [u [t4 [_ [E _]]]]].
    inversion E. eauto. }
  destruct (remove_first_dashdash strs) as [| x [| y l]].
  - intros H. right. now apply (Hl []).
  - rewrite Hv, bind_ret_l. unfold check_value. rewrite Hc.
    destruct (mem_str x keys) eqn:E.
    + simpl. intros [= <-]. left. eauto.
    + unfold argument_error.
      match goal with
      | |- context [@error ?p ?A ?m] =>
          destruct (@error_raises A p m) as [t' [e' ->]]
      end.
      simpl. discriminate.
  - intros H. right. now apply (Hl (x :: y :: l)).
Qed.

(** A [take_action] that returns has called a [store] or [store_true]
    action. *)
Lemma take_action_ok self st t tr st' :
  take_action self st t = (tr, Ok st') ->
  exists v,
    snd (get_values self (fst (fst t)) (snd (fst t))) = Ok v
    /\ (kind (fst (fst t)) = Store \/ kind (fst (fst t)) = StoreTrue)
    /\ st' = match dest (fst (fst t)) with
             | Some d =>
                 with_namespace (mark_seen st t)
                   (setattr (st_namespace st) d
                      (match kind (fst (fst t)) with
                       | Store => v
                       | _ => VBool true
                       end))
             | None => mark_seen st t
             end.
Proof.
  unfold take_action. intros H. apply bind_inv_ok in H.
  destruct H as [t1 [v [t2 [Hv [H _]]]]]. exists v. rewrite Hv. simpl.
  split; [reflexivity |].
  destruct (kind (fst (fst t))).
  - split; [now left |]. destruct (dest (fst (fst t))); now inversion H.
  - split; [now right |]. destruct (dest (fst (fst t))); now inversion H.
  - exfalso. apply bind_inv_ok in H. destruct H as [? [? [? [_ [H _]]]]].
    unfold exit in H. apply bind_inv_ok in H.
    destruct H as [? [? [? [_ [H _]]]]]. discriminate.
  - exfalso. apply bind_inv_ok in H. destruct H as [? [? [? [_ [H _]]]]].
    unfold exit in H. apply bind_inv_ok in H.
    destruct H as [? [? [? [_ [H _]]]]]. discriminate.
Qed.

(** What one round of the final loop over the actions does. *)
Lemma finish_action_ok self acc a tr acc' :
  finish_action self acc a = (tr, Ok acc') ->
  st_seen (fst acc') = st_seen (fst acc)
  /\ st_calls (fst acc') = st_calls (fst acc)
  /\ st_extras (fst acc') = st_extras (fst acc)
  /\ (st_namespace (fst acc') = st_namespace (fst acc)
      \/ exists d s v, dest a = Some d /\ default a = VStr s
                       /\ st_namespace (fst acc')
                          = setattr (st_namespace (fst acc)) d v)
  /\ (exists l, snd acc' = snd acc ++ l)
  /\ (existsb (Nat.eqb (ident a)) (st_seen (fst acc)) = false ->
      required a = true ->
      snd acc' = snd acc ++ match get_action_name a with
                            | Some name => [name]
                            | None => []
                            end).
Proof.
  unfold finish_action.
  assert (Hsame : forall t, (t, Ok acc) = (tr, Ok acc') ->
    st_seen (fst acc') = st_seen (fst acc)
    /\ st_calls (fst acc') = st_calls (fst acc)
    /\ st_extras (fst acc') = st_extras (fst acc)
    /\ (st_namespace (fst acc') = st_namespace (fst acc)
        \/ exists d s v, dest a = Some d /\ default a = VStr s
                         /\ st_namespace (fst acc')
                            = setattr (st_namespace (fst acc)) d v)
    /\ (exists l, snd acc' = snd acc ++ l)).
  { intros t [= _ <-]. repeat split; auto. exists []. now rewrite app_nil_r. }
  destruct (existsb _ _) eqn:Eseen.
  { intros H. apply Hsame in H. intuition discriminate. }
  destruct (required a) eqn:Ereq.
  { intros [= _ <-]. simpl. repeat split; auto; eauto. }
  destruct (default a) eqn:Ed;
    try (intros H; apply Hsame in H; intuition discriminate).
  destruct (dest a) eqn:Edest;
    try (intros H; apply Hsame in H; intuition discriminate).
  destruct (lookup _ _);
    try (intros H; apply Hsame in H; intuition discriminate).
  destruct (pyval_eqb _ _);
    try (intros H; apply Hsame in H; intuition discriminate).
  intros H. apply bind_inv_ok in H. destruct H as [t1 [v [t2 [_ [H _]]]]].
  inversion H; subst. simpl. repeat split; auto.
  - right. do 3 eexists. repeat split; reflexivity.
  - exists []. now rewrite app_nil_r.
  - discriminate.
Qed.

Lemma fold_finish_required self l :
  forall acc tr acc',
    fold_m (finish_action self) acc l = (tr, Ok acc') ->
    st_seen (fst acc') = st_seen (fst acc)
    /\ (exists l', snd acc' = snd acc ++ l')
    /\ (snd acc' = [] ->
        forall a, In a l -> required a = true -> get_action_name a <> None ->
                  existsb (Nat.eqb (ident a)) (st_seen (fst acc)) = true).
Proof.
  induction l as [| b rest IH]; intros acc tr acc' H; simpl in H.
  - inversion H; subst.
    repeat split; auto; try (exists []; now rewrite app_nil_r);
      try (intros _ a []).
  - apply bind_inv_ok in H. destruct H as [t1 [acc1 [t2 [H1 [H2 _]]]]].
    apply finish_action_ok in H1.
    destruct H1 as [Hs [_ [_ [_ [[l1 Hl1] Hreq]]]]].
    apply IH in H2. destruct H2 as [Hs2 [[l2 Hl2] Hall]].
    split; [congruence |]. split.
    { exists (l1 ++ l2). rewrite Hl2, Hl1. now rewrite app_assoc. }
    intros Hnil a [<- | Ha] Hr Hname.
    + destruct (existsb _ (st_seen (fst acc))) eqn:E; [reflexivity |].
      exfalso. specialize (Hreq eq_refl Hr). rewrite Hnil in Hl2.
      symmetry in Hl2. apply app_eq_nil in Hl2. destruct Hl2 as [Hl2 _].
      rewrite Hl2 in Hreq. symmetry in Hreq. apply app_eq_nil in Hreq.
      destruct Hreq as [_ Hreq]. destruct (get_action_name b); [discriminate |].
      now apply Hname.
    + rewrite <- Hs. now apply Hall.
Qed.

(** When [_parse_known_args] returns, every required action has been
    seen. *)
Lemma parse_state_required self args t st :
  parse_known_args_state self args = (t, Ok st) ->
  forall a, In a (p_actions self) -> required a = true ->
            get_action_name a <> None -> In (ident a) (st_seen st).
Proof.
  unfold parse_known_args_state. intros H.
  apply bind_inv_ok in H. destruct H as [t1 [items [t2 [_ [H _]]]]].
  apply bind_inv_ok in H. destruct H as [t3 [r [t4 [_ [H _]]]]].
  apply bind_inv_ok in H. destruct H as [t5 [r' [t6 [_ [H _]]]]].
  apply bind_inv_ok in H. destruct H as [t7 [fin [t8 [Hfold [H _]]]]].
  destruct (snd fin) eqn:Efin.
  - inversion H; subst.
    apply fold_finish_required in Hfold. destruct Hfold as [Hs [_ Hall]].
    intros a Ha Hr Hn. specialize (Hall Efin a Ha Hr Hn).
    apply existsb_exists in Hall. destruct Hall as [n [Hin Heq]].
    apply Nat.eqb_eq in Heq. subst n. rewrite Hs. exact Hin.
  - exfalso.
    match type of H with
    | context [@error ?p ?A ?m] =>
        destruct (@error_raises A p m) as [t' [e' E]]; rewrite E in H
    end.
    discriminate.
Qed.

End ValueFacts.

(** ** The argument parser of kbdgen *)

Module ParseFacts.
Import Py Argparse Hoare ArgparseFacts ValueFacts Cli.

(** Splits [In a (parser_actions w)] into its cases. *)
Ltac each_action H :=
  unfold p, parser_actions in H; simpl in H;
  repeat (destruct H as [<- | H]); [.. | contradiction].

Lemma parser_type_events w a f s :
  In a (p_actions (p w)) -> type_ a = Some f -> Forall parse_event (fst (f s)).
Proof.
  intros Ha. each_action Ha; simpl; try discriminate; intros [= <-].
  - unfold logging_type. destruct (lookup s _); constructor.
  - unfold FileType_r. destruct (String.eqb s "-"); repeat constructor.
Qed.

(** Parsing the command line writes to the standard streams and opens
    files, nothing else. *)
Lemma parse_args_events w args : Forall parse_event (fst (parse_args w args)).
Proof.
  unfold parse_args.
  destruct (spec_parse_args (p w) parse_event args) as [H _].
  - intros s; exact I.
  - intros s; exact I.
  - apply parser_type_events.
  - exact H.
Qed.

(** *** The actions by their destination *)

Lemma action_stores w a :
  In a (p_actions (p w)) -> kind a = Store \/ kind a = StoreTrue ->
  exists d, dest a = Some d.
Proof.
  intros Ha. each_action Ha; simpl; intros [H | H]; try discriminate H; eauto.
Qed.

Lemma action_cfg_pairs w a :
  In a (p_actions (p w)) -> dest a = Some "cfg_pairs" ->
  kind a = Store /\ type_ a = None /\ choices a = None /\ a = key_action.
Proof.
  intros Ha. each_action Ha; simpl; intros H; try discriminate H; auto.
Qed.

Lemma action_target w a :
  In a (p_actions (p w)) -> dest a = Some "target" ->
  kind a = Store /\ type_ a = None /\ choices a = Some (gen_keys w)
  /\ nargs a = NargsNone.
Proof.
  intros Ha. each_action Ha; simpl; intros H; try discriminate H; auto.
Qed.

Lemma action_13 w a :
  In a (p_actions (p w)) -> ident a = 13 -> dest a = Some "target".
Proof.
  intros Ha. each_action Ha; simpl; intros H; try discriminate H; auto.
Qed.

Lemma action_string_default w a s :
  In a (p_actions (p w)) -> default a = VStr s ->
  dest a <> Some "cfg_pairs" /\ dest a <> Some "target".
Proof.
  intros Ha. each_action Ha; simpl; intros H; try discriminate H;
    split; discriminate.
Qed.

Lemma cfg_pairs_of_app l t :
  forall cur,
    cfg_pairs_of (l ++ [t]) cur
    = if stores_cfg_pairs t
      then plain_values (fst (fst t)) (snd (fst t))
      else cfg_pairs_of l cur.
Proof.
  induction l as [| x rest IH]; intros cur; simpl.
  - reflexivity.
  - apply IH.
Qed.

(** *** The invariant *)

Lemma state_inv_init w :
  state_inv w (mkState (initial_namespace (p w)) [] []
                 (filter (fun a => match option_strings a with
                                   | [] => true
                                   | _ :: _ => false
                                   end) (p_actions (p w))) []).
Proof.
  unfold state_inv. cbn [st_namespace st_calls st_seen cfg_pairs_of].
  split; [auto |]. split; [vm_compute; reflexivity |].
  split; [intros [] | constructor].
Qed.

Lemma state_inv_extras w st l : state_inv w st -> state_inv w (add_extras st l).
Proof.
  intros H. exact H.
Qed.

Lemma state_inv_positionals w st l :
  state_inv w st -> state_inv w (with_positionals st l).
Proof.
  intros H. exact H.
Qed.

Lemma state_inv_take w st t tr st' :
  tuple_ok (p_actions (p w)) t -> state_inv w st ->
  take_action (p w) st t = (tr, Ok st') -> state_inv w st'.
Proof.
  intros Ht [Hattrs [Hcfg [Htarget Hcalls]]] H.
  assert (Hcalls' : Forall (tuple_ok (p_actions (p w))) (st_calls st ++ [t])).
  { apply Forall_app. split; [exact Hcalls |]. constructor; [exact Ht |].
    constructor. }
  apply take_action_ok in H. destruct H as [v [Hv [Hk ->]]].
  destruct t as [[a strs] os]. unfold tuple_ok in Ht.
  cbn [fst snd] in Ht, Hv, Hk |- *.
  destruct (action_stores w a Ht Hk) as [d Hd]. rewrite Hd.
  assert (Htg : d = "target" ->
            target_ok w match kind a with
                        | Store => v
                        | _ => VBool true
                        end).
  { intros ->. destruct (action_target w a Ht Hd) as [Hkind [Hty [Hch Hn]]].
    rewrite Hkind. unfold target_ok.
    now apply (get_values_choices (p w) a strs (gen_keys w) v). }
  unfold state_inv, with_namespace, mark_seen.
  cbn [st_namespace st_seen st_calls fst snd].
  split; [| split; [| split; [| exact Hcalls']]].
  - intros k Hk'. apply lookup_setattr_some. now apply Hattrs.
  - rewrite lookup_setattr, cfg_pairs_of_app.
    unfold stores_cfg_pairs. cbn [fst snd]. rewrite Hd.
    destruct (String.eqb d "cfg_pairs") eqn:E; [| exact Hcfg].
    apply String.eqb_eq in E. subst d.
    destruct (action_cfg_pairs w a Ht Hd) as [Hkind [Hty [Hch _]]].
    rewrite Hkind. rewrite (get_values_plain _ _ _ Hty Hch) in Hv.
    cbn [snd ret] in Hv. now inversion Hv.
  - rewrite lookup_setattr. intros Hseen.
    destruct (String.eqb d "target") eqn:E.
    + apply String.eqb_eq in E. eexists. split; [reflexivity |]. now apply Htg.
    + destruct Hseen as [H13 | Hin]; [| now apply Htarget].
      apply (action_13 w a Ht) in H13. rewrite Hd in H13.
      inversion H13; subst d. discriminate E.
Qed.

Lemma state_inv_finish w acc a tr acc' :
  In a (p_actions (p w)) -> state_inv w (fst acc) ->
  finish_action (p w) acc a = (tr, Ok acc') -> state_inv w (fst acc').
Proof.
  intros Ha [Hattrs [Hcfg [Htarget Hcalls]]] H.
  apply finish_action_ok in H.
  destruct H as [Hs [Hc [_ [Hns _]]]].
  unfold state_inv. rewrite Hs, Hc.
  destruct Hns as [-> | [d [s [v [Hd [Hdef ->]]]]]]; [repeat split; auto |].
  destruct (action_string_default w a s Ha Hdef) as [Hn1 Hn2].
  rewrite Hd in Hn1, Hn2.
  assert (E1 : String.eqb d "cfg_pairs" = false).
  { apply String.eqb_neq. congruence. }
  assert (E2 : String.eqb d "target" = false).
  { apply String.eqb_neq. congruence. }
  split; [| split; [| split; [| exact Hcalls]]].
  - intros k Hk'. apply lookup_setattr_some. now apply Hattrs.
  - rewrite lookup_setattr, E1. exact Hcfg.
  - rewrite lookup_setattr, E2. exact Htarget.
Qed.

(** The invariant holds of every final state of the parser. *)
Lemma parse_state_inv w args t st :
  parse_known_args_state (p w) args = (t, Ok st) -> state_inv w st.
Proof.
  apply (spec_value parse_event).
  apply (spec_parse_known_args_state (p w) parse_event).
  - intros s; exact I.
  - intros s; exact I.
  - apply parser_type_events.
  - apply state_inv_extras.
  - apply state_inv_positionals.
  - apply state_inv_take.
  - apply state_inv_finish.
  - apply state_inv_init.
Qed.

End ParseFacts.

(** ** The stages of [run_cli] *)

Module CliFacts.
Import Py Argparse Hoare ArgparseFacts ValueFacts Cli ParseFacts.

(** What [parse_args] accepts: the namespace of a final state of the
    parser that keeps the invariant and has seen the target. *)
Lemma parse_args_accepts w cli_args t args :
  parse_args w cli_args = (t, Ok args) ->
  exists st, parse_known_args_state (p w) cli_args = (t, Ok st)
             /\ args = st_namespace st /\ st_extras st = []
             /\ state_inv w st /\ In 13 (st_seen st).
Proof.
  intros H. apply parse_args_state in H. destruct H as [st [H [-> He]]].
  exists st. split; [exact H |]. split; [reflexivity |].
  split; [exact He |]. split.
  - now apply parse_state_inv in H.
  - apply (parse_state_required _ _ _ _ H
             (target_action w)).
    + unfold p, parser_actions. cbn [p_actions]. do 13 right. now left.
    + reflexivity.
    + discriminate.
Qed.

(** The attributes that [run_cli] reads are there. *)
Lemma parsed_attrs w cli_args t args :
  parse_args w cli_args = (t, Ok args) ->
  exists level path cfg target,
    lookup "logging" args = Some level
    /\ lookup "project" args = Some path
    /\ lookup "cfg_pairs" args = Some cfg
    /\ lookup "target" args = Some target
    /\ target_ok w target.
Proof.
  intros H. apply parse_args_accepts in H.
  destruct H as [st [_ [-> [_ [[Hattrs [_ [Htarget _]]] H13]]]]].
  destruct (Htarget H13) as [target [Ht Hok]].
  assert (Hl : lookup "logging" (st_namespace st) <> None)
    by (apply Hattrs; vm_compute; discriminate).
  assert (Hp : lookup "project" (st_namespace st) <> None)
    by (apply Hattrs; vm_compute; discriminate).
  assert (Hc : lookup "cfg_pairs" (st_namespace st) <> None)
    by (apply Hattrs; vm_compute; discriminate).
  destruct (lookup "logging" (st_namespace st)) as [level |]; [| contradiction].
  destruct (lookup "project" (st_namespace st)) as [path |]; [| contradiction].
  destruct (lookup "cfg_pairs" (st_namespace st)) as [cfg |]; [| contradiction].
  exists level, path, cfg, target. auto.
Qed.

Lemma run_cli_accepted w cli_args t args :
  parse_args w cli_args = (t, Ok args) ->
  run_cli w cli_args
  = (t ++ fst (run_cli_from w args), snd (run_cli_from w args)).
Proof.
  intros H. unfold run_cli. now apply bind_ok.
Qed.

Lemma run_cli_rejected w cli_args t e :
  parse_args w cli_args = (t, Raise e) -> run_cli w cli_args = (t, Raise e).
Proof.
  intros H. unfold run_cli. now apply bind_raise.
Qed.

Lemma for_each_emit {A} (l : list A) (f : A -> Event) :
  for_each l (fun x => emit (f x)) = (map f l, Ok tt).
Proof.
  induction l as [| x rest IH]; simpl; [reflexivity |].
  rewrite IH. reflexivity.
Qed.

Lemma print_diagnostics_eq w : print_diagnostics w = (diagnostics w, Ok tt).
Proof.
  unfold print_diagnostics, diagnostics. rewrite for_each_emit. reflexivity.
Qed.

Lemma getattr_some args k v : lookup k args = Some v -> getattr args k = ret v.
Proof.
  intros H. unfold getattr. now rewrite H.
Qed.

(** The start of [run_cli_from]: the dump, then the switch for
    [--logging trace], then the rest. *)
Lemma run_cli_from_eq w args level :
  lookup "logging" args = Some level ->
  run_cli_from w args
  = bind (diagnostics w ++ http_events level, Ok tt)
         (fun _ => loaded <- load_project w args ;;
                   match loaded with
                   | inr v => ret v
                   | inl project => dispatch w args project
                   end).
Proof.
  intros Hl. unfold run_cli_from. rewrite print_diagnostics_eq.
  set (K := loaded <- load_project w args ;; _).
  rewrite (bind_ok _ _ _ _ eq_refl), (getattr_some _ _ _ Hl), bind_ret_l.
  unfold http_events. destruct (py_eq_int level 5).
  - rewrite (bind_ok enable_verbose_requests_log _
               [EHttpDebuglevel 1; EGetLogger "urllib3"] tt eq_refl).
    rewrite (bind_ok (_, Ok tt) _ _ _ eq_refl). cbn [fst snd].
    now rewrite app_assoc.
  - rewrite bind_ret_l, (bind_ok (_, Ok tt) _ _ _ eq_refl), app_nil_r.
    reflexivity.
Qed.

(** *** Loading the project *)

Section Load.

Variables (w : World) (args : Namespace) (path cfg : PyVal).
Hypothesis Hpath : lookup "project" args = Some path.
Hypothesis Hcfg : lookup "cfg_pairs" args = Some cfg.

Lemma load_ok project :
  Parser_parse w path cfg = Ok project -> is_None project = false ->
  load_project w args = ([EParse path cfg], Ok (inl project)).
Proof.
  intros H Hn. unfold load_project.
  rewrite (getattr_some _ _ _ Hpath), (getattr_some _ _ _ Hcfg).
  unfold try_except, bind, ret, emit, lift. simpl. rewrite H, Hn. reflexivity.
Qed.

Lemma load_empty project :
  Parser_parse w path cfg = Ok project -> is_None project = true ->
  load_project w args
  = ([EParse path cfg;
      ELog CRITICAL (LMsg "Project parser returned empty project.")]
     ++ bug_report, Ok (inr (VInt 1))).
Proof.
  intros H Hn. unfold load_project.
  rewrite (getattr_some _ _ _ Hpath), (getattr_some _ _ _ Hcfg).
  unfold try_except, bind, ret, emit, lift. simpl. rewrite H, Hn. reflexivity.
Qed.

Lemma load_scanner_error e :
  Parser_parse w path cfg = Raise e -> is_ScannerError e = true ->
  load_project w args
  = ([EParse path cfg;
      ELog CRITICAL
        (LMsg ("Error parsing project:" ^^ nl
               ^^ strip (py_str (repr_str w) (exc_problem e)) ^^ " "
               ^^ strip (py_str (repr_str w) (exc_problem_mark e))))],
     Ok (inr (VInt 1))).
Proof.
  intros H Hs. unfold load_project.
  rewrite (getattr_some _ _ _ Hpath), (getattr_some _ _ _ Hcfg).
  unfold try_except, bind, ret, emit, lift. simpl. rewrite H. simpl.
  rewrite Hs. reflexivity.
Qed.

Lemma load_exception e :
  Parser_parse w path cfg = Raise e -> is_ScannerError e = false ->
  is_Exception e = true ->
  load_project w args
  = (EParse path cfg
       :: map (fun arg => ELog CRITICAL (LMsg (py_str (repr_str w) arg)))
              (exc_args e)
       ++ (if is_UserException e then [] else bug_report),
     Ok (inr (VInt 1))).
Proof.
  intros H Hs He. unfold load_project.
  rewrite (getattr_some _ _ _ Hpath), (getattr_some _ _ _ Hcfg).
  rewrite !bind_ret_l, H.
  match goal with
  | |- try_except ?b _ = _ =>
      change b with ([EParse path cfg], @Raise (PyVal + PyVal) e)
  end.
  rewrite try_except_raise. cbv beta. rewrite Hs, He, for_each_emit.
  rewrite (bind_ok (_, Ok tt) _ _ _ eq_refl).
  destruct (is_UserException e); reflexivity.
Qed.

Lemma load_propagates e :
  Parser_parse w path cfg = Raise e -> is_ScannerError e = false ->
  is_Exception e = false ->
  load_project w args = ([EParse path cfg], Raise e).
Proof.
  intros H Hs He. unfold load_project.
  rewrite (getattr_some _ _ _ Hpath), (getattr_some _ _ _ Hcfg).
  unfold try_except, bind, ret, emit, lift. simpl. rewrite H. simpl.
  rewrite Hs, He. reflexivity.
Qed.

End Load.

(** *** Dispatch *)

Lemma mem_str_lookup {A} s (l : list (string * A)) :
  mem_str s (map fst l) = true -> exists x, lookup s l = Some x.
Proof.
  induction l as [| [k x] rest IH]; simpl; [discriminate |].
  destruct (String.eqb k s); [eauto | exact IH].
Qed.

Lemma lookup_mem_str {A} s (l : list (string * A)) x :
  lookup s l = Some x -> mem_str s (map fst l) = true.
Proof.
  induction l as [| [k y] rest IH]; simpl; [discriminate |].
  destruct (String.eqb k s); [reflexivity | exact IH].
Qed.

Section Dispatch.

Variables (w : World) (args : Namespace) (project : PyVal).

(** The check of [run_cli] itself: a lookup that yields [None]. *)
Lemma dispatch_invalid target :
  lookup "target" args = Some target ->
  gen_get w target = ret None ->
  dispatch w args project
  = ([EStderr ("Error: '" ^^ py_str (repr_str w) target
               ^^ "' is not a valid target." ^^ nl);
      EStderr ("Valid targets: " ^^ join ", " (gen_keys w) ^^ nl)],
     Ok (VInt 1)).
Proof.
  intros Ht Hg. unfold dispatch.
  rewrite (getattr_some _ _ _ Ht), bind_ret_l, Hg, bind_ret_l, bind_ret_l.
  reflexivity.
Qed.

Lemma dispatch_unhashable l :
  lookup "target" args = Some (VList l) ->
  dispatch w args project = ([], Raise (TypeError_ "unhashable type: 'list'")).
Proof.
  intros Ht. unfold dispatch. rewrite (getattr_some _ _ _ Ht), bind_ret_l.
  reflexivity.
Qed.

Variables (s : string) (cls : GenClass).
Hypothesis Htarget : lookup "target" args = Some (VStr s).
Hypothesis Hcls : lookup s (gen w) = Some cls.

Lemma dispatch_construct_raises e :
  construct w cls project args = Raise e ->
  dispatch w args project = ([EConstruct cls project args], Raise e).
Proof.
  intros H. unfold dispatch. rewrite (getattr_some _ _ _ Htarget), bind_ret_l.
  unfold gen_get. rewrite Hcls, bind_ret_l.
  unfold bind, emit, lift. rewrite H. reflexivity.
Qed.

Lemma dispatch_output_dir_raises x e :
  construct w cls project args = Ok x ->
  output_dir w x = Raise e ->
  dispatch w args project
  = (EConstruct cls project args
       :: (if is_KbdgenException e then [ELog ERROR (LExc e)] else []),
     if is_KbdgenException e then Ok VNone else Raise e).
Proof.
  intros H Ho. unfold dispatch. rewrite (getattr_some _ _ _ Htarget), bind_ret_l.
  unfold gen_get. rewrite Hcls, bind_ret_l.
  unfold run_generate, try_except, bind, emit, lift, ret, raise. rewrite H.
  simpl. rewrite Ho. simpl. destruct (is_KbdgenException e); reflexivity.
Qed.

Lemma dispatch_generated x out r :
  construct w cls project args = Ok x ->
  output_dir w x = Ok out ->
  generate w x out = Ok r ->
  dispatch w args project
  = ([EConstruct cls project args; EGenerate x out], Ok VNone).
Proof.
  intros H Ho Hg. unfold dispatch.
  rewrite (getattr_some _ _ _ Htarget), bind_ret_l.
  unfold gen_get. rewrite Hcls, bind_ret_l.
  unfold run_generate, try_except, bind, emit, lift, ret. rewrite H. simpl.
  rewrite Ho. simpl. rewrite Hg. reflexivity.
Qed.

Lemma dispatch_kbdgen_exception x out e :
  construct w cls project args = Ok x ->
  output_dir w x = Ok out ->
  generate w x out = Raise e -> is_KbdgenException e = true ->
  dispatch w args project
  = ([EConstruct cls project args; EGenerate x out; ELog ERROR (LExc e)],
     Ok VNone).
Proof.
  intros H Ho Hg He. unfold dispatch.
  rewrite (getattr_some _ _ _ Htarget), bind_ret_l.
  unfold gen_get. rewrite Hcls, bind_ret_l.
  unfold run_generate, try_except, bind, emit, lift, ret. rewrite H. simpl.
  rewrite Ho. simpl. rewrite Hg. simpl. rewrite He. reflexivity.
Qed.

Lemma dispatch_other_exception x out e :
  construct w cls project args = Ok x ->
  output_dir w x = Ok out ->
  generate w x out = Raise e -> is_KbdgenException e = false ->
  dispatch w args project
  = ([EConstruct cls project args; EGenerate x out], Raise e).
Proof.
  intros H Ho Hg He. unfold dispatch.
  rewrite (getattr_some _ _ _ Htarget), bind_ret_l.
  unfold gen_get. rewrite Hcls, bind_ret_l.
  unfold run_generate, try_except, bind, emit, lift, ret, raise. rewrite H.
  simpl. rewrite Ho. simpl. rewrite Hg. simpl. rewrite He. reflexivity.
Qed.

End Dispatch.

End CliFacts.

(** ** The override parser *)

Module OverridesFacts.
Import Py Overrides.

(** The pairs of a mapping are those of its values, each behind its key. *)
Lemma flatten_tree pre l :
  flatten_node pre (Tree l)
  = flat_map (fun kn => flatten_node (pre ++ [fst kn]) (snd kn)) l.
Proof.
  induction l as [|[k n] l IH]; [reflexivity|].
  cbn [flat_map fst snd]. rewrite <- IH. reflexivity.
Qed.

(** Induction on a node and, for a mapping, on each of its values. *)
Fixpoint Node_induction (P : Node -> Prop)
  (Hs : forall v, P (Scalar v))
  (Ht : forall l, Forall (fun kn => P (snd kn)) l -> P (Tree l))
  (n : Node) : P n :=
  match n with
  | Scalar v => Hs v
  | Tree l =>
      Ht l ((fix go (l : list (string * Node)) : Forall (fun kn => P (snd kn)) l :=
               match l with
               | [] => Forall_nil _
               | kn :: r => Forall_cons kn (Node_induction P Hs Ht (snd kn)) (go r)
               end) l)
  end.

Lemma flatten_prefix n : forall pre,
  flatten_node pre n
  = map (fun pv => (pre ++ fst pv, snd pv)) (flatten_node [] n).
Proof.
  induction n as [v|l IH] using Node_induction; intros pre.
  - cbn. now rewrite app_nil_r.
  - rewrite !flatten_tree. induction IH as [|[k n] l H _ IHl]; [reflexivity|].
    cbn [flat_map fst snd] in *. rewrite map_app. f_equal; [|exact IHl].
    rewrite (H (pre ++ [k])), (H ([] ++ [k])), map_map.
    apply map_ext. intros [p v]. cbn. now rewrite <- app_assoc.
Qed.


Lemma in_flatten t p v :
  In (p, v) (flatten t)
  <-> exists k p' n, p = k :: p' /\ In (k, n) t /\ In (p', v) (flatten_node [] n).
Proof.
  unfold flatten. rewrite flatten_tree, in_flat_map. split.
  - intros [[k n] [Hin H]]. cbn [fst snd app] in H.
    rewrite flatten_prefix, in_map_iff in H.
    destruct H as [[p' v'] [E H]]. cbn in E. inversion E; subst.
    exists k, p', n. auto.
  - intros (k & p' & n & -> & Hin & H). exists (k, n). split; [exact Hin|].
    cbn [fst snd app]. rewrite flatten_prefix, in_map_iff.
    exists (p', v). auto.
Qed.

Lemma get_in k n t : get k t = Some n -> In (k, n) t.
Proof.
  induction t as [|[k' n'] t IH]; cbn; [discriminate|].
  destruct (String.eqb k' k) eqn:E.
  - apply String.eqb_eq in E. intros [= ->]. left. now subst.
  - auto.
Qed.

Lemma in_get k n t : NoDup (map fst t) -> In (k, n) t -> get k t = Some n.
Proof.
  induction t as [|[k' n'] t IH]; cbn; [tauto|].
  intros Hnd [E | Hin].
  - inversion E; subst. now rewrite String.eqb_refl.
  - inversion Hnd as [|? ? Hnot Hnd']; subst.
    destruct (String.eqb k' k) eqn:E; [|auto].
    apply String.eqb_eq in E. subst. exfalso. apply Hnot.
    apply (in_map fst) in Hin. exact Hin.
Qed.

Lemma get_set k k0 n t :
  get k0 (set k n t) = if String.eqb k k0 then Some n else get k0 t.
Proof.
  induction t as [|[k' n'] t IH]; cbn.
  - reflexivity.
  - destruct (String.eqb k' k) eqn:E; cbn.
    + apply String.eqb_eq in E. subst. now destruct (String.eqb k k0).
    + rewrite IH. destruct (String.eqb k' k0) eqn:E0; [|reflexivity].
      apply String.eqb_eq in E0. subst. now rewrite String.eqb_sym, E.
Qed.

Lemma in_keys_set k k0 n t :
  In k0 (map fst (set k n t)) <-> k0 = k \/ In k0 (map fst t).
Proof.
  induction t as [|[k' n'] t IH]; cbn.
  - intuition.
  - destruct (String.eqb k' k) eqn:E; cbn.
    + apply String.eqb_eq in E. subst. intuition.
    + rewrite IH. intuition.
Qed.

Lemma unique_set k n t :
  NoDup (map fst t) -> NoDup (map fst (set k n t)).
Proof.
  induction t as [|[k' n'] t IH]; cbn; intros Hnd.
  - constructor; [tauto | constructor].
  - inversion Hnd as [|? ? Hnot Hnd']; subst.
    destruct (String.eqb k' k) eqn:E; cbn.
    + constructor; assumption.
    + constructor; [|auto]. rewrite in_keys_set. intros [-> | H]; [|tauto].
      now rewrite String.eqb_refl in E.
Qed.

Lemma forall_set (P : Node -> Prop) k n t :
  P n -> Forall (fun kn => P (snd kn)) t ->
  Forall (fun kn => P (snd kn)) (set k n t).
Proof.
  intros Hn. induction 1 as [|[k' n'] t H Ht IH]; cbn.
  - repeat constructor. exact Hn.
  - destruct (String.eqb k' k); constructor; auto.
Qed.


Lemma in_flatten_get t k p v :
  NoDup (map fst t) ->
  In (k :: p, v) (flatten t)
  <-> exists n, get k t = Some n /\ In (p, v) (flatten_node [] n).
Proof.
  intros Hnd. rewrite in_flatten. split.
  - intros (k' & p' & n & [= <- <-] & Hin & H). exists n. split; [|exact H].
    now apply in_get.
  - intros (n & Hget & H). exists k, p, n. repeat split; [|exact H].
    now apply get_in.
Qed.

Lemma flatten_nonempty t v : ~ In ([], v) (flatten t).
Proof.
  rewrite in_flatten. intros (k & p' & n & E & _). discriminate.
Qed.

Lemma conflict_cons a p b q :
  conflict (a :: p) (b :: q) = String.eqb a b && conflict p q.
Proof.
  unfold conflict. cbn. rewrite (String.eqb_sym b a).
  now destruct (String.eqb a b).
Qed.

Lemma conflict_refl p : conflict p p = true.
Proof.
  induction p as [|a p IH]; [reflexivity|].
  now rewrite conflict_cons, String.eqb_refl.
Qed.

Lemma unique_get k n t :
  unique_keys (Tree t) -> get k t = Some n -> unique_keys n.
Proof.
  intros H Hget. inversion H as [|? _ Hall]; subst.
  apply get_in in Hget. rewrite Forall_forall in Hall.
  apply (Hall (k, n) Hget).
Qed.

Lemma unique_children_at k t :
  unique_keys (Tree t) -> unique_keys (Tree (children_at k t)).
Proof.
  intros H. unfold children_at. destruct (get k t) as [[v|c]|] eqn:E.
  - repeat constructor.
  - apply (unique_get k _ t H E).
  - repeat constructor.
Qed.

Lemma insert_cons k k' rest value t :
  insert (k :: k' :: rest) value t
  = set k (Tree (insert (k' :: rest) value (children_at k t))) t.
Proof. reflexivity. Qed.

Lemma unique_insert q w : forall t,
  unique_keys (Tree t) -> unique_keys (Tree (insert q w t)).
Proof.
  induction q as [|k q IH]; intros t H; [exact H|].
  destruct q as [|k' rest].
  - cbn. inversion H; subst. constructor.
    + now apply unique_set.
    + apply forall_set; [constructor | assumption].
  - rewrite insert_cons. inversion H; subst. constructor.
    + now apply unique_set.
    + apply forall_set; [|assumption].
      apply IH. now apply unique_children_at.
Qed.

(** What an insertion leaves of an overlay: the new pair, and the pairs
    that the new path neither leads to nor comes from. *)
Lemma in_flatten_insert q w : forall t p v,
  q <> [] ->
  unique_keys (Tree t) ->
  In (p, v) (flatten (insert q w t))
  <-> (p = q /\ v = w) \/ (conflict p q = false /\ In (p, v) (flatten t)).
Proof.
  induction q as [|k q IH]; intros t p v Hne H; [congruence|].
  assert (Hnd : NoDup (map fst t)) by now inversion H.
  destruct p as [|k0 p].
  { split.
    - intros Hin. now apply flatten_nonempty in Hin.
    - intros [[E _] | [E _]]; discriminate. }
  rewrite conflict_cons.
  destruct q as [|k' rest].
  - cbn [insert]. rewrite in_flatten_get by now apply unique_set.
    rewrite get_set, in_flatten_get by exact Hnd.
    rewrite (String.eqb_sym k0 k).
    destruct (String.eqb k k0) eqn:E.
    + apply String.eqb_eq in E. subst k0. split.
      * intros (n & [= <-] & Hin). cbn in Hin.
        destruct Hin as [[= <- <-]|[]]. now left.
      * intros [[[= ->] ->] | [E _]].
        -- exists (Scalar w). split; [reflexivity | now left].
        -- unfold conflict in E. now rewrite orb_true_r in E.
    + cbn [andb]. split.
      * intros Hex. right. split; [reflexivity | exact Hex].
      * intros [[[= -> ->] _] | [_ Hex]]; [|exact Hex].
        now rewrite String.eqb_refl in E.
  - rewrite insert_cons. rewrite in_flatten_get by now apply unique_set.
    rewrite get_set, in_flatten_get by exact Hnd.
    rewrite (String.eqb_sym k0 k).
    destruct (String.eqb k k0) eqn:E.
    + apply String.eqb_eq in E. subst k0. cbn [andb].
      specialize (IH (children_at k t) p v ltac:(discriminate)
                     (unique_children_at k t H)).
      change (flatten_node [] (Tree ?c)) with (flatten c).
      split.
      * intros (n & [= <-] & Hin). apply IH in Hin.
        destruct Hin as [[-> ->] | [Hc Hin]]; [now left|]. right.
        split; [exact Hc|]. unfold children_at in Hin.
        destruct (get k t) as [[s|c]|]; try (now apply flatten_nonempty in Hin || destruct Hin).
        exists (Tree c). split; [reflexivity | exact Hin].
      * intros Hr. eexists. split; [reflexivity|]. apply IH.
        destruct Hr as [[[= ->] ->] | [Hc (n & Hget & Hin)]]; [now left|].
        right. split; [exact Hc|]. unfold children_at. rewrite Hget.
        destruct n as [s|c]; [|exact Hin].
        cbn in Hin. destruct Hin as [[= <- _]|[]]. discriminate.
    + cbn [andb]. split.
      * intros Hex. right. split; [reflexivity | exact Hex].
      * intros [[[= -> ->] _] | [_ Hex]]; [|exact Hex].
        now rewrite String.eqb_refl in E.
Qed.


Lemma split_on_nonempty c s : split_on c s <> [].
Proof.
  destruct s as [|d s]; cbn; [discriminate|].
  destruct (Ascii.eqb c d); [discriminate|].
  destruct (split_on c s); discriminate.
Qed.

Lemma split_raw_nonempty r p v : split_raw r = inr (p, v) -> p <> [].
Proof.
  unfold split_raw. destruct (split_first "=" r) as [[path value]|]; [|discriminate].
  cbv zeta. destruct (existsb _ _); [discriminate|].
  intros [= <- _]. apply split_on_nonempty.
Qed.

Lemma parse_onto_writes raw : forall t,
  match parse_onto t raw with
  | inr t' =>
      exists ws, writes_of raw = Some ws
                 /\ Forall (fun pw => fst pw <> []) ws
                 /\ t' = apply_writes ws t
  | inl _ => writes_of raw = None
  end.
Proof.
  induction raw as [|r raw IH]; intros t.
  - cbn. exists []. repeat split. constructor.
  - cbn [parse_onto writes_of].
    destruct (split_raw r) as [e|[p v]] eqn:E; [reflexivity|].
    specialize (IH (insert p v t)).
    destruct (parse_onto (insert p v t) raw) as [e|t'].
    + now rewrite IH.
    + destruct IH as (ws & -> & Hne & ->). exists ((p, v) :: ws).
      repeat split. constructor; [|exact Hne].
      apply (split_raw_nonempty _ _ _ E).
Qed.

Lemma apply_writes_last ws : forall t,
  Forall (fun pw => fst pw <> []) ws ->
  unique_keys (Tree t) ->
  unique_keys (Tree (apply_writes ws t))
  /\ forall p v,
       In (p, v) (flatten (apply_writes ws t))
       <-> last_write ws p = Some (p, v)
           \/ (last_write ws p = None /\ In (p, v) (flatten t)).
Proof.
  induction ws as [|[q w] ws IH]; intros t Hne H.
  - split; [exact H|]. intros p v. cbn. intuition discriminate.
  - inversion Hne as [|? ? Hq Hne']; subst. cbn [fst] in Hq.
    destruct (IH (insert q w t) Hne' (unique_insert q w t H)) as [Hu Hin].
    split; [exact Hu|]. intros p v.
    change (apply_writes ((q, w) :: ws) t)
      with (apply_writes ws (insert q w t)).
    rewrite Hin, (in_flatten_insert q w t p v Hq H).
    cbn [last_write]. destruct (last_write ws p) as [x|].
    + intuition discriminate.
    + destruct (conflict p q) eqn:Ec.
      * split.
        -- intros [Hd | [_ [[-> ->] | [Hd _]]]]; try discriminate. now left.
        -- intros [[= -> ->] | [Hd _]]; [|discriminate]. right. split; auto.
      * split.
        -- intros [Hd | [_ [[-> ->] | [_ Hf]]]]; try discriminate.
           ++ now rewrite conflict_refl in Ec.
           ++ right. split; auto.
        -- intros [Hd | [_ Hf]]; [discriminate|]. right. split; auto.
Qed.


Lemma paths_cons k n :
  map fst (flatten_node [k] n) = map (cons k) (map fst (flatten_node [] n)).
Proof.
  rewrite flatten_prefix, !map_map. reflexivity.
Qed.

Lemma NoDup_map_cons (k : string) (l : list Path) :
  NoDup l -> NoDup (map (cons k) l).
Proof.
  induction 1 as [|p l Hnot Hnd IH]; cbn; constructor; [|exact IH].
  rewrite in_map_iff. intros (p' & [= ->] & Hin). contradiction.
Qed.

Lemma unique_paths n :
  unique_keys n -> NoDup (map fst (flatten_node [] n)).
Proof.
  induction n as [v|l IH] using Node_induction; intros Hu.
  - cbn. repeat constructor. tauto.
  - inversion Hu as [|? Hnd Hall]; subst. rewrite flatten_tree.
    induction l as [|[k n] l IHl]; [constructor|].
    cbn [flat_map fst snd app map] in *.
    inversion IH as [|? ? Hn IH']; subst.
    inversion Hnd as [|? ? Hk Hnd']; subst.
    inversion Hall as [|? ? Hun Hall']; subst. cbn [snd] in *.
    rewrite map_app. apply NoDup_app.
    + rewrite paths_cons. apply NoDup_map_cons. auto.
    + apply IHl; auto. constructor; assumption.
    + intros p. rewrite paths_cons, !in_map_iff.
      intros (p' & <- & _) ([p0 v] & E & Hin). cbn in E. subst p0.
      apply in_flat_map in Hin. destruct Hin as ([k' n'] & Hin & H).
      cbn [fst snd app] in H. rewrite flatten_prefix, in_map_iff in H.
      destruct H as (pv & [= <- _] & _). apply Hk.
      apply (in_map fst) in Hin. exact Hin.
Qed.

(** The pairs of the overlay that the parser builds are, each path
    once, the writes that are the last to meet their own path. *)
Lemma flatten_parsed_writes (raw : list string) :
  match parse_overrides raw with
  | inr t =>
      exists writes,
        writes_of raw = Some writes
        /\ NoDup (map fst (flatten t))
        /\ forall p v,
             In (p, v) (flatten t) <-> last_write writes p = Some (p, v)
  | inl _ => writes_of raw = None
  end.
Proof.
  unfold parse_overrides. pose proof (parse_onto_writes raw []) as H.
  destruct (parse_onto [] raw) as [e|t]; [exact H|].
  destruct H as (ws & Hw & Hne & ->). exists ws. split; [exact Hw|].
  assert (Hu : unique_keys (Tree [])) by (repeat constructor).
  destruct (apply_writes_last ws [] Hne Hu) as [Hu' Hin].
  split; [exact (unique_paths _ Hu')|].
  intros p v. rewrite Hin. cbn. tauto.
Qed.

(** *** Raw overrides as strings *)

Lemma split_first_some c s : forall a b,
  split_first c s = Some (a, b) -> s = a ^^ String c b /\ has_char c a = false.
Proof.
  induction s as [| d s IH]; intros a b; simpl; [discriminate |].
  destruct (Ascii.eqb c d) eqn:E.
  - apply Ascii.eqb_eq in E. subst d. intros [= <- <-]. auto.
  - destruct (split_first c s) as [[a' b'] |]; [| discriminate].
    intros [= <- <-]. destruct (IH a' b' eq_refl) as [-> H].
    simpl. rewrite E, H. auto.
Qed.

Lemma split_first_none c s : split_first c s = None -> has_char c s = false.
Proof.
  induction s as [| d s IH]; simpl; [reflexivity |].
  destruct (Ascii.eqb c d); [discriminate |].
  destruct (split_first c s) as [[a b] |]; [discriminate |]. auto.
Qed.

Lemma split_first_cat c a b :
  has_char c a = false -> split_first c (a ^^ String c b) = Some (a, b).
Proof.
  unfold cat. induction a as [| d a IH]; simpl.
  - now rewrite Ascii.eqb_refl.
  - destruct (Ascii.eqb c d); [discriminate |]. simpl. intros H.
    now rewrite (IH H).
Qed.

Lemma has_char_cat c a b :
  has_char c (a ^^ b) = has_char c a || has_char c b.
Proof.
  unfold cat. induction a as [| d a IH]; simpl; [reflexivity |].
  now rewrite IH, orb_assoc.
Qed.

Lemma split_on_cons c s : exists x rest, split_on c s = x :: rest.
Proof.
  destruct s as [| d s]; simpl; [eauto |].
  destruct (Ascii.eqb c d); [eauto |].
  destruct (split_on c s); eauto.
Qed.

Lemma join_cons sep x y rest :
  join sep (x :: y :: rest) = x ^^ sep ^^ join sep (y :: rest).
Proof. reflexivity. Qed.

Lemma join_split_on c s : join (String c EmptyString) (split_on c s) = s.
Proof.
  induction s as [| d s IH]; simpl; [reflexivity |].
  destruct (Ascii.eqb c d) eqn:E.
  - apply Ascii.eqb_eq in E. subst d.
    destruct (split_on_cons c s) as [x [rest Hx]]. rewrite Hx in *.
    rewrite join_cons, IH. reflexivity.
  - destruct (split_on c s) as [| x [| y rest]] eqn:Hx.
    + destruct (split_on_cons c s) as [x [rest Hx']]. congruence.
    + simpl in *. now rewrite IH.
    + rewrite join_cons in *. rewrite <- IH. reflexivity.
Qed.

Lemma split_on_pieces c d s :
  has_char d s = false ->
  Forall (fun x => has_char d x = false) (split_on c s).
Proof.
  induction s as [| e s IH]; simpl.
  - repeat constructor.
  - intros H. apply orb_false_elim in H. destruct H as [He Hs].
    specialize (IH Hs). destruct (Ascii.eqb c e).
    + constructor; [reflexivity | exact IH].
    + destruct (split_on c s) as [| x rest].
      * repeat constructor. simpl. now rewrite He.
      * inversion IH; subst. constructor; [| assumption].
        simpl. now rewrite He.
Qed.

Lemma split_on_no_sep c s :
  Forall (fun x => has_char c x = false) (split_on c s).
Proof.
  induction s as [| e s IH]; simpl.
  - repeat constructor.
  - destruct (Ascii.eqb c e) eqn:E.
    + constructor; [reflexivity | exact IH].
    + destruct (split_on c s) as [| x rest].
      * repeat constructor. simpl. now rewrite E.
      * inversion IH; subst. constructor; [| assumption].
        simpl. now rewrite E.
Qed.

Lemma split_on_piece c x :
  has_char c x = false -> split_on c x = [x].
Proof.
  induction x as [| d x IH]; simpl; [reflexivity |].
  intros H. apply orb_false_elim in H. destruct H as [Hd Hx].
  rewrite Hd, (IH Hx). reflexivity.
Qed.

Lemma split_on_cat c x s :
  has_char c x = false ->
  split_on c (x ^^ String c s) = x :: split_on c s.
Proof.
  unfold cat. induction x as [| d x IH]; simpl.
  - now rewrite Ascii.eqb_refl.
  - intros H. apply orb_false_elim in H. destruct H as [Hd Hx].
    now rewrite Hd, (IH Hx).
Qed.

Lemma split_on_join c segs :
  segs <> [] -> Forall (fun x => has_char c x = false) segs ->
  split_on c (join (String c EmptyString) segs) = segs.
Proof.
  induction segs as [| x [| y rest] IH]; intros Hne Hall; [congruence | |].
  - inversion Hall; subst. now apply split_on_piece.
  - inversion Hall; subst. rewrite join_cons.
    change (String c EmptyString ^^ join (String c EmptyString) (y :: rest))
      with (String c (join (String c EmptyString) (y :: rest))).
    rewrite split_on_cat by assumption. f_equal.
    apply IH; [discriminate | assumption].
Qed.

Lemma has_char_join d c segs :
  Ascii.eqb d c = false ->
  Forall (fun x => has_char d x = false) segs ->
  has_char d (join (String c EmptyString) segs) = false.
Proof.
  intros Hdc. induction segs as [| x [| y rest] IH]; intros Hall.
  - reflexivity.
  - now inversion Hall.
  - inversion Hall; subst. rewrite join_cons, !has_char_cat.
    rewrite IH by assumption. simpl. rewrite Hdc. rewrite H1. reflexivity.
Qed.

Lemma split_first_absent c s : has_char c s = false -> split_first c s = None.
Proof.
  induction s as [| d s IH]; simpl; [reflexivity |].
  intros H. apply orb_false_elim in H. destruct H as [Hd Hs].
  now rewrite Hd, (IH Hs).
Qed.

Lemma plain_parts s :
  plain s = true -> has_char "." s = false /\ has_char "=" s = false.
Proof.
  unfold plain. intros H. apply andb_prop in H. destruct H as [H1 H2].
  split; [now destruct (has_char "." s) | now destruct (has_char "=" s)].
Qed.

Lemma segment_parts s :
  segment s = true -> String.eqb EmptyString s = false /\ plain s = true.
Proof.
  unfold segment. intros H. apply andb_prop in H. destruct H as [H1 H2].
  split; [| exact H2]. rewrite String.eqb_sym. now destruct (String.eqb s "").
Qed.

(** A raw override made of a path and a value splits into them. *)
Lemma split_render (path : Path) (value : string) :
  path <> [] -> Forall (fun s => plain s = true) path ->
  split_first "=" (render (path, value)) = Some (join "." path, value)
  /\ split_on "." (join "." path) = path.
Proof.
  intros Hne Hall. split.
  - unfold render. cbn [fst snd].
    change ("=" ^^ value) with (String "=" value).
    apply split_first_cat. apply has_char_join; [reflexivity |].
    eapply Forall_impl; [| exact Hall]. intros s Hs. now apply plain_parts.
  - apply split_on_join; [exact Hne |].
    eapply Forall_impl; [| exact Hall]. intros s Hs. now apply plain_parts.
Qed.

Lemma split_raw_render w : well_formed w -> split_raw (render w) = inr w.
Proof.
  destruct w as [path value]. intros [Hne Hall]. cbn [fst] in *.
  assert (Hplain : Forall (fun s => plain s = true) path).
  { eapply Forall_impl; [| exact Hall]. intros s Hs. now apply segment_parts. }
  destruct (split_render path value Hne Hplain) as [H1 H2].
  unfold split_raw. rewrite H1. cbv zeta. rewrite H2.
  replace (existsb (String.eqb EmptyString) path) with false; [reflexivity |].
  symmetry. apply not_true_is_false. intros H. apply existsb_exists in H.
  destruct H as [s [Hin Hs]]. rewrite Forall_forall in Hall.
  destruct (segment_parts s (Hall s Hin)) as [E _]. congruence.
Qed.

Lemma malformed_split r : malformed r -> exists e, split_raw r = inl e.
Proof.
  intros [H | [path [value [-> [Hne [Hall Hin]]]]]]; unfold split_raw.
  - rewrite (split_first_absent _ _ H). eauto.
  - destruct (split_render path value Hne Hall) as [H1 H2].
    rewrite H1. cbv zeta. rewrite H2.
    replace (existsb (String.eqb EmptyString) path) with true; [eauto |].
    symmetry. apply existsb_exists. exists EmptyString. auto.
Qed.

(** Every string is a malformed override or writes a value at a path. *)
Lemma raw_cases r :
  malformed r \/ exists w, well_formed w /\ r = render w.
Proof.
  destruct (split_first "=" r) as [[a b] |] eqn:E.
  - apply split_first_some in E. destruct E as [-> Ha].
    assert (Hplain : Forall (fun s => plain s = true) (split_on "." a)).
    { pose proof (split_on_pieces "." "=" a Ha) as H1.
      pose proof (split_on_no_sep "." a) as H2.
      rewrite Forall_forall in *. intros s Hs. unfold plain.
      now rewrite (H1 s Hs), (H2 s Hs). }
    assert (Hne : split_on "." a <> []) by apply split_on_nonempty.
    assert (Hr : a ^^ String "=" b = render (split_on "." a, b)).
    { unfold render. cbn [fst snd]. now rewrite join_split_on. }
    destruct (existsb (String.eqb EmptyString) (split_on "." a)) eqn:Ee.
    + left. right. exists (split_on "." a), b.
      split; [exact Hr |]. split; [exact Hne |]. split; [exact Hplain |].
      apply existsb_exists in Ee. destruct Ee as [s [Hin Hs]].
      apply String.eqb_eq in Hs. now subst s.
    + right. exists (split_on "." a, b). split; [| exact Hr].
      split; [exact Hne |]. cbn [fst]. rewrite Forall_forall in *.
      intros s Hs. unfold segment. rewrite (Hplain s Hs), andb_true_r.
      destruct (String.eqb s "") eqn:Es; [| reflexivity].
      apply String.eqb_eq in Es. subst s. exfalso.
      assert (existsb (String.eqb EmptyString) (split_on "." a) = true).
      { apply existsb_exists. exists EmptyString. auto. }
      congruence.
  - left. left. now apply split_first_none.
Qed.

Lemma raw_list_cases raw :
  (exists r, In r raw /\ malformed r)
  \/ exists writes, Forall well_formed writes /\ raw = map render writes.
Proof.
  induction raw as [| r raw IH].
  - right. exists []. split; [constructor | reflexivity].
  - destruct (raw_cases r) as [Hm | [w [Hw ->]]].
    + left. exists r. split; [now left | exact Hm].
    + destruct IH as [[r' [Hin Hm]] | [writes [Hall ->]]].
      * left. exists r'. split; [now right | exact Hm].
      * right. exists (w :: writes). split; [now constructor | reflexivity].
Qed.

Lemma parse_onto_malformed raw : forall t r,
  In r raw -> malformed r -> exists e, parse_onto t raw = inl e.
Proof.
  induction raw as [| x raw IH]; intros t r Hin Hm; [destruct Hin |].
  cbn [parse_onto]. destruct Hin as [-> | Hin].
  - destruct (malformed_split r Hm) as [e ->]. eauto.
  - destruct (split_raw x) as [e | [path value]]; [eauto |].
    now apply (IH _ r).
Qed.

Lemma writes_of_render writes :
  Forall well_formed writes -> writes_of (map render writes) = Some writes.
Proof.
  induction 1 as [| w writes Hw _ IH]; [reflexivity |].
  cbn [map writes_of]. now rewrite (split_raw_render w Hw), IH.
Qed.

Lemma is_prefix_app p q : is_prefix p (p ++ q) = true.
Proof.
  induction p as [| a p IH]; [reflexivity |].
  simpl. now rewrite String.eqb_refl.
Qed.

Lemma only_one {A B} (l : list (A * B)) a :
  NoDup (map fst l) -> (forall z, In z l <-> z = a) -> l = [a].
Proof.
  intros Hnd H. destruct l as [| z l].
  - exfalso. apply (proj2 (H a) eq_refl).
  - assert (z = a) by (apply H; now left). subst z. f_equal.
    destruct l as [| z l]; [reflexivity |]. exfalso.
    assert (z = a) by (apply H; right; now left). subst z.
    inversion Hnd as [| ? ? Hnot _]; subst. apply Hnot. now left.
Qed.

Lemma well_formed_app p q v w :
  well_formed (p, v) -> well_formed (q, w) -> well_formed (p ++ q, w).
Proof.
  intros [Hp Hall] [Hq Hall']. cbn [fst] in *. split; cbn [fst].
  - destruct p; [congruence | discriminate].
  - apply Forall_app. auto.
Qed.

Lemma parse_rendered writes :
  Forall well_formed writes ->
  exists t,
    parse_overrides (map render writes) = inr t
    /\ NoDup (map fst (flatten t))
    /\ forall p v, In (p, v) (flatten t) <-> last_write writes p = Some (p, v).
Proof.
  intros Hall. pose proof (flatten_parsed_writes (map render writes)) as H.
  rewrite (writes_of_render writes Hall) in H.
  destruct (parse_overrides (map render writes)) as [e | t]; [discriminate |].
  destruct H as [ws [[= <-] H]]. eauto.
Qed.


(** ** The claim about the override parser *)

(** C8.  Every list of raw override strings either holds a malformed
    entry (one without [=], or with an empty segment in the dotted path
    before its first [=]) or is a list of writes [dotted.path=value] with
    non-empty segments.  With a malformed entry the override parser
    fails.  Otherwise the [path=value] pairs of the overlay it builds
    are, each path once, exactly the writes that are the last to meet
    their own path: the last value written at a path, unless a later
    write went through that path or stopped above it.  In particular,
    of a scalar assignment at a path and an assignment nested further
    down the same path, the later one on the command line is the one
    that stays, and alone. *)
Theorem C8_last_write_wins :
  (forall raw,
     (exists r, In r raw /\ malformed r)
     \/ exists writes, Forall well_formed writes /\ raw = map render writes)
  /\ (forall raw r,
        In r raw -> malformed r -> exists e, parse_overrides raw = inl e)
  /\ (forall writes,
        Forall well_formed writes ->
        exists t,
          parse_overrides (map render writes) = inr t
          /\ NoDup (map fst (flatten t))
          /\ forall p v,
               In (p, v) (flatten t) <-> last_write writes p = Some (p, v))
  /\ (forall p q v w,
        well_formed (p, v) -> well_formed (q, w) ->
        exists t t',
          parse_overrides [render (p, v); render (p ++ q, w)] = inr t
          /\ flatten t = [(p ++ q, w)]
          /\ parse_overrides [render (p ++ q, w); render (p, v)] = inr t'
          /\ flatten t' = [(p, v)]).
Proof.
  split; [exact raw_list_cases |].
  split; [intros raw r Hin Hm; now apply (parse_onto_malformed raw [] r) |].
  split; [exact parse_rendered |].
  intros p q v w Hp Hq.
  pose proof (well_formed_app p q v w Hp Hq) as Hpq.
  assert (Hc1 : conflict p (p ++ q) = true).
  { unfold conflict. now rewrite is_prefix_app. }
  assert (Hc2 : conflict (p ++ q) p = true).
  { unfold conflict. now rewrite is_prefix_app, orb_true_r. }
  destruct (parse_rendered [(p, v); (p ++ q, w)]) as [t [Ht [Hnd Hin]]];
    [constructor; [exact Hp | constructor; [exact Hpq | constructor]] |].
  destruct (parse_rendered [(p ++ q, w); (p, v)]) as [t' [Ht' [Hnd' Hin']]];
    [constructor; [exact Hpq | constructor; [exact Hp | constructor]] |].
  exists t, t'. split; [exact Ht |]. split; [| split; [exact Ht' |]].
  - apply only_one; [exact Hnd |]. intros [x y]. rewrite Hin.
    cbn [last_write]. destruct (conflict x (p ++ q)) eqn:E.
    + split; [intros [= <- <-]; reflexivity | intros [= -> ->]; reflexivity].
    + destruct (conflict x p) eqn:E'.
      * split; intros [= -> ->]; [congruence |].
        now rewrite conflict_refl in E.
      * split; [discriminate |]. intros [= -> ->].
        now rewrite conflict_refl in E.
  - apply only_one; [exact Hnd' |]. intros [x y]. rewrite Hin'.
    cbn [last_write]. destruct (conflict x p) eqn:E.
    + split; [intros [= <- <-]; reflexivity | intros [= -> ->]; reflexivity].
    + destruct (conflict x (p ++ q)) eqn:E'.
      * split; [intros [= <- <-]; congruence | intros [= -> ->]].
        now rewrite conflict_refl in E.
      * split; [discriminate |]. intros [= -> ->].
        now rewrite conflict_refl in E.
Qed.

(** The later write stays, whichever of the two is the deeper one. *)
Example scalar_then_nested :
  parse_overrides ["a=1"; "a.b=2"] = inr [("a", Tree [("b", Scalar "2")])]
  /\ flatten [("a", Tree [("b", Scalar "2")])] = [(["a"; "b"], "2")].
Proof. split; reflexivity. Qed.

Example nested_then_scalar :
  parse_overrides ["a.b=2"; "a=1"] = inr [("a", Scalar "1")]
  /\ flatten [("a", Scalar "1")] = [(["a"], "1")].
Proof. split; reflexivity. Qed.

(** Writes that do not meet stay side by side, in the order of their
    first keys; a value may contain [=]. *)
Example side_by_side :
  parse_overrides ["a.b=1"; "c=x=y"; "a.d=3"; "a.b=4"]
  = inr [("a", Tree [("b", Scalar "4"); ("d", Scalar "3")]);
         ("c", Scalar "x=y")].
Proof. reflexivity. Qed.

Example malformed_overrides :
  parse_overrides ["a=1"; "b"] = inl (MissingSeparator "b")
  /\ parse_overrides ["a..b=1"] = inl (EmptySegment "a..b=1")
  /\ parse_overrides ["=1"] = inl (EmptySegment "=1")
  /\ parse_overrides [] = inr [].
Proof. repeat split; reflexivity. Qed.

End OverridesFacts.

(** ** Where the calls of the actions come from *)

Module OriginFacts.
Import Py Argparse Hoare ArgparseFacts ValueFacts.

Local Abbreviation any := (fun _ : Event => True).






Section Origin.

Variable self : ArgumentParser.

(** [Src] holds of the strings of the command line that can be option
    strings, [Opt] of what they are classified as, and [Tup] of the
    [take_action] calls that come from them. *)
Variable Src : string -> Prop.
Variable Opt : OptionTuple -> Prop.
Variable Tup : ActionTuple -> Prop.

Hypothesis Opt_parse :
  forall s tr t,
    Src s -> parse_optional self s = (tr, Ok (Some t)) -> Opt t.
Hypothesis Tup_no_explicit :
  forall a os strs, Opt (Some a, os, None) -> Tup (a, strs, Some os).
Hypothesis Tup_with_explicit :
  forall e a os following tr r,
    Opt (Some a, os, Some e) ->
    with_explicit self e a os [] following = (tr, Ok r) -> Forall Tup (fst r).
Hypothesis Tup_positional :
  forall a strs, option_strings a = [] -> Tup (a, strs, None).










End Origin.

End OriginFacts.

(** ** The option strings of [parse_args] and the calls they lead to *)

Module KeyFacts.
Import Py Argparse Hoare ArgparseFacts ValueFacts Cli ParseFacts OverridesFacts
  OriginFacts.

(** *** The option strings of [parse_args] *)







(** *** The calls that an option string leads to *)



(** *** What an option string is classified as *)











End KeyFacts.

(** ** Every option string is consumed *)

Module TakenFacts.
Import Py Argparse Hoare ArgparseFacts ValueFacts OriginFacts Cli KeyFacts.

(** *** What a match takes *)












(** *** The calls grow *)








End TakenFacts.

(** ** The option [-K/--key], when given, is taken *)

Module KeyTaken.
Import Py Argparse Hoare ArgparseFacts ValueFacts Cli ParseFacts OverridesFacts.
Import OriginFacts KeyFacts TakenFacts.

(** *** The option strings that give [-K/--key] *)



(** *** From an option tuple to the call *)



(** *** From an argument string to the option tuple *)






(** *** Every option string is consumed *)











End KeyTaken.

(** ** The claims about [run_cli] *)

Module Claims.
Import Py Argparse Hoare StripFacts ArgparseFacts ValueFacts Cli ParseFacts.
Import CliFacts OriginFacts KeyFacts TakenFacts KeyTaken.

Lemma cat_assoc a b c : (a ^^ b) ^^ c = a ^^ b ^^ c.
Proof.
  unfold cat. induction a as [| x a IH]; simpl; [reflexivity |].
  now rewrite IH.
Qed.

Lemma cat_nil_r a : a ^^ "" = a.
Proof.
  unfold cat. induction a as [| x a IH]; simpl; [reflexivity |].
  now rewrite IH.
Qed.

(** *** Counting constructions and [generate] calls *)

Lemma count_construct_app a b :
  count_construct (a ++ b) = count_construct a + count_construct b.
Proof.
  induction a as [| ev a IH]; simpl; [reflexivity |].
  destruct ev; simpl; now rewrite IH.
Qed.

Lemma count_generate_app a b :
  count_generate (a ++ b) = count_generate a + count_generate b.
Proof.
  induction a as [| ev a IH]; simpl; [reflexivity |].
  destruct ev; simpl; now rewrite IH.
Qed.

Lemma count_quiet l :
  Forall quiet l -> count_construct l = 0 /\ count_generate l = 0.
Proof.
  induction 1 as [| ev l Hev _ [IH1 IH2]]; simpl; [auto |].
  destruct ev; simpl in *; auto; contradiction.
Qed.

Lemma quiet_parse l : Forall parse_event l -> Forall quiet l.
Proof.
  apply Forall_impl. intros []; simpl; auto.
Qed.

Lemma quiet_diagnostics w : Forall quiet (diagnostics w).
Proof.
  unfold diagnostics. apply Forall_app. split; [repeat constructor |].
  apply Forall_forall. intros ev Hev. apply in_map_iff in Hev.
  destruct Hev as [kv [<- _]]. exact I.
Qed.

Lemma quiet_http level : Forall quiet (http_events level).
Proof.
  unfold http_events. destruct (py_eq_int level 5); repeat constructor.
Qed.

Lemma quiet_bug_report : Forall quiet bug_report.
Proof.
  repeat constructor.
Qed.

Lemma prefix_assoc {A} (a b c d : list A) :
  a ++ b ++ c ++ d = (a ++ b ++ c) ++ d.
Proof.
  now rewrite <- !app_assoc.
Qed.

(** The events up to the loading of the project construct nothing. *)
Lemma quiet_prefix w cli_args t args level :
  parse_args w cli_args = (t, Ok args) ->
  Forall quiet (t ++ diagnostics w ++ http_events level).
Proof.
  intros H. apply Forall_app. split.
  - apply quiet_parse. pose proof (parse_args_events w cli_args) as Hev.
    now rewrite H in Hev.
  - apply Forall_app. split; [apply quiet_diagnostics | apply quiet_http].
Qed.

(** A run whose project is not loaded: the trace and the value
    returned. *)
Lemma run_cli_not_loaded w cli_args t args level tl v :
  parse_args w cli_args = (t, Ok args) ->
  lookup "logging" args = Some level ->
  load_project w args = (tl, Ok (inr v)) ->
  run_cli w cli_args = (t ++ diagnostics w ++ http_events level ++ tl, Ok v).
Proof.
  intros Hparse Hl Hload.
  rewrite (run_cli_accepted _ _ _ _ Hparse), (run_cli_from_eq _ _ _ Hl), Hload.
  rewrite (bind_ok (_, Ok tt) _ _ _ eq_refl).
  rewrite (bind_ok (_, Ok (inr v)) _ _ _ eq_refl).
  cbn [fst snd ret]. now rewrite app_nil_r, <- app_assoc.
Qed.

(** A run whose project is loaded goes on to [dispatch]. *)
Lemma run_cli_loaded w cli_args t args level tl project :
  parse_args w cli_args = (t, Ok args) ->
  lookup "logging" args = Some level ->
  load_project w args = (tl, Ok (inl project)) ->
  run_cli w cli_args
  = (t ++ diagnostics w ++ http_events level ++ tl
       ++ fst (dispatch w args project),
     snd (dispatch w args project)).
Proof.
  intros Hparse Hl Hload.
  rewrite (run_cli_accepted _ _ _ _ Hparse), (run_cli_from_eq _ _ _ Hl), Hload.
  rewrite (bind_ok (_, Ok tt) _ _ _ eq_refl).
  rewrite (bind_ok (_, Ok (inl project)) _ _ _ eq_refl).
  cbn [fst snd]. now rewrite <- app_assoc.
Qed.

(** C4.  When the project parser returns [None], [run_cli] logs the
    message of the exception it raises for it at critical severity, then
    the request to report a bug and to run again with [--logging trace],
    and returns 1; no generator is constructed.  This holds for every
    command line that [parse_args] accepts. *)
Theorem C4_empty_project_is_internal_error w cli_args t args path cfg :
  parse_args w cli_args = (t, Ok args) ->
  lookup "project" args = Some path ->
  lookup "cfg_pairs" args = Some cfg ->
  Parser_parse w path cfg = Ok VNone ->
  exists level,
    lookup "logging" args = Some level
    /\ run_cli w cli_args
       = (t ++ diagnostics w ++ http_events level
            ++ [EParse path cfg;
                ELog CRITICAL (LMsg "Project parser returned empty project.")]
            ++ bug_report,
          Ok (VInt 1))
    /\ exit_code (snd (run_cli w cli_args)) = 1%Z
    /\ count_construct (fst (run_cli w cli_args)) = 0.
Proof.
  intros Hparse Hpath Hcfg Hload.
  destruct (parsed_attrs _ _ _ _ Hparse) as [level [p' [c' [tg [Hl _]]]]].
  exists level. split; [exact Hl |].
  rewrite (run_cli_not_loaded _ _ _ _ _ _ _ Hparse Hl
             (load_empty w args path cfg Hpath Hcfg VNone Hload eq_refl)).
  split; [reflexivity |]. split; [reflexivity |].
  cbn [fst]. rewrite prefix_assoc, count_construct_app.
  destruct (count_quiet _ (quiet_prefix _ _ _ _ level Hparse)) as [-> _].
  reflexivity.
Qed.

(** The claim C4 at the command line [-t win proj.kbdgen], with a project
    parser that returns [None]. *)
Lemma C4_witness :
  exists level,
    lookup "logging" Demo.parsed = Some level
    /\ run_cli (Demo.world (Ok VNone) (Ok VNone)) Demo.cli
       = ([] ++ diagnostics (Demo.world (Ok VNone) (Ok VNone))
            ++ http_events level
            ++ [EParse (VStr "proj.kbdgen") VNone;
                ELog CRITICAL (LMsg "Project parser returned empty project.")]
            ++ bug_report,
          Ok (VInt 1))
    /\ exit_code (snd (run_cli (Demo.world (Ok VNone) (Ok VNone)) Demo.cli))
       = 1%Z
    /\ count_construct
         (fst (run_cli (Demo.world (Ok VNone) (Ok VNone)) Demo.cli)) = 0.
Proof.
  apply (C4_empty_project_is_internal_error
           (Demo.world (Ok VNone) (Ok VNone)) Demo.cli [] Demo.parsed
           (VStr "proj.kbdgen") VNone); vm_compute; reflexivity.
Defined.

(** C5.  When the project parser raises a YAML scanner error, [run_cli]
    logs one critical record and returns 1.  The record reads
    "Error parsing project:", a newline, the problem, a space and the
    location: the text of the problem mark, whole but for the white
    space at its two ends (and likewise the problem).  Nothing else is
    logged or printed after the parser is called and no exception leaves
    [run_cli], so no stack trace is shown. *)
Theorem C5_scanner_error_is_parse_error w cli_args t args path cfg e :
  parse_args w cli_args = (t, Ok args) ->
  lookup "project" args = Some path ->
  lookup "cfg_pairs" args = Some cfg ->
  Parser_parse w path cfg = Raise e ->
  is_ScannerError e = true ->
  exists level problem location,
    lookup "logging" args = Some level
    /\ run_cli w cli_args
       = (t ++ diagnostics w ++ http_events level
            ++ [EParse path cfg;
                ELog CRITICAL
                  (LMsg ("Error parsing project:" ^^ nl
                         ^^ problem ^^ " " ^^ location))],
          Ok (VInt 1))
    /\ trimmed_of (py_str (repr_str w) (exc_problem e)) problem
    /\ trimmed_of (py_str (repr_str w) (exc_problem_mark e)) location
    /\ contains ("Error parsing project:" ^^ nl ^^ problem ^^ " " ^^ location)
                location
    /\ exit_code (snd (run_cli w cli_args)) = 1%Z.
Proof.
  intros Hparse Hpath Hcfg Hload Hscan.
  destruct (parsed_attrs _ _ _ _ Hparse) as [level [p' [c' [tg [Hl _]]]]].
  exists level, (strip (py_str (repr_str w) (exc_problem e))),
         (strip (py_str (repr_str w) (exc_problem_mark e))).
  split; [exact Hl |].
  rewrite (run_cli_not_loaded _ _ _ _ _ _ _ Hparse Hl
             (load_scanner_error w args path cfg Hpath Hcfg e Hload Hscan)).
  split; [reflexivity |].
  split; [apply strip_trimmed |]. split; [apply strip_trimmed |].
  split; [| reflexivity].
  exists ("Error parsing project:" ^^ nl
          ^^ strip (py_str (repr_str w) (exc_problem e)) ^^ " "), "".
  now rewrite cat_nil_r, !cat_assoc.
Qed.

(** The claim C5 at the command line [-t win proj.kbdgen], with a project
    parser that raises a scanner error at line 3, column 8. *)
Lemma C5_witness :
  exists level problem location,
    lookup "logging" Demo.parsed = Some level
    /\ run_cli (Demo.world (Raise Demo.scanner_error) (Ok VNone)) Demo.cli
       = ([] ++ diagnostics (Demo.world (Raise Demo.scanner_error) (Ok VNone))
            ++ http_events level
            ++ [EParse (VStr "proj.kbdgen") VNone;
                ELog CRITICAL
                  (LMsg ("Error parsing project:" ^^ nl
                         ^^ problem ^^ " " ^^ location))],
          Ok (VInt 1))
    /\ trimmed_of
         (py_str (repr_str (Demo.world (Raise Demo.scanner_error) (Ok VNone)))
                 (exc_problem Demo.scanner_error)) problem
    /\ trimmed_of
         (py_str (repr_str (Demo.world (Raise Demo.scanner_error) (Ok VNone)))
                 (exc_problem_mark Demo.scanner_error)) location
    /\ contains ("Error parsing project:" ^^ nl ^^ problem ^^ " " ^^ location)
                location
    /\ exit_code (snd (run_cli (Demo.world (Raise Demo.scanner_error)
                                           (Ok VNone)) Demo.cli)) = 1%Z.
Proof.
  apply (C5_scanner_error_is_parse_error
           (Demo.world (Raise Demo.scanner_error) (Ok VNone)) Demo.cli []
           Demo.parsed (VStr "proj.kbdgen") VNone Demo.scanner_error);
    vm_compute; reflexivity.
Defined.

(** What the record of C5 reads for that scanner error. *)
Example scanner_error_message :
  snd (run_cli (Demo.world (Raise Demo.scanner_error) (Ok VNone)) Demo.cli)
  = Ok (VInt 1)
  /\ In (ELog CRITICAL
           (LMsg ("Error parsing project:" ^^ nl
                  ^^ "mapping values are not allowed here "
                  ^^ "in 'project.yaml', line 3, column 8")))
        (fst (run_cli (Demo.world (Raise Demo.scanner_error) (Ok VNone))
                      Demo.cli)).
Proof.
  split; [vm_compute; reflexivity |]. vm_compute. tauto.
Qed.

(** *** The events of the stages, whatever the collaborators do *)

Section StageEvents.

Variable P : Event -> Prop.
Variable w : World.

Lemma spec_getattr args k : spec P (fun _ => True) (getattr args k).
Proof.
  unfold getattr. destruct (lookup k args); [now apply spec_ret |].
  apply spec_raise.
Qed.

Lemma spec_gen_get target : spec P (fun _ => True) (gen_get w target).
Proof.
  unfold gen_get. destruct target; try now apply spec_ret.
  apply spec_raise.
Qed.

Lemma spec_load_project args :
  (forall a b, P (EParse a b)) -> (forall a, P (ELog CRITICAL a)) ->
  spec P (fun _ => True) (load_project w args).
Proof.
  intros Hparse Hlog. unfold load_project. apply spec_try_except.
  - eapply spec_bind; [apply spec_getattr |]. intros path _.
    eapply spec_bind; [apply spec_getattr |]. intros cfg _.
    apply spec_bind with (R := fun _ => True); [now apply spec_emit |].
    intros _ _. eapply spec_bind; [apply spec_lift |]. intros project _.
    destruct (is_None project); [apply spec_raise | now apply spec_ret].
  - intros e. destruct (is_ScannerError e).
    + apply spec_bind with (R := fun _ => True); [now apply spec_emit |].
      intros _ _. now apply spec_ret.
    + destruct (is_Exception e); [| apply spec_raise].
      apply spec_bind with (R := fun _ => True).
      * apply spec_for_each. intros x _. now apply spec_emit.
      * intros _ _. destruct (is_UserException e); [now apply spec_ret |].
        repeat (apply spec_bind with (R := fun _ => True);
                [now apply spec_emit | intros _ _]).
        now apply spec_ret.
Qed.

Lemma spec_run_generate x :
  (forall a b, P (EGenerate a b)) -> (forall a, P (ELog ERROR a)) ->
  spec P (fun _ => True) (run_generate w x).
Proof.
  intros Hgen Hlog. unfold run_generate. apply spec_try_except.
  - eapply spec_bind; [apply spec_lift |]. intros out _.
    apply spec_bind with (R := fun _ => True); [now apply spec_emit |].
    intros _ _. eapply spec_bind; [apply spec_lift |]. intros r _.
    now apply spec_ret.
  - intros e. destruct (is_KbdgenException e);
      [now apply spec_emit | apply spec_raise].
Qed.

Lemma spec_dispatch args project :
  (forall s, P (EStderr s)) -> (forall a b c, P (EConstruct a b c)) ->
  (forall a b, P (EGenerate a b)) -> (forall a, P (ELog ERROR a)) ->
  spec P (fun _ => True) (dispatch w args project).
Proof.
  intros Herr Hcons Hgen Hlog. unfold dispatch.
  eapply spec_bind; [apply spec_getattr |]. intros target _.
  eapply spec_bind; [apply spec_gen_get |]. intros [cls |] _.
  - apply spec_bind with (R := fun _ => True); [now apply spec_emit |].
    intros _ _. eapply spec_bind; [apply spec_lift |]. intros x _.
    eapply spec_bind; [now apply spec_run_generate |]. intros _ _.
    now apply spec_ret.
  - eapply spec_bind; [apply spec_getattr |]. intros target' _.
    repeat (apply spec_bind with (R := fun _ => True);
            [now apply spec_emit | intros _ _]).
    now apply spec_ret.
Qed.

End StageEvents.

Lemma at_most_once_quiet t : Forall quiet t -> at_most_once t.
Proof.
  intros H. destruct (count_quiet t H) as [H1 H2]. unfold at_most_once. lia.
Qed.

Lemma at_most_once_bind {A B} (Q : A -> Prop) (m : M A) (f : A -> M B) :
  spec quiet Q m -> (forall a, at_most_once (fst (f a))) ->
  at_most_once (fst (bind m f)).
Proof.
  intros [Hq _] Hf. destruct (count_quiet _ Hq) as [H1 H2].
  destruct m as [t [a | e]]; simpl in *.
  - specialize (Hf a). destruct (f a) as [t' r]. simpl in *.
    unfold at_most_once in *.
    rewrite count_construct_app, count_generate_app. lia.
  - unfold at_most_once. simpl. lia.
Qed.

Lemma at_most_once_run_generate w x :
  count_construct (fst (run_generate w x)) = 0
  /\ count_generate (fst (run_generate w x)) <= 1.
Proof.
  unfold run_generate, try_except, bind, emit, lift, ret, raise.
  destruct (output_dir w x) as [out | e]; simpl.
  - destruct (generate w x out) as [r | e]; simpl; [auto |].
    destruct (is_KbdgenException e); simpl; auto.
  - destruct (is_KbdgenException e); simpl; auto.
Qed.

Lemma at_most_once_dispatch w args project :
  at_most_once (fst (dispatch w args project)).
Proof.
  unfold dispatch.
  eapply at_most_once_bind; [apply spec_getattr |]. intros target.
  eapply at_most_once_bind; [apply spec_gen_get |]. intros [cls |].
  - rewrite (bind_ok (emit _) _ _ _ eq_refl). cbn [fst].
    destruct (construct w cls project args) as [x | e].
    + rewrite (bind_ok (lift (Ok x)) _ [] x eq_refl). cbn [fst app].
      destruct (at_most_once_run_generate w x) as [H1 H2].
      destruct (run_generate w x) as [tg [u | e]]; simpl in *;
        unfold at_most_once; simpl; rewrite ?app_nil_r; lia.
    + unfold at_most_once. simpl. lia.
  - apply at_most_once_quiet.
    eapply (spec_trace quiet (fun _ : PyVal => True)); [| apply eta].
    eapply spec_bind; [apply spec_getattr |]. intros target' _.
    repeat (apply spec_bind with (R := fun _ => True);
            [now apply spec_emit | intros _ _]).
    now apply spec_ret.
Qed.

Lemma at_most_once_run_cli_from w args :
  at_most_once (fst (run_cli_from w args)).
Proof.
  unfold run_cli_from.
  apply at_most_once_bind with (Q := fun _ => True).
  { rewrite print_diagnostics_eq. split; [apply quiet_diagnostics | auto]. }
  intros _. eapply at_most_once_bind; [apply spec_getattr |]. intros level.
  apply at_most_once_bind with (Q := fun _ => True).
  { destruct (py_eq_int level 5); [| now apply spec_ret].
    unfold enable_verbose_requests_log.
    apply spec_bind with (R := fun _ => True); [now apply spec_emit |].
    intros _ _. now apply spec_emit. }
  intros _. apply at_most_once_bind with (Q := fun _ => True).
  { now apply spec_load_project. }
  intros [project | v].
  - apply at_most_once_dispatch.
  - unfold at_most_once. simpl. lia.
Qed.

Lemma parsed_has w cli_args t args k :
  parse_args w cli_args = (t, Ok args) ->
  lookup k (initial_namespace (p w)) <> None ->
  exists v, lookup k args = Some v.
Proof.
  intros H Hk. apply parse_args_accepts in H.
  destruct H as [st [_ [-> [_ [[Hattrs _] _]]]]].
  specialize (Hattrs k Hk).
  destruct (lookup k (st_namespace st)) as [v |]; [eauto | contradiction].
Qed.

(** C7.  Whatever the command line and whatever the collaborators do, one
    invocation constructs at most one generator instance and calls
    [generate] at most once.  When the command line is accepted, the
    project is loaded, the target names a generator class, the instance
    is constructed, its [output_dir] is read and [generate] returns,
    [run_cli] has called [generate] exactly once, with the [output_dir]
    of the instance it constructed from the options (among them
    [output]), and returns [None]: exit code 0. *)
Theorem C7_one_generator_one_generate w cli_args :
  at_most_once (fst (run_cli w cli_args))
  /\ forall t args path cfg s cls project x dir r,
       parse_args w cli_args = (t, Ok args) ->
       lookup "project" args = Some path ->
       lookup "cfg_pairs" args = Some cfg ->
       lookup "target" args = Some (VStr s) ->
       lookup s (gen w) = Some cls ->
       Parser_parse w path cfg = Ok project ->
       is_None project = false ->
       construct w cls project args = Ok x ->
       output_dir w x = Ok dir ->
       generate w x dir = Ok r ->
       exists level out,
         lookup "logging" args = Some level
         /\ lookup "output" args = Some out
         /\ run_cli w cli_args
            = (t ++ diagnostics w ++ http_events level
                 ++ [EParse path cfg; EConstruct cls project args;
                     EGenerate x dir],
               Ok VNone)
         /\ exit_code (snd (run_cli w cli_args)) = 0%Z
         /\ count_construct (fst (run_cli w cli_args)) = 1
         /\ count_generate (fst (run_cli w cli_args)) = 1.
Proof.
  split.
  - unfold run_cli. apply at_most_once_bind with (Q := fun _ => True).
    + split; [| auto]. apply quiet_parse, parse_args_events.
    + intros args. apply at_most_once_run_cli_from.
  - intros t args path cfg s cls project x dir r
           Hparse Hpath Hcfg Htarget Hcls Hload Hnone Hcons Hdir Hgen.
    destruct (parsed_attrs _ _ _ _ Hparse) as [level [p' [c' [tg [Hl _]]]]].
    destruct (parsed_has _ _ _ _ "output" Hparse) as [out Hout];
      [vm_compute; discriminate |].
    exists level, out. split; [exact Hl |]. split; [exact Hout |].
    rewrite (run_cli_loaded _ _ _ _ _ _ _ Hparse Hl
               (load_ok w args path cfg Hpath Hcfg project Hload Hnone)).
    rewrite (dispatch_generated w args project s cls Htarget Hcls x dir r
               Hcons Hdir Hgen).
    cbn [fst snd app]. split; [reflexivity |]. split; [reflexivity |].
    rewrite prefix_assoc, count_construct_app, count_generate_app.
    destruct (count_quiet _ (quiet_prefix _ _ _ _ level Hparse)) as [-> ->].
    split; reflexivity.
Qed.

(** The claim C7 at the command line [-t win proj.kbdgen], with
    collaborators that all succeed: [generate] is called once, with the
    default output directory. *)
Lemma C7_witness :
  exists level out,
    lookup "logging" Demo.parsed = Some level
    /\ lookup "output" Demo.parsed = Some out
    /\ run_cli Demo.fine Demo.cli
       = ([] ++ diagnostics Demo.fine ++ http_events level
            ++ [EParse (VStr "proj.kbdgen") VNone;
                EConstruct (Class "WindowsGenerator") Demo.project Demo.parsed;
                EGenerate (VObj ".") (VStr ".")],
          Ok VNone)
    /\ exit_code (snd (run_cli Demo.fine Demo.cli)) = 0%Z
    /\ count_construct (fst (run_cli Demo.fine Demo.cli)) = 1
    /\ count_generate (fst (run_cli Demo.fine Demo.cli)) = 1.
Proof.
  apply (proj2 (C7_one_generator_one_generate Demo.fine Demo.cli)
               [] Demo.parsed (VStr "proj.kbdgen") VNone "win"
               (Class "WindowsGenerator") Demo.project (VObj ".") (VStr ".")
               VNone);
    vm_compute; reflexivity.
Defined.

(** *** Failures of [generate] *)

(** C3.  What [run_cli] does when [generate] raises, for every accepted
    command line, once the project is loaded, the instance constructed
    and its [output_dir] read.  A [KbdgenException] is logged at error
    severity and not raised again, and [run_cli] then returns [None] (it
    falls off its end), not 1.  Any other exception leaves [run_cli] as
    it is, right after the [generate] call: nothing is logged for it. *)
Theorem C3_generate_exception
  w cli_args t args path cfg s cls project x dir e :
  parse_args w cli_args = (t, Ok args) ->
  lookup "project" args = Some path ->
  lookup "cfg_pairs" args = Some cfg ->
  lookup "target" args = Some (VStr s) ->
  lookup s (gen w) = Some cls ->
  Parser_parse w path cfg = Ok project ->
  is_None project = false ->
  construct w cls project args = Ok x ->
  output_dir w x = Ok dir ->
  generate w x dir = Raise e ->
  exists level,
    lookup "logging" args = Some level
    /\ run_cli w cli_args
       = (t ++ diagnostics w ++ http_events level
            ++ [EParse path cfg; EConstruct cls project args; EGenerate x dir]
            ++ (if is_KbdgenException e then [ELog ERROR (LExc e)] else []),
          if is_KbdgenException e then Ok VNone else Raise e).
Proof.
  intros Hparse Hpath Hcfg Htarget Hcls Hload Hnone Hcons Hdir Hgen.
  destruct (parsed_attrs _ _ _ _ Hparse) as [level [p' [c' [tg [Hl _]]]]].
  exists level. split; [exact Hl |].
  rewrite (run_cli_loaded _ _ _ _ _ _ _ Hparse Hl
             (load_ok w args path cfg Hpath Hcfg project Hload Hnone)).
  destruct (is_KbdgenException e) eqn:He.
  - rewrite (dispatch_kbdgen_exception w args project s cls Htarget Hcls
               x dir e Hcons Hdir Hgen He).
    reflexivity.
  - rewrite (dispatch_other_exception w args project s cls Htarget Hcls
               x dir e Hcons Hdir Hgen He).
    reflexivity.
Qed.

(** The theorem at the command line [-t win proj.kbdgen], with a
    [generate] that raises a [KbdgenException]. *)
Lemma C3_witness :
  exists level,
    lookup "logging" Demo.parsed = Some level
    /\ run_cli (Demo.world (Ok Demo.project) (Raise Demo.kbdgen_exception))
               Demo.cli
       = ([] ++ diagnostics (Demo.world (Ok Demo.project)
                                        (Raise Demo.kbdgen_exception))
             ++ http_events level
             ++ [EParse (VStr "proj.kbdgen") VNone;
                 EConstruct (Class "WindowsGenerator") Demo.project Demo.parsed;
                 EGenerate (VObj ".") (VStr ".")]
             ++ (if is_KbdgenException Demo.kbdgen_exception
                 then [ELog ERROR (LExc Demo.kbdgen_exception)]
                 else []),
          if is_KbdgenException Demo.kbdgen_exception
          then Ok VNone
          else Raise Demo.kbdgen_exception).
Proof.
  apply (C3_generate_exception
           (Demo.world (Ok Demo.project) (Raise Demo.kbdgen_exception))
           Demo.cli [] Demo.parsed (VStr "proj.kbdgen") VNone "win"
           (Class "WindowsGenerator") Demo.project (VObj ".") (VStr ".")
           Demo.kbdgen_exception);
    vm_compute; reflexivity.
Defined.

(** C3.  The code does not do what the claim says, at the command line
    [-t win proj.kbdgen] with a project that loads.  When [generate]
    raises a [KbdgenException], [run_cli] logs it at error severity and
    does not raise it again, but then it falls off its end: it returns
    [None], as a successful run does, so the exit code is 0 and not 1,
    where every other failure that [run_cli] reports returns 1 (here the
    empty project).  When [generate] raises another exception, a
    [KeyError], nothing around the call catches it: it leaves [run_cli]
    after the events of a run that works, without the request for a bug
    report that the same exception gets when the project parser raises
    it. *)
Lemma C3_failing_run :
  run_cli (Demo.world (Ok Demo.project) (Raise Demo.kbdgen_exception)) Demo.cli
  = (diagnostics Demo.fine
       ++ [EParse (VStr "proj.kbdgen") VNone;
           EConstruct (Class "WindowsGenerator") Demo.project Demo.parsed;
           EGenerate (VObj ".") (VStr ".");
           ELog ERROR (LExc Demo.kbdgen_exception)],
     Ok VNone)
  /\ exit_code (snd (run_cli (Demo.world (Ok Demo.project)
                                         (Raise Demo.kbdgen_exception))
                             Demo.cli)) = 0%Z
  /\ snd (run_cli Demo.fine Demo.cli) = Ok VNone
  /\ snd (run_cli (Demo.world (Ok VNone) (Ok VNone)) Demo.cli) = Ok (VInt 1)
  /\ run_cli (Demo.world (Ok Demo.project) (Raise Demo.key_error)) Demo.cli
     = (diagnostics Demo.fine
          ++ [EParse (VStr "proj.kbdgen") VNone;
              EConstruct (Class "WindowsGenerator") Demo.project Demo.parsed;
              EGenerate (VObj ".") (VStr ".")],
        Raise Demo.key_error)
  /\ fst (run_cli (Demo.world (Ok Demo.project) (Raise Demo.key_error))
                  Demo.cli)
     = fst (run_cli Demo.fine Demo.cli)
  /\ run_cli (Demo.world (Raise Demo.key_error) (Ok VNone)) Demo.cli
     = (diagnostics Demo.fine
          ++ [EParse (VStr "proj.kbdgen") VNone;
              ELog CRITICAL (LMsg "layouts")]
          ++ bug_report,
        Ok (VInt 1)).
Proof.
  repeat split; vm_compute; reflexivity.
Qed.

(** *** The flag [--dry-run] *)

Lemma setattr_setattr ns k v v' :
  setattr (setattr ns k v) k v' = setattr ns k v'.
Proof.
  induction ns as [| [k' x] rest IH]; simpl.
  - now rewrite String.eqb_refl.
  - destruct (String.eqb k' k) eqn:E; simpl; rewrite E; [reflexivity |].
    now rewrite IH.
Qed.

Lemma getattr_setattr_other ns k v k' :
  String.eqb k k' = false -> getattr (setattr ns k v) k' = getattr ns k'.
Proof.
  intros H. unfold getattr. now rewrite lookup_setattr, H.
Qed.

Lemma count_generate_without l :
  count_generate (map without_dry_run l) = count_generate l.
Proof.
  induction l as [| ev l IH]; simpl; [reflexivity |].
  destruct ev; simpl; now rewrite IH.
Qed.

(** The project is loaded from [project] and [cfg_pairs] alone. *)
Lemma load_project_dry_run w args flag :
  load_project w (setattr args "dry_run" flag) = load_project w args.
Proof.
  unfold load_project. now rewrite !getattr_setattr_other by reflexivity.
Qed.

(** [dispatch] uses the flag only in the options of the constructor. *)
Lemma dispatch_dry_run w args flag project :
  (forall cls, construct w cls project (setattr args "dry_run" flag)
               = construct w cls project args) ->
  map without_dry_run (fst (dispatch w (setattr args "dry_run" flag) project))
  = map without_dry_run (fst (dispatch w args project))
  /\ snd (dispatch w (setattr args "dry_run" flag) project)
     = snd (dispatch w args project).
Proof.
  intros Hcons. unfold dispatch.
  rewrite !getattr_setattr_other by reflexivity.
  destruct (getattr args "target") as [t1 [target | e]]; [| auto].
  rewrite !(bind_ok (t1, Ok target) _ _ _ eq_refl). cbn [fst snd].
  destruct (gen_get w target) as [t2 [[cls |] | e]]; [| | auto].
  - rewrite !(bind_ok (t2, Ok (Some cls)) _ _ _ eq_refl). cbn [fst snd].
    rewrite !(bind_ok (emit _) _ _ _ eq_refl). cbn [fst snd].
    rewrite Hcons. rewrite !map_app. cbn [map without_dry_run].
    now rewrite setattr_setattr.
  - auto.
Qed.

(** C1, as the spec states it, fails at the command line
    [--dry-run -t win proj.kbdgen]: the flag is set in the namespace and
    [generate] is called all the same. *)
Lemma C1_counterexample :
  parse_args Demo.fine Demo.cli_dry_run = ([], Ok Demo.parsed_dry_run)
  /\ lookup "dry_run" Demo.parsed_dry_run = Some (VBool true)
  /\ run_cli Demo.fine Demo.cli_dry_run
     = (diagnostics Demo.fine
          ++ [EParse (VStr "proj.kbdgen") VNone;
              EConstruct (Class "WindowsGenerator") Demo.project
                         Demo.parsed_dry_run;
              EGenerate (VObj ".") (VStr ".")],
        Ok VNone)
  /\ count_generate (fst (run_cli Demo.fine Demo.cli_dry_run)) = 1.
Proof.
  repeat split; vm_compute; reflexivity.
Qed.

(** C1, amended.  [run_cli] does not read the flag [--dry-run]: it only
    hands it, like every parsed argument, to the generator class among
    the options.  Two command lines whose namespaces differ in [dry_run]
    only, run with a generator class that does not look at that option,
    give the same result and, after the events of the argument parser,
    the same events apart from the [dry_run] entry of those options; so
    [generate] is called as often with the flag as without it.  With the
    flag, when the project is loaded, the instance constructed and its
    [output_dir] read, [generate] is called on it, once. *)
Theorem C1_dry_run_is_not_read w cli_args cli_args' t t' args flag :
  parse_args w cli_args = (t, Ok args) ->
  parse_args w cli_args' = (t', Ok (setattr args "dry_run" flag)) ->
  (forall cls project,
     construct w cls project (setattr args "dry_run" flag)
     = construct w cls project args) ->
  exists rest rest' r,
    run_cli w cli_args = (t ++ rest, r)
    /\ run_cli w cli_args' = (t' ++ rest', r)
    /\ map without_dry_run rest' = map without_dry_run rest
    /\ count_generate rest' = count_generate rest
    /\ forall path cfg s cls project x dir,
         lookup "project" args = Some path ->
         lookup "cfg_pairs" args = Some cfg ->
         lookup "target" args = Some (VStr s) ->
         lookup s (gen w) = Some cls ->
         Parser_parse w path cfg = Ok project ->
         is_None project = false ->
         construct w cls project args = Ok x ->
         output_dir w x = Ok dir ->
         exists before after,
           rest' = before
                     ++ [EParse path cfg;
                         EConstruct cls project (setattr args "dry_run" flag);
                         EGenerate x dir]
                     ++ after
           /\ count_generate rest' = 1.
Proof.
  intros Hparse Hparse' Hcons.
  destruct (parsed_attrs _ _ _ _ Hparse) as [level [p' [c' [tg [Hl _]]]]].
  set (args' := setattr args "dry_run" flag) in *.
  assert (Hl' : lookup "logging" args' = Some level).
  { unfold args'. now rewrite lookup_setattr. }
  assert (Hload : load_project w args' = load_project w args)
    by apply load_project_dry_run.
  exists (fst (run_cli_from w args)), (fst (run_cli_from w args')),
         (snd (run_cli_from w args)).
  split; [now apply run_cli_accepted |].
  assert (Hsame :
    map without_dry_run (fst (run_cli_from w args'))
    = map without_dry_run (fst (run_cli_from w args))
    /\ snd (run_cli_from w args') = snd (run_cli_from w args)).
  { rewrite (run_cli_from_eq _ _ _ Hl), (run_cli_from_eq _ _ _ Hl'), Hload.
    rewrite !(bind_ok (_, Ok tt) _ _ _ eq_refl). cbn [fst snd].
    destruct (load_project w args) as [tl [[project | v] | e]].
    - rewrite !(bind_ok (tl, Ok (inl project)) _ _ _ eq_refl). cbn [fst snd].
      destruct (dispatch_dry_run w args flag project
                  (fun cls => Hcons cls project)) as [Htr Hres].
      fold args' in Htr, Hres. split; [| exact Hres].
      now rewrite !map_app, Htr.
    - now rewrite !(bind_ok (tl, Ok (inr v)) _ _ _ eq_refl).
    - now rewrite !(bind_raise (tl, Raise e) _ _ _ eq_refl). }
  destruct Hsame as [Htr Hres].
  split.
  { rewrite (run_cli_accepted _ _ _ _ Hparse'). now rewrite Hres. }
  split; [exact Htr |].
  split.
  { rewrite <- (count_generate_without (fst (run_cli_from w args'))), Htr.
    apply count_generate_without. }
  intros path cfg s cls project x dir
         Hpath Hcfg Htarget Hcls Hparsed Hnone Hx Hdir.
  assert (Hpath' : lookup "project" args' = Some path).
  { unfold args'. now rewrite lookup_setattr. }
  assert (Hcfg' : lookup "cfg_pairs" args' = Some cfg).
  { unfold args'. now rewrite lookup_setattr. }
  assert (Htarget' : lookup "target" args' = Some (VStr s)).
  { unfold args'. now rewrite lookup_setattr. }
  assert (Hx' : construct w cls project args' = Ok x).
  { unfold args'. now rewrite Hcons. }
  assert (Hrun : exists after,
    fst (run_cli_from w args')
    = (diagnostics w ++ http_events level)
        ++ [EParse path cfg; EConstruct cls project args'; EGenerate x dir]
        ++ after
    /\ Forall quiet after).
  { rewrite (run_cli_from_eq _ _ _ Hl').
    rewrite (load_ok w args' path cfg Hpath' Hcfg' project Hparsed Hnone).
    rewrite (bind_ok (_, Ok tt) _ _ _ eq_refl).
    rewrite (bind_ok (_, Ok (inl project)) _ _ _ eq_refl). cbn [fst snd].
    destruct (generate w x dir) as [r | e] eqn:Hgen;
      [| destruct (is_KbdgenException e) eqn:He].
    - rewrite (dispatch_generated w args' project s cls Htarget' Hcls
                 x dir r Hx' Hdir Hgen).
      exists []. split; [reflexivity | constructor].
    - rewrite (dispatch_kbdgen_exception w args' project s cls Htarget' Hcls
                 x dir e Hx' Hdir Hgen He).
      exists [ELog ERROR (LExc e)]. split; [reflexivity |].
      repeat constructor.
    - rewrite (dispatch_other_exception w args' project s cls Htarget' Hcls
                 x dir e Hx' Hdir Hgen He).
      exists []. split; [reflexivity | constructor]. }
  destruct Hrun as [after [Hrun Hq]].
  exists (diagnostics w ++ http_events level), after.
  split; [exact Hrun |]. rewrite Hrun.
  rewrite !count_generate_app.
  destruct (count_quiet _ (quiet_diagnostics w)) as [_ ->].
  destruct (count_quiet _ (quiet_http level)) as [_ ->].
  destruct (count_quiet _ Hq) as [_ ->]. reflexivity.
Qed.

(** The amended claim C1 at the command lines [-t win proj.kbdgen] and
    [--dry-run -t win proj.kbdgen]. *)
Lemma C1_witness :
  exists rest rest' r,
    run_cli Demo.fine Demo.cli = ([] ++ rest, r)
    /\ run_cli Demo.fine Demo.cli_dry_run = ([] ++ rest', r)
    /\ map without_dry_run rest' = map without_dry_run rest
    /\ count_generate rest' = count_generate rest
    /\ forall path cfg s cls project x dir,
         lookup "project" Demo.parsed = Some path ->
         lookup "cfg_pairs" Demo.parsed = Some cfg ->
         lookup "target" Demo.parsed = Some (VStr s) ->
         lookup s (gen Demo.fine) = Some cls ->
         Parser_parse Demo.fine path cfg = Ok project ->
         is_None project = false ->
         construct Demo.fine cls project Demo.parsed = Ok x ->
         output_dir Demo.fine x = Ok dir ->
         exists before after,
           rest' = before
                     ++ [EParse path cfg;
                         EConstruct cls project
                           (setattr Demo.parsed "dry_run" (VBool true));
                         EGenerate x dir]
                     ++ after
           /\ count_generate rest' = 1.
Proof.
  apply (C1_dry_run_is_not_read Demo.fine Demo.cli Demo.cli_dry_run [] []
           Demo.parsed (VBool true)).
  - vm_compute. reflexivity.
  - vm_compute. reflexivity.
  - intros cls project. vm_compute. reflexivity.
Defined.

(** C2, as the spec states it, fails at the empty command line: the
    arguments are parsed first, the parser exits with status 2 because
    the target and the project are missing, and nothing is dumped. *)
Lemma C2_counterexample :
  run_cli Demo.fine []
  = ([EStderr ("usage: kbdgen [-h] -t {win,mac,android} project" ^^ nl);
      EStderr ("kbdgen: error: the following arguments are required: "
               ^^ "-t/--target, project" ^^ nl)],
     Raise (SystemExit_ 2))
  /\ Forall parse_event (fst (run_cli Demo.fine []))
  /\ diagnostics Demo.fine <> [].
Proof.
  split; [vm_compute; reflexivity |]. split; [| discriminate].
  vm_compute. repeat constructor.
Qed.

(** C2, amended.  The diagnostic dump comes after the arguments are
    parsed.  When [parse_args] exits (an error in the command line,
    [--help], [--version]) there is no dump.  When [parse_args] returns,
    the dump happens exactly once, right after parsing and before the
    project parser is called, whatever the later stages do. *)
Theorem C2_diagnostics_after_parsing w cli_args :
  (forall t e,
     parse_args w cli_args = (t, Raise e) ->
     run_cli w cli_args = (t, Raise e) /\ Forall parse_event t)
  /\ (forall t args,
        parse_args w cli_args = (t, Ok args) ->
        exists rest,
          fst (run_cli w cli_args) = t ++ diagnostics w ++ rest
          /\ Forall parse_event t
          /\ Forall not_debug rest).
Proof.
  pose proof (parse_args_events w cli_args) as Hev. split.
  - intros t e H. rewrite H in Hev. split; [| exact Hev].
    now apply run_cli_rejected.
  - intros t args H. rewrite H in Hev.
    rewrite (run_cli_accepted _ _ _ _ H). unfold run_cli_from.
    rewrite print_diagnostics_eq.
    match goal with
    | |- context [bind (diagnostics w, Ok tt) ?f] => set (K := f)
    end.
    rewrite (bind_ok (_, Ok tt) K _ _ eq_refl). cbn [fst].
    exists (fst (K tt)). split; [reflexivity |]. split; [exact Hev |].
    apply (spec_trace not_debug (fun _ : PyVal => True) (K tt) _ (snd (K tt)));
      [| apply eta].
    unfold K. eapply spec_bind; [apply spec_getattr |]. intros level _.
    apply spec_bind with (R := fun _ => True).
    { destruct (py_eq_int level 5); [| now apply spec_ret].
      unfold enable_verbose_requests_log.
      apply spec_bind with (R := fun _ => True); [now apply spec_emit |].
      intros _ _. now apply spec_emit. }
    intros _ _. eapply spec_bind; [now apply spec_load_project |].
    intros [project | v] _; [now apply spec_dispatch | now apply spec_ret].
Qed.

(** The amended claim C2 at the command line [-t win proj.kbdgen]. *)
Lemma C2_witness :
  exists rest,
    fst (run_cli Demo.fine Demo.cli) = [] ++ diagnostics Demo.fine ++ rest
    /\ Forall parse_event []
    /\ Forall not_debug rest.
Proof.
  apply (proj2 (C2_diagnostics_after_parsing Demo.fine Demo.cli)
               [] Demo.parsed).
  vm_compute. reflexivity.
Defined.

(** *** The logging level *)

(** The project is loaded from [project] and [cfg_pairs] alone. *)
Lemma load_project_logging w args level :
  load_project w (setattr args "logging" level) = load_project w args.
Proof.
  unfold load_project. now rewrite !getattr_setattr_other by reflexivity.
Qed.

(** [dispatch] uses the level only in the options of the constructor. *)
Lemma dispatch_logging w args level project :
  (forall cls, construct w cls project (setattr args "logging" level)
               = construct w cls project args) ->
  map without_logging (fst (dispatch w (setattr args "logging" level) project))
  = map without_logging (fst (dispatch w args project))
  /\ snd (dispatch w (setattr args "logging" level) project)
     = snd (dispatch w args project).
Proof.
  intros Hcons. unfold dispatch.
  rewrite !getattr_setattr_other by reflexivity.
  destruct (getattr args "target") as [t1 [target | e]]; [| auto].
  rewrite !(bind_ok (t1, Ok target) _ _ _ eq_refl). cbn [fst snd].
  destruct (gen_get w target) as [t2 [[cls |] | e]]; [| | auto].
  - rewrite !(bind_ok (t2, Ok (Some cls)) _ _ _ eq_refl). cbn [fst snd].
    rewrite !(bind_ok (emit _) _ _ _ eq_refl). cbn [fst snd].
    rewrite Hcons. rewrite !map_app. cbn [map without_logging].
    now rewrite setattr_setattr.
  - auto.
Qed.

(** C10, as the spec states it, fails for the command lines
    [--logging debug -t win proj.kbdgen] and [-t win proj.kbdgen]
    (level info): neither level is 5, and yet the two runs differ, in
    the options that the generator class is constructed with. *)
Lemma C10_counterexample :
  lookup "logging" Demo.parsed_debug = Some (VInt 10)
  /\ lookup "logging" Demo.parsed = Some (VInt 20)
  /\ Demo.parsed_debug = setattr Demo.parsed "logging" (VInt 10)
  /\ run_cli Demo.fine Demo.cli_debug
     = (diagnostics Demo.fine
          ++ [EParse (VStr "proj.kbdgen") VNone;
              EConstruct (Class "WindowsGenerator") Demo.project
                         Demo.parsed_debug;
              EGenerate (VObj ".") (VStr ".")],
        Ok VNone)
  /\ run_cli Demo.fine Demo.cli
     = (diagnostics Demo.fine
          ++ [EParse (VStr "proj.kbdgen") VNone;
              EConstruct (Class "WindowsGenerator") Demo.project Demo.parsed;
              EGenerate (VObj ".") (VStr ".")],
        Ok VNone)
  /\ run_cli Demo.fine Demo.cli_debug <> run_cli Demo.fine Demo.cli.
Proof.
  repeat split; try (vm_compute; reflexivity).
  intros H.
  apply (f_equal (fun m : M PyVal =>
                    match nth 6 (fst m) (EStdout "") with
                    | EConstruct _ _ options => lookup "logging" options
                    | _ => None
                    end)) in H.
  vm_compute in H. discriminate H.
Qed.

(** C10, amended.  [run_cli] never sets the level of a logger.  It uses
    the parsed level twice: when the level equals 5, verbose logging of
    HTTP connections is switched on after the dump and before the
    project parser is called; and the level is handed, like every parsed
    argument, to the generator class among the options, under the key
    [logging].  Two command lines whose namespaces differ in the level
    only, run with a generator class that does not look at that option,
    give the same events and the same result apart from these two
    places. *)
Theorem C10_logging_level w cli_args cli_args' t t' args level' :
  parse_args w cli_args = (t, Ok args) ->
  parse_args w cli_args' = (t', Ok (setattr args "logging" level')) ->
  (forall cls project,
     construct w cls project (setattr args "logging" level')
     = construct w cls project args) ->
  exists level rest rest' r,
    lookup "logging" args = Some level
    /\ run_cli w cli_args
       = (t ++ diagnostics w ++ http_events level ++ rest, r)
    /\ run_cli w cli_args'
       = (t' ++ diagnostics w ++ http_events level' ++ rest', r)
    /\ map without_logging rest' = map without_logging rest
    /\ (py_eq_int level 5 = false -> http_events level = [])
    /\ (py_eq_int level 5 = true ->
        http_events level = [EHttpDebuglevel 1; EGetLogger "urllib3"]).
Proof.
  intros Hparse Hparse' Hcons.
  destruct (parsed_attrs _ _ _ _ Hparse) as [level [p' [c' [tg [Hl _]]]]].
  assert (Hl' : lookup "logging" (setattr args "logging" level') = Some level').
  { now rewrite lookup_setattr. }
  exists level.
  rewrite (run_cli_accepted _ _ _ _ Hparse), (run_cli_from_eq _ _ _ Hl).
  rewrite (run_cli_accepted _ _ _ _ Hparse'), (run_cli_from_eq _ _ _ Hl').
  rewrite load_project_logging.
  rewrite !(bind_ok (_, Ok tt) _ _ _ eq_refl). cbn [fst snd].
  assert (Hhttp : (py_eq_int level 5 = false -> http_events level = [])
                  /\ (py_eq_int level 5 = true ->
                      http_events level
                      = [EHttpDebuglevel 1; EGetLogger "urllib3"])).
  { unfold http_events. destruct (py_eq_int level 5); split; auto;
      discriminate. }
  destruct (load_project w args) as [tl [[project | v] | e]].
  - rewrite !(bind_ok (tl, Ok (inl project)) _ _ _ eq_refl). cbn [fst snd].
    destruct (dispatch_logging w args level' project (fun cls => Hcons cls project))
      as [Htr Hres].
    exists (tl ++ fst (dispatch w args project)),
           (tl ++ fst (dispatch w (setattr args "logging" level') project)),
           (snd (dispatch w args project)).
    split; [exact Hl |]. rewrite <- !app_assoc.
    split; [reflexivity |]. split; [now rewrite Hres |].
    split; [| exact Hhttp]. now rewrite !map_app, Htr.
  - exists tl, tl, (Ok v). split; [exact Hl |].
    rewrite !(bind_ok (tl, Ok (inr v)) _ _ _ eq_refl). cbn [fst snd ret].
    rewrite app_nil_r, <- !app_assoc. auto.
  - exists tl, tl, (Raise e). split; [exact Hl |].
    rewrite !(bind_raise (tl, Raise e) _ _ _ eq_refl).
    cbn [fst snd]. rewrite <- !app_assoc. auto.
Qed.

(** The amended claim C10 at the command lines [-t win proj.kbdgen] and
    [--logging debug -t win proj.kbdgen]. *)
Lemma C10_witness :
  exists level rest rest' r,
    lookup "logging" Demo.parsed = Some level
    /\ run_cli Demo.fine Demo.cli
       = ([] ++ diagnostics Demo.fine ++ http_events level ++ rest, r)
    /\ run_cli Demo.fine Demo.cli_debug
       = ([] ++ diagnostics Demo.fine ++ http_events (VInt 10) ++ rest', r)
    /\ map without_logging rest' = map without_logging rest
    /\ (py_eq_int level 5 = false -> http_events level = [])
    /\ (py_eq_int level 5 = true ->
        http_events level = [EHttpDebuglevel 1; EGetLogger "urllib3"]).
Proof.
  apply (C10_logging_level Demo.fine Demo.cli Demo.cli_debug [] []
           Demo.parsed (VInt 10)).
  - vm_compute. reflexivity.
  - vm_compute. reflexivity.
  - intros cls project. vm_compute. reflexivity.
Defined.

(** With [--logging trace] the switch comes after the dump and before
    the project parser is called. *)
Example logging_trace :
  fst (run_cli Demo.fine ("--logging" :: "trace" :: Demo.cli))
  = diagnostics Demo.fine
      ++ [EHttpDebuglevel 1; EGetLogger "urllib3";
          EParse (VStr "proj.kbdgen") VNone;
          EConstruct (Class "WindowsGenerator") Demo.project
                     (setattr Demo.parsed "logging" (VInt 5));
          EGenerate (VObj ".") (VStr ".")].
Proof.
  vm_compute. reflexivity.
Qed.

(** *** The target *)

(** C6, as the spec states it, fails at the command line
    [-t bogus proj.kbdgen], whose target is not in the registry: the
    argument parser refuses it and exits with status 2; [run_cli] does
    not get to return 1. *)
Lemma C6_counterexample :
  mem_str "bogus" (gen_keys Demo.fine) = false
  /\ run_cli Demo.fine ["-t"; "bogus"; "proj.kbdgen"]
     = ([EStderr ("usage: kbdgen [-h] -t {win,mac,android} project" ^^ nl);
         EStderr ("kbdgen: error: argument -t/--target: invalid choice: "
                  ^^ "'bogus' (choose from 'win', 'mac', 'android')" ^^ nl)],
        Raise (SystemExit_ 2))
  /\ exit_code (snd (run_cli Demo.fine ["-t"; "bogus"; "proj.kbdgen"])) = 2%Z
  /\ snd (run_cli Demo.fine ["-t"; "bogus"; "proj.kbdgen"]) <> Ok (VInt 1).
Proof.
  repeat split; try (vm_compute; reflexivity).
  vm_compute. discriminate.
Qed.

(** C6, amended.  A target that is not a key of the registry is refused
    by the argument parser ([choices=gen.keys()]), not by [run_cli]:
    - a command line that [parse_args] accepts has a target for which
      the lookup in the registry does not yield [None];
    - when [parse_args] exits, [run_cli] ends there, with the events of
      the parser only: nothing is loaded and no generator is
      constructed;
    - the check of the choices answers a string that is not a key with
      "argument -t/--target: invalid choice: ... (choose from ...)" on
      the standard error and [SystemExit(2)];
    - the check in [run_cli] itself, if the lookup were to yield [None]
      after the project is loaded, prints the target and the valid
      targets to the standard error and returns 1, and no generator is
      constructed. *)
Theorem C6_absent_target w :
  (forall cli_args t args,
     parse_args w cli_args = (t, Ok args) ->
     exists target,
       lookup "target" args = Some target /\ gen_get w target <> ret None)
  /\ (forall cli_args t e,
        parse_args w cli_args = (t, Raise e) ->
        run_cli w cli_args = (t, Raise e)
        /\ Forall parse_event t /\ count_construct t = 0)
  /\ (forall s,
        mem_str s (gen_keys w) = false ->
        exists t,
          check_value (p w) (target_action w) (VStr s)
          = (t ++ [EStderr
                     ("kbdgen: error: argument -t/--target: invalid choice: "
                      ^^ repr_str w s ^^ " (choose from "
                      ^^ join ", " (map (repr_str w) (gen_keys w))
                      ^^ ")" ^^ nl)],
             Raise (SystemExit_ 2))
          /\ Forall parse_event t)
  /\ (forall args project target,
        lookup "target" args = Some target ->
        gen_get w target = ret None ->
        dispatch w args project
        = ([EStderr ("Error: '" ^^ py_str (repr_str w) target
                     ^^ "' is not a valid target." ^^ nl);
            EStderr ("Valid targets: " ^^ join ", " (gen_keys w) ^^ nl)],
           Ok (VInt 1))
        /\ count_construct (fst (dispatch w args project)) = 0).
Proof.
  split; [| split; [| split]].
  - intros cli_args t args H.
    destruct (parsed_attrs _ _ _ _ H) as [level [p' [c' [tg [_ [_ [_ [Ht Hok]]]]]]]].
    exists tg. split; [exact Ht |].
    destruct Hok as [[s [-> Hs]] | [l ->]].
    + apply mem_str_lookup in Hs. destruct Hs as [cls Hcls].
      unfold gen_get. rewrite Hcls. discriminate.
    + discriminate.
  - intros cli_args t e H. pose proof (parse_args_events w cli_args) as Hev.
    rewrite H in Hev. split; [now apply run_cli_rejected |].
    split; [exact Hev |]. now destruct (count_quiet _ (quiet_parse _ Hev)).
  - intros s Hs. unfold check_value. cbn [choices target_action].
    rewrite Hs. unfold argument_error, error, exit.
    exists (fst (print_message EStderr (p_format_usage (p w)))). split.
    + unfold print_message at 1.
      destruct (p_format_usage (p w)); cbn -[cat join];
        rewrite ?cat_assoc; reflexivity.
    + unfold print_message. destruct (p_format_usage (p w));
        repeat constructor.
  - intros args project target Ht Hg.
    rewrite (dispatch_invalid w args project target Ht Hg).
    split; reflexivity.
Qed.

(** The amended claim C6: the command line [-t win proj.kbdgen] is
    accepted and its target is in the registry; [-t bogus proj.kbdgen] is
    refused; the check of the choices refuses [bogus]; and the check of
    [run_cli] on a namespace without a target. *)
Lemma C6_witness :
  (exists target,
     lookup "target" Demo.parsed = Some target
     /\ gen_get Demo.fine target <> ret None)
  /\ (run_cli Demo.fine ["-t"; "bogus"; "proj.kbdgen"]
      = (fst (parse_args Demo.fine ["-t"; "bogus"; "proj.kbdgen"]),
         Raise (SystemExit_ 2))
      /\ Forall parse_event
           (fst (parse_args Demo.fine ["-t"; "bogus"; "proj.kbdgen"]))
      /\ count_construct
           (fst (parse_args Demo.fine ["-t"; "bogus"; "proj.kbdgen"])) = 0)
  /\ (exists t,
        check_value (p Demo.fine) (target_action Demo.fine) (VStr "bogus")
        = (t ++ [EStderr
                   ("kbdgen: error: argument -t/--target: invalid choice: "
                    ^^ repr_str Demo.fine "bogus" ^^ " (choose from "
                    ^^ join ", " (map (repr_str Demo.fine)
                                      (gen_keys Demo.fine))
                    ^^ ")" ^^ nl)],
           Raise (SystemExit_ 2))
        /\ Forall parse_event t)
  /\ (dispatch Demo.fine (setattr Demo.parsed "target" VNone) Demo.project
      = ([EStderr ("Error: '" ^^ py_str (repr_str Demo.fine) VNone
                   ^^ "' is not a valid target." ^^ nl);
          EStderr ("Valid targets: " ^^ join ", " (gen_keys Demo.fine) ^^ nl)],
         Ok (VInt 1))
      /\ count_construct
           (fst (dispatch Demo.fine (setattr Demo.parsed "target" VNone)
                          Demo.project)) = 0).
Proof.
  destruct (C6_absent_target Demo.fine) as [H1 [H2 [H3 H4]]].
  split; [| split; [| split]].
  - apply (H1 Demo.cli [] Demo.parsed). vm_compute. reflexivity.
  - apply (H2 ["-t"; "bogus"; "proj.kbdgen"]). vm_compute. reflexivity.
  - apply (H3 "bogus"). vm_compute. reflexivity.
  - apply (H4 (setattr Demo.parsed "target" VNone) Demo.project VNone);
      vm_compute; reflexivity.
Defined.

(** *** The overrides handed to the project parser *)














(** The ways of writing the option, and strings that do not give it. *)
Example key_flag_forms :
  map key_flag ["-K"; "--key"; "--ke"; "--key=a=1"; "--ke=a=1"; "-Ka=1";
                "-K=a"; "-DK"; "-D=K"; "-DRKa=1"; "-D=RK"]
  = [true; true; true; true; true; true; true; true; true; true; true]
  /\ map key_flag ["--k"; "--kbd-repo"; "-oK"; "-fK"; "-GK"; "-t"; "K";
                   "a.K=1"; "-D"; "-DR=K"; "-"; EmptyString]
     = [false; false; false; false; false; false; false; false; false; false;
        false; false].
Proof.
  split; reflexivity.
Qed.

(** The option as [--ke], in a cluster and after [-D=] gives the empty
    list, as does the lone ['--'] attached to it; a [-K] after ['--'] is
    the project, and the [K] of [-oK] is the output directory. *)
Example key_option_runs :
  Forall (fun cli => In (EParse (VStr "proj.kbdgen") (VList []))
                        (fst (run_cli Demo.fine cli)))
         [ ["-t"; "win"; "proj.kbdgen"; "--ke"];
           ["-t"; "win"; "proj.kbdgen"; "-DK"];
           ["-t"; "win"; "proj.kbdgen"; "-D=K"];
           ["-t"; "win"; "proj.kbdgen"; "--key=--"];
           ["-K"; "a=1"; "-t"; "win"; "proj.kbdgen"; "-K"] ]
  /\ In (EParse (VStr "-K") VNone)
        (fst (run_cli Demo.fine ["-t"; "win"; "--"; "-K"]))
  /\ In (EParse (VStr "proj.kbdgen") VNone)
        (fst (run_cli Demo.fine ["-t"; "win"; "-oK"; "proj.kbdgen"]))
  /\ Forall (fun s => key_flag s = false)
            (options_part ["-t"; "win"; "--"; "-K"])
  /\ Forall (fun s => key_flag s = false)
            (options_part ["-t"; "win"; "-oK"; "proj.kbdgen"]).
Proof.
  split; [| split; [| split; [| split]]].
  - repeat (constructor; [vm_compute; tauto |]). constructor.
  - vm_compute. tauto.
  - vm_compute. tauto.
  - vm_compute. repeat constructor.
  - vm_compute. repeat constructor.
Qed.

(** Without [-K] the project parser gets [None]; with a bare [-K] it gets
    the empty list; with values it gets them, in order. *)
Example overrides_by_command_line :
  In (EParse (VStr "proj.kbdgen") VNone) (fst (run_cli Demo.fine Demo.cli))
  /\ In (EParse (VStr "proj.kbdgen") (VList []))
        (fst (run_cli Demo.fine Demo.cli_no_values))
  /\ In (EParse (VStr "proj.kbdgen") (VList [VStr "a=1"; VStr "a.b=2"]))
        (fst (run_cli Demo.fine Demo.cli_values)).
Proof.
  split; [| split]; vm_compute; tauto.
Qed.

End Claims.

(** ** How the argument parser leaves *)

Module ExitFacts.
Import Py Argparse Hoare ArgparseFacts ValueFacts.

Section Rules.

Variable E : list Event -> PyExc -> Prop.
Hypothesis E_prefix : forall t t' e, E t' e -> E (t ++ t') e.

Lemma raises_ret {A} (Q : A -> Prop) a : Q a -> raises E Q (ret a).
Proof. intros H. exact H. Qed.

Lemma raises_raise {A} (Q : A -> Prop) e : E [] e -> raises E Q (raise e).
Proof. intros H. exact H. Qed.

Lemma raises_emit (Q : unit -> Prop) ev : Q tt -> raises E Q (emit ev).
Proof. intros H. exact H. Qed.

Lemma raises_emits (Q : unit -> Prop) evs : Q tt -> raises E Q (emits evs).
Proof. intros H. exact H. Qed.

Lemma raises_bind {A B} (R : A -> Prop) (Q : B -> Prop) m (f : A -> M B) :
  raises E R m -> (forall a, R a -> raises E Q (f a)) -> raises E Q (bind m f).
Proof.
  unfold raises. destruct m as [t [a | e]]; simpl.
  - intros Ha Hf. specialize (Hf a Ha). destruct (f a) as [t' [b | e]]; simpl in *.
    + exact Hf.
    + now apply E_prefix.
  - auto.
Qed.

Lemma raises_weaken {A} (Q Q' : A -> Prop) m :
  raises E Q m -> (forall a, Q a -> Q' a) -> raises E Q' m.
Proof.
  unfold raises. destruct (snd m); auto.
Qed.

Lemma raises_for_each {A} (l : list A) (body : A -> M unit) :
  (forall x, In x l -> raises E (fun _ => True) (body x)) ->
  raises E (fun _ => True) (for_each l body).
Proof.
  induction l as [| x rest IH]; intros H; simpl.
  - exact I.
  - apply raises_bind with (R := fun _ => True).
    + apply H. now left.
    + intros _ _. apply IH. intros y Hy. apply H. now right.
Qed.

Lemma raises_map_m {A B} (R : B -> Prop) (f : A -> M B) (l : list A) :
  (forall x, In x l -> raises E R (f x)) ->
  raises E (Forall R) (map_m f l).
Proof.
  induction l as [| x rest IH]; intros H; simpl.
  - constructor.
  - apply raises_bind with (R := R).
    + apply H. now left.
    + intros y Hy. apply raises_bind with (R := Forall R).
      * apply IH. intros z Hz. apply H. now right.
      * intros ys Hys. now constructor.
Qed.

Lemma raises_fold_m {A B} (I : A -> Prop) (f : A -> B -> M A) (l : list B) :
  (forall a x, In x l -> I a -> raises E I (f a x)) ->
  forall a, I a -> raises E I (fold_m f a l).
Proof.
  induction l as [| x rest IH]; intros H a Ha; simpl.
  - exact Ha.
  - apply raises_bind with (R := I).
    + apply H; [now left | exact Ha].
    + intros a' Ha'. apply IH; [| exact Ha'].
      intros b y Hy. apply H. now right.
Qed.

End Rules.

Section Parser.

Variable self : ArgumentParser.

(** An action with [choices=] has no [type=] and takes one argument. *)
Hypothesis choices_plain :
  forall a, In a (p_actions self) ->
            choices a = None \/ (type_ a = None /\ nargs a = NargsNone).

Local Abbreviation E := (parser_exit self).

Lemma parser_exit_prefix t t' e : E t' e -> E (t ++ t') e.
Proof.
  intros [H | [H [before [message ->]]]]; [now left | right].
  split; [exact H |]. exists (t ++ before), message. now rewrite app_assoc.
Qed.

Local Abbreviation raises_bind := (raises_bind E parser_exit_prefix).
Local Abbreviation raises_for_each := (raises_for_each E parser_exit_prefix).
Local Abbreviation raises_map_m := (raises_map_m E parser_exit_prefix).
Local Abbreviation raises_fold_m := (raises_fold_m E parser_exit_prefix).

Lemma raises_print_message (out : string -> Event) msg (Q : unit -> Prop) :
  Q tt -> raises E Q (print_message out msg).
Proof.
  intros HQ. unfold print_message. now destruct msg.
Qed.

Lemma raises_exit_0 {A} (Q : A -> Prop) : raises E Q (exit 0 EmptyString).
Proof.
  now left.
Qed.

Lemma cat_not_empty a c b : a ^^ String c b <> EmptyString.
Proof.
  unfold cat. destruct a; discriminate.
Qed.

Lemma raises_error {A} msg (Q : A -> Prop) : raises E Q (error self msg).
Proof.
  unfold error. apply raises_bind with (R := fun _ => True).
  - now apply raises_print_message.
  - intros _ _. unfold exit, print_message.
    destruct (p_prog self ^^ ": error: " ^^ msg ^^ nl) eqn:Em.
    + now apply cat_not_empty in Em.
    + right. split; [reflexivity |]. exists [], msg. now rewrite Em.
Qed.

Lemma raises_argument_error {A} a msg (Q : A -> Prop) :
  raises E Q (argument_error self a msg).
Proof.
  unfold argument_error. apply raises_error.
Qed.

Lemma Forall_trivial {A} (l : list A) : Forall (fun _ => True) l.
Proof.
  apply Forall_forall. intros x _. exact I.
Qed.

(** The value of a computation from its [spec], the exception from
    [raises]. *)
Lemma raises_of_spec {A} (P : Event -> Prop) (Q : A -> Prop) (m : M A) :
  spec P Q m -> raises E (fun _ => True) m -> raises E Q m.
Proof.
  unfold raises. intros [_ Hq]. destruct (snd m); [intros _; now apply Hq | auto].
Qed.

Local Abbreviation any := (fun _ : Event => True).
Local Abbreviation trivial_inv := (fun _ : PState => True).
Local Abbreviation state_ok :=
  (fun st : PState => True /\ incl (st_positionals st) (p_actions self)).

Lemma any_type a (f : TypeFn) (s : string) :
  In a (p_actions self) -> type_ a = Some f -> Forall any (fst (f s)).
Proof.
  intros _ _. apply Forall_trivial.
Qed.

Lemma raises_get_option_tuples s :
  raises E (fun _ => True) (get_option_tuples self s).
Proof.
  unfold get_option_tuples.
  destruct s as [| c0 [| c1 rest]]; try apply raises_error.
  destruct (Ascii.eqb c0 "-" && Ascii.eqb c1 "-").
  - now destruct (split_first "=" (String c0 (String c1 rest))) as [[a b] |].
  - destruct (Ascii.eqb c0 "-"); [exact I | apply raises_error].
Qed.

Lemma raises_parse_optional s :
  raises E (fun _ => True) (parse_optional self s).
Proof.
  unfold parse_optional. destruct s as [| c0 rest]; [exact I |].
  destruct (negb (Ascii.eqb c0 "-")); [exact I |].
  destruct (lookup (String c0 rest) (option_string_actions self)); [exact I |].
  destruct rest as [| c1 rest']; [exact I |].
  assert (H : raises E (fun _ => True)
                (option_tuples <- get_option_tuples self (String c0 (String c1 rest')) ;;
                 match option_tuples with
                 | _ :: _ :: _ =>
                     error self ("ambiguous option: " ^^ String c0 (String c1 rest')
                            ^^ " could match "
                            ^^ join ", " (map (fun t : OptionTuple => snd (fst t))
                                              option_tuples))
                 | [t] => ret (Some t)
                 | [] =>
                     if negative_number_like (String c0 (String c1 rest'))
                        && negb (has_negative_number_optionals self)
                     then ret None
                     else if has_char " " (String c0 (String c1 rest')) then ret None
                     else ret (Some (None, String c0 (String c1 rest'), None))
                 end)).
  { apply raises_bind with (R := fun _ => True);
      [apply raises_get_option_tuples |].
    intros [| t [| t' l]] _.
    - destruct (_ && _); [exact I |]. now destruct (has_char _ _).
    - exact I.
    - apply raises_error. }
  destruct (split_first "=" (String c0 (String c1 rest'))) as [[os ex] |];
    [| exact H].
  destruct (lookup os (option_string_actions self)); [exact I | exact H].
Qed.

Lemma raises_classify args :
  raises E (fun _ => True) (classify self args).
Proof.
  induction args as [| a rest IH]; simpl; [exact I |].
  destruct (String.eqb a "--"); [exact I |].
  apply raises_bind with (R := fun _ => True); [apply raises_parse_optional |].
  intros r _. apply raises_bind with (R := fun _ => True); [apply IH |].
  intros items _. exact I.
Qed.

(** *** Values and actions *)

Local Abbreviation checkable :=
  (fun (a : Action) (v : PyVal) => choices a = None \/ hashable v).

Lemma raises_get_value a s :
  In a (p_actions self) -> raises E (checkable a) (get_value self a s).
Proof.
  intros Ha. unfold get_value. destruct (type_ a) as [f |] eqn:Et.
  - assert (Hc : choices a = None).
    { destruct (choices_plain a Ha) as [H | [H _]]; [exact H | congruence]. }
    apply raises_bind with (R := fun _ => True); [exact I |].
    intros _ _. destruct (snd (f s)); [now left | |];
      apply raises_argument_error.
  - right. exact I.
Qed.

Lemma raises_check_value a v :
  checkable a v -> raises E (fun _ => True) (check_value self a v).
Proof.
  intros Hv. unfold check_value. destruct (choices a) eqn:Ec; [| exact I].
  destruct Hv as [Hv | Hv]; [congruence |].
  destruct v; try apply raises_argument_error.
  - destruct (mem_str _ _); [exact I | apply raises_argument_error].
  - destruct Hv.
Qed.

Lemma raises_get_values a strs :
  In a (p_actions self) -> raises E (fun _ => True) (get_values self a strs).
Proof.
  intros Ha. unfold get_values.
  assert (Hlist : forall l,
    raises E (fun _ => True)
      (values <- map_m (get_value self a) l ;;
       for_each values (check_value self a) ;; ret (VList values))).
  { intros l. apply raises_bind with (R := Forall (checkable a)).
    - apply raises_map_m. intros x _. now apply raises_get_value.
    - intros vs Hvs. apply raises_bind with (R := fun _ => True).
      + apply raises_for_each. intros x Hx. apply raises_check_value.
        rewrite Forall_forall in Hvs. now apply Hvs.
      + intros _ _. exact I. }
  assert (Hone : forall x,
    raises E (fun _ => True)
      (value <- get_value self a x ;; check_value self a value ;; ret value)).
  { intros x. apply raises_bind with (R := checkable a).
    - now apply raises_get_value.
    - intros v Hv. apply raises_bind with (R := fun _ => True).
      + now apply raises_check_value.
      + intros _ _. exact I. }
  destruct (remove_first_dashdash strs) as [| x [| y l]];
    destruct (nargs a) eqn:En; destruct (option_strings a);
    try apply Hlist; try apply Hone.
  apply raises_bind with (R := fun _ => True).
  - apply raises_check_value.
    destruct (choices_plain a Ha) as [H | [_ H]]; [now left | congruence].
  - intros _ _. exact I.
Qed.

Lemma raises_take_action st t :
  tuple_ok (p_actions self) t ->
  raises E (fun _ => True) (take_action self st t).
Proof.
  intros Ht. unfold take_action.
  apply raises_bind with (R := fun _ => True).
  - now apply raises_get_values.
  - intros v _. destruct (kind (fst (fst t))); try exact I.
    + apply raises_bind with (R := fun _ => True).
      * now apply raises_print_message.
      * intros _ _. apply raises_exit_0.
    + apply raises_bind with (R := fun _ => True).
      * now apply raises_print_message.
      * intros _ _. apply raises_exit_0.
Qed.

Lemma raises_fold_take st tuples :
  Forall (tuple_ok (p_actions self)) tuples ->
  raises E (fun _ => True) (fold_m (take_action self) st tuples).
Proof.
  intros Ht. apply raises_fold_m; [| exact I].
  intros a x Hx _. apply raises_take_action.
  rewrite Forall_forall in Ht. now apply Ht.
Qed.

(** *** Optionals *)

Lemma raises_match_argument a pat :
  raises E (fun _ => True) (match_argument self a pat).
Proof.
  unfold match_argument. destruct (match_atoms _ _).
  - exact I.
  - apply raises_argument_error.
Qed.

Lemma raises_no_explicit a os tuples following :
  raises E (fun _ => True) (no_explicit self a os tuples following).
Proof.
  unfold no_explicit.
  apply raises_bind with (R := fun _ => True); [apply raises_match_argument |].
  intros n _. exact I.
Qed.

Lemma raises_with_explicit e :
  forall a os tuples following,
    raises E (fun _ => True) (with_explicit self e a os tuples following).
Proof.
  induction e as [| c e' IH]; intros a os tuples following; simpl.
  - apply raises_bind with (R := fun _ => True); [apply raises_match_argument |].
    intros n _. destruct (Nat.eqb n 1); [exact I | apply raises_argument_error].
  - apply raises_bind with (R := fun _ => True); [apply raises_match_argument |].
    intros n _.
    destruct (Nat.eqb n 0 && negb (second_is_dash os)).
    + destruct (lookup _ (option_string_actions self)) as [a' |];
        [| apply raises_argument_error].
      destruct e'.
      * apply raises_no_explicit.
      * apply IH.
    + destruct (Nat.eqb n 1); [exact I | apply raises_argument_error].
Qed.

Lemma raises_consume_optional s t following st :
  option_ok (p_actions self) t ->
  raises E (fun _ => True) (consume_optional self s t following st).
Proof.
  intros Ht. unfold consume_optional. unfold option_ok in Ht.
  destruct (fst (fst t)) as [a |]; [| exact I].
  apply raises_bind
    with (R := fun r => Forall (tuple_ok (p_actions self)) (fst r)).
  - destruct (snd t).
    + eapply raises_of_spec; [| apply raises_with_explicit].
      apply (spec_with_explicit self any); auto; constructor.
    + eapply raises_of_spec; [| apply raises_no_explicit].
      apply (spec_no_explicit self any); auto; constructor.
  - intros r Hr. apply raises_bind with (R := fun _ => True).
    + now apply raises_fold_take.
    + intros st' _. exact I.
Qed.

(** *** Positionals *)

Lemma raises_take_positionals pairs :
  forall items st n,
    Forall (fun p => In (fst p) (p_actions self)) pairs ->
    raises E (fun _ => True) (take_positionals self pairs items st n).
Proof.
  induction pairs as [| [a k] rest IH]; intros items st n Hp; simpl.
  - exact I.
  - inversion Hp; subst. apply raises_bind with (R := fun _ => True).
    + now apply raises_take_action.
    + intros st' _. now apply IH.
Qed.

Lemma raises_consume_positionals items st :
  incl (st_positionals st) (p_actions self) ->
  raises E (fun _ => True) (consume_positionals self items st).
Proof.
  intros Hst. unfold consume_positionals.
  apply raises_bind with (R := fun _ => True).
  - apply raises_take_positionals.
    apply Forall_forall. intros [a k] Hin. apply in_combine_l in Hin.
    now apply Hst.
  - intros r _. exact I.
Qed.

(** *** The main loop and the final checks *)

Lemma spec_state_ok_optional s t following st :
  option_ok (p_actions self) t -> state_ok st ->
  spec any (fun r => state_ok (fst r)) (consume_optional self s t following st).
Proof.
  intros Ht Hst.
  apply (spec_consume_optional self any (fun _ => I) (fun _ => I) any_type
           trivial_inv); auto.
Qed.

Lemma spec_state_ok_positionals items st :
  state_ok st ->
  spec any (fun r => state_ok (fst r)) (consume_positionals self items st).
Proof.
  intros Hst.
  apply (spec_consume_positionals self any (fun _ => I) (fun _ => I) any_type
           trivial_inv); auto.
Qed.

Lemma raises_consume_loop fuel :
  forall items st,
    Forall (item_ok (p_actions self)) items -> state_ok st ->
    raises E (fun r => state_ok (fst r)) (consume_loop self fuel items st).
Proof.
  induction fuel as [| fuel IH]; intros items st Hitems Hst; simpl.
  - exact Hst.
  - destruct (split_at_option items) as [before [[[s t] following] |]] eqn:Es;
      [| destruct before; exact Hst].
    destruct (split_at_option_ok self _ _ _ _ _ Hitems Es) as [Ht Hfol].
    destruct before as [| b before'].
    + apply raises_bind with (R := fun r => state_ok (fst r)).
      * eapply raises_of_spec; [now apply spec_state_ok_optional |].
        now apply raises_consume_optional.
      * intros r Hr. apply IH; [now apply Forall_skipn | exact Hr].
    + apply raises_bind with (R := fun r => state_ok (fst r)).
      * eapply raises_of_spec; [now apply spec_state_ok_positionals |].
        apply raises_consume_positionals. apply Hst.
      * intros r Hr. destruct (Nat.ltb 0 (snd r)).
        -- apply IH; [now apply Forall_skipn | exact Hr].
        -- apply raises_bind with (R := fun r => state_ok (fst r)).
           ++ eapply raises_of_spec.
              ** apply spec_state_ok_optional; [exact Ht |]. exact Hr.
              ** now apply raises_consume_optional.
           ++ intros r' Hr'. apply IH; [now apply Forall_skipn | exact Hr'].
Qed.

Lemma raises_finish_action acc a :
  In a (p_actions self) ->
  raises E (fun _ => True) (finish_action self acc a).
Proof.
  intros Ha. unfold finish_action.
  destruct (existsb _ _); [exact I |].
  destruct (required a); [exact I |].
  destruct (default a); try exact I.
  destruct (dest a); [| exact I].
  destruct (lookup _ _); [| exact I].
  destruct (pyval_eqb _ _); [| exact I].
  apply raises_bind with (R := fun _ => True).
  - eapply raises_weaken; [now apply raises_get_value | auto].
  - intros v _. exact I.
Qed.

Lemma raises_parse_known_args_state args :
  raises E (fun _ => True) (parse_known_args_state self args).
Proof.
  unfold parse_known_args_state.
  apply raises_bind with (R := Forall (item_ok (p_actions self))).
  { eapply raises_of_spec; [| apply raises_classify].
    apply (spec_classify self any (fun _ => I)). }
  intros items Hitems.
  apply raises_bind with (R := fun r => state_ok (fst r)).
  { apply raises_consume_loop; [exact Hitems |]. split; [exact I |].
    simpl. intros a Ha. apply filter_In in Ha. tauto. }
  intros r Hr. apply raises_bind with (R := fun _ => True).
  { apply raises_consume_positionals. apply Hr. }
  intros r' _. apply raises_bind with (R := fun _ => True).
  { apply raises_fold_m; [| exact I].
    intros acc a Ha _. now apply raises_finish_action. }
  intros fin _. destruct (snd fin); [exact I | apply raises_error].
Qed.

(** [parse_args] returns or exits: it raises nothing but [SystemExit],
    with status 0 or 2. *)
Lemma raises_parse_args args :
  raises E (fun _ => True) (Argparse.parse_args self args).
Proof.
  unfold Argparse.parse_args, parse_known_args.
  apply raises_bind with (R := fun _ => True).
  - apply raises_bind with (R := fun _ => True).
    + apply raises_parse_known_args_state.
    + intros st _. exact I.
  - intros r _. destruct (snd r); [exact I | apply raises_error].
Qed.

End Parser.

End ExitFacts.

(** ** The namespace of an accepted command line *)

Module ShapeFacts.
Import Py Argparse Hoare ArgparseFacts ValueFacts Cli ParseFacts CliFacts.

(** *** The levels *)

Lemma logging_type_level s v :
  snd (logging_type s) = TVal v -> exists n, v = VInt n /\ In n levels.
Proof.
  unfold logging_type.
  destruct (lookup s _) as [n |] eqn:E; [| discriminate].
  intros [= <-]. exists n. split; [reflexivity |].
  apply lookup_In in E. destruct E as [k Hin]. unfold levels.
  simpl in Hin.
  repeat (destruct Hin as [Hin | Hin]; [injection Hin as _ <-; simpl; tauto |]).
  destruct Hin.
Qed.

Lemma get_values_level self a strs v :
  type_ a = Some logging_type -> choices a = None -> nargs a = NargsNone ->
  snd (get_values self a strs) = Ok v -> level_ok v.
Proof.
  intros Ht Hc Hn. unfold get_values. rewrite Hn.
  assert (Hk : forall x, check_value self a x = ret tt).
  { intros x. unfold check_value. now rewrite Hc. }
  assert (Hl : forall l,
    snd (values <- map_m (get_value self a) l ;;
         for_each values (check_value self a) ;; ret (VList values)) = Ok v ->
    level_ok v).
  { intros l H.
    destruct (values <- map_m (get_value self a) l ;;
         for_each values (check_value self a) ;; ret (VList values))
      as [t r] eqn:E. simpl in H. subst r.
    apply bind_inv_ok in E. destruct E as [t1 [vs [t2 [_ [E _]]]]].
    apply bind_inv_ok in E. destruct E as [t3 [u [t4 [_ [E _]]]]].
    inversion E. right. eauto. }
  destruct (remove_first_dashdash strs) as [| x [| y l]].
  - apply (Hl []).
  - intros H.
    destruct (value <- get_value self a x ;; check_value self a value ;; ret value)
      as [t r] eqn:E. simpl in H. subst r.
    apply bind_inv_ok in E. destruct E as [t1 [v1 [t2 [E1 [E _]]]]].
    rewrite Hk, bind_ret_l in E. inversion E; subst v1.
    unfold get_value in E1. rewrite Ht in E1.
    apply bind_inv_ok in E1. destruct E1 as [t3 [u [t4 [_ [E1 _]]]]].
    left. apply (logging_type_level x).
    destruct (snd (logging_type x)) as [v' | msg |].
    + now inversion E1.
    + exfalso. unfold argument_error in E1.
      match type of E1 with
      | context [@error ?p ?A ?m] =>
          destruct (@error_raises A p m) as [t' [e' E']]; rewrite E' in E1
      end.
      discriminate.
    + exfalso. unfold argument_error in E1.
      match type of E1 with
      | context [@error ?p ?A ?m] =>
          destruct (@error_raises A p m) as [t' [e' E']]; rewrite E' in E1
      end.
      discriminate.
  - apply (Hl (x :: y :: l)).
Qed.

(** *** The actions by their destination, again *)

Lemma action_logging w a :
  In a (p_actions (p w)) -> dest a = Some "logging" ->
  kind a = Store /\ type_ a = Some logging_type /\ choices a = None
  /\ nargs a = NargsNone.
Proof.
  intros Ha. each_action Ha; simpl; intros H; try discriminate H; auto.
Qed.

Lemma action_flag w a k :
  In a (p_actions (p w)) -> In k flag_names -> dest a = Some k ->
  kind a = StoreTrue.
Proof.
  intros Ha Hk. each_action Ha; simpl; intros H; try discriminate H;
    try reflexivity; exfalso; injection H as <-; simpl in Hk;
    intuition discriminate.
Qed.

Lemma action_default_plain w a s :
  In a (p_actions (p w)) -> default a = VStr s -> type_ a = None.
Proof.
  intros Ha. each_action Ha; simpl; intros H; try discriminate H; reflexivity.
Qed.

Lemma action_default_initial w a d :
  In a (p_actions (p w)) -> dest a = Some d ->
  lookup d (initial_namespace (p w)) = Some (default a).
Proof.
  intros Ha. remember (initial_namespace (p w)) as ns eqn:Ens.
  each_action Ha; simpl; intros H; try discriminate H;
    injection H as <-; subst ns; vm_compute; reflexivity.
Qed.

Lemma pyval_eqb_str v s : pyval_eqb v (VStr s) = true -> v = VStr s.
Proof.
  destruct v; simpl; try discriminate. intros H.
  apply String.eqb_eq in H. now subst.
Qed.

(** The final loop over the actions of kbdgen's parser changes no
    attribute: a string default without [type=] is stored again as it
    is. *)
Lemma finish_action_lookup w acc a tr acc' :
  In a (p_actions (p w)) ->
  finish_action (p w) acc a = (tr, Ok acc') ->
  st_seen (fst acc') = st_seen (fst acc)
  /\ st_calls (fst acc') = st_calls (fst acc)
  /\ forall k, lookup k (st_namespace (fst acc'))
               = lookup k (st_namespace (fst acc)).
Proof.
  intros Ha. unfold finish_action.
  assert (Hsame : forall t, (t, Ok acc) = (tr, Ok acc') ->
    st_seen (fst acc') = st_seen (fst acc)
    /\ st_calls (fst acc') = st_calls (fst acc)
    /\ forall k, lookup k (st_namespace (fst acc'))
                 = lookup k (st_namespace (fst acc))).
  { intros t [= _ <-]. auto. }
  destruct (existsb _ _); [apply Hsame |].
  destruct (required a).
  { intros [= _ <-]. simpl. auto. }
  destruct (default a) eqn:Ed; try apply Hsame.
  destruct (dest a) as [d |]; [| apply Hsame].
  destruct (lookup d (st_namespace (fst acc))) as [v |] eqn:El; [| apply Hsame].
  destruct (pyval_eqb v (VStr s)) eqn:Ev; [| apply Hsame].
  apply pyval_eqb_str in Ev. subst v.
  unfold get_value. rewrite (action_default_plain w a s Ha Ed), bind_ret_l.
  intros [= _ <-]. cbn [fst st_seen st_calls st_namespace with_namespace].
  split; [reflexivity |]. split; [reflexivity |].
  intros k. rewrite lookup_setattr. destruct (String.eqb d k) eqn:E; [| reflexivity].
  apply String.eqb_eq in E. now subst k.
Qed.

(** *** The shape of the namespace, all along [parse_args] *)

Lemma shape_init w : shape w (start (p w)).
Proof.
  unfold shape, start. cbn [st_namespace]. split; [| split].
  - split.
    + exists (VInt 20). split; [vm_compute; reflexivity |].
      left. exists 20%Z. split; [reflexivity |]. simpl. tauto.
    + intros k Hk. simpl in Hk. exists false.
      repeat (destruct Hk as [<- | Hk]; [vm_compute; reflexivity |]).
      destruct Hk.
  - intros a d Ha Hd _. cbn [st_namespace]. now apply action_default_initial.
  - reflexivity.
Qed.

Lemma shape_take w st t tr st' :
  tuple_ok (p_actions (p w)) t -> shape w st ->
  take_action (p w) st t = (tr, Ok st') -> shape w st'.
Proof.
  intros Ht [[[lv [Hlv Hlevel]] Hflags] [Hun Hseen]] H.
  apply take_action_ok in H. destruct H as [v [Hv [Hk ->]]].
  destruct t as [[a strs] os]. unfold tuple_ok in Ht.
  cbn [fst snd] in Ht, Hv, Hk |- *.
  destruct (action_stores w a Ht Hk) as [d Hd]. rewrite Hd.
  unfold shape, with_namespace, mark_seen.
  cbn [st_namespace st_seen st_calls fst snd].
  split; [split |split].
  - rewrite lookup_setattr. destruct (String.eqb d "logging") eqn:E.
    + apply String.eqb_eq in E. subst d.
      destruct (action_logging w a Ht Hd) as [Hkind [Hty [Hch Hn]]].
      rewrite Hkind. eexists. split; [reflexivity |].
      now apply (get_values_level (p w) a strs v).
    + eauto.
  - intros k Hin. rewrite lookup_setattr.
    destruct (String.eqb d k) eqn:E; [| now apply Hflags].
    apply String.eqb_eq in E. subst d.
    rewrite (action_flag w a k Ht Hin Hd). eauto.
  - intros a0 d0 Ha0 Hd0 Hcalls. cbn [st_namespace st_calls] in *.
    rewrite lookup_setattr.
    destruct (String.eqb d d0) eqn:E.
    + apply String.eqb_eq in E. subst d0. exfalso.
      apply (Hcalls (a, strs, os)); [apply in_or_app; right; now left |].
      exact Hd.
    + apply Hun; [exact Ha0 | exact Hd0 |].
      intros c Hc. apply Hcalls. apply in_or_app. now left.
  - unfold seen_calls in *. cbn [st_seen st_calls].
    rewrite map_app, rev_app_distr, Hseen. reflexivity.
Qed.

Lemma shape_finish w acc a tr acc' :
  In a (p_actions (p w)) -> shape w (fst acc) ->
  finish_action (p w) acc a = (tr, Ok acc') -> shape w (fst acc').
Proof.
  intros Ha [[[lv [Hlv Hlevel]] Hflags] [Hun Hseen]] H.
  apply (finish_action_lookup w) in H; [| exact Ha].
  destruct H as [Hs [Hc Hl]]. unfold shape, typed, untouched, seen_calls.
  rewrite Hs, Hc. split; [split | split].
  - rewrite Hl. eauto.
  - intros k Hk. rewrite Hl. now apply Hflags.
  - intros a0 d0 Ha0 Hd0 Hcalls. rewrite Hl. now apply Hun.
  - exact Hseen.
Qed.

Lemma parse_state_shape w args t st :
  parse_known_args_state (p w) args = (t, Ok st) -> shape w st.
Proof.
  apply (spec_value parse_event).
  apply (spec_parse_known_args_state (p w) parse_event).
  - intros s; exact I.
  - intros s; exact I.
  - apply parser_type_events.
  - intros st0 l H. exact H.
  - intros st0 l H. exact H.
  - apply shape_take.
  - apply shape_finish.
  - apply shape_init.
Qed.

(** *** The last take of an option *)

Lemma last_take_init w : last_take (start (p w)).
Proof.
  intros before a strs os after d v H. cbn [start st_calls] in H.
  now destruct before.
Qed.

Lemma split_snoc {A} (calls before after : list A) t c :
  calls ++ [t] = before ++ c :: after ->
  (after = [] /\ before = calls /\ c = t)
  \/ exists after', after = after' ++ [t] /\ calls = before ++ c :: after'.
Proof.
  intros H. destruct after as [| y rest].
  - left. apply app_inj_tail in H. destruct H as [-> ->]. auto.
  - right. destruct (exists_last (l := y :: rest)) as [after' [x E]];
      [discriminate |].
    rewrite E in *. exists after'.
    rewrite app_comm_cons, app_assoc in H. apply app_inj_tail in H.
    destruct H as [-> ->]. auto.
Qed.

Lemma last_take_take w st t tr st' :
  tuple_ok (p_actions (p w)) t -> last_take st ->
  take_action (p w) st t = (tr, Ok st') -> last_take st'.
Proof.
  intros Ht Hlast H.
  apply take_action_ok in H. destruct H as [v0 [Hv [Hk ->]]].
  destruct t as [[a0 strs0] os0]. unfold tuple_ok in Ht.
  cbn [fst snd] in Ht, Hv, Hk |- *.
  destruct (action_stores w a0 Ht Hk) as [d0 Hd0]. rewrite Hd0.
  intros before a strs os after d v Hsplit Hd Hafter Hstored.
  cbn [with_namespace mark_seen st_namespace st_calls fst snd] in *.
  rewrite lookup_setattr.
  apply split_snoc in Hsplit.
  destruct Hsplit as [[-> [-> [= <- <- <-]]] | [after' [-> Hcalls]]].
  - assert (d0 = d) by congruence. subst d0. rewrite String.eqb_refl.
    f_equal. unfold stored_value in Hstored.
    destruct (kind a); try discriminate Hstored.
    + destruct (type_ a) eqn:Et; [discriminate Hstored |].
      destruct (choices a) eqn:Ec; [discriminate Hstored |].
      rewrite (get_values_plain _ _ _ Et Ec) in Hv. cbn [snd ret] in Hv.
      congruence.
    + congruence.
  - destruct (String.eqb d0 d) eqn:E.
    + apply String.eqb_eq in E. subst d0. exfalso.
      apply (Hafter (a0, strs0, os0)); [apply in_or_app; right; now left |].
      exact Hd0.
    + apply (Hlast before a strs os after' d v Hcalls Hd); [| exact Hstored].
      intros c Hc. apply Hafter. apply in_or_app. now left.
Qed.

Lemma last_take_finish w acc a tr acc' :
  In a (p_actions (p w)) -> last_take (fst acc) ->
  finish_action (p w) acc a = (tr, Ok acc') -> last_take (fst acc').
Proof.
  intros Ha Hlast H. apply (finish_action_lookup w) in H; [| exact Ha].
  destruct H as [_ [Hc Hl]]. unfold last_take. rewrite Hc.
  intros before a0 strs os after d v Hsplit Hd Hafter Hstored.
  rewrite Hl. eapply Hlast; eauto.
Qed.

Lemma parse_state_last_take w args t st :
  parse_known_args_state (p w) args = (t, Ok st) -> last_take st.
Proof.
  apply (spec_value parse_event).
  apply (spec_parse_known_args_state (p w) parse_event).
  - intros s; exact I.
  - intros s; exact I.
  - apply parser_type_events.
  - intros st0 l H. exact H.
  - intros st0 l H. exact H.
  - apply last_take_take.
  - apply last_take_finish.
  - apply last_take_init.
Qed.

End ShapeFacts.

(** ** Further properties of the command line front end *)

Module Extras.
Import Py Argparse Hoare ArgparseFacts ValueFacts Cli ParseFacts CliFacts.
Import Claims ExitFacts ShapeFacts.

(** *** The stages of [run_cli] when a collaborator fails *)

(** What the events before the project parser is called count for. *)
Lemma counts_after_prefix w cli_args t args level tail :
  parse_args w cli_args = (t, Ok args) ->
  count_construct (t ++ diagnostics w ++ http_events level ++ tail)
  = count_construct tail
  /\ count_generate (t ++ diagnostics w ++ http_events level ++ tail)
     = count_generate tail.
Proof.
  intros H. rewrite prefix_assoc, count_construct_app, count_generate_app.
  now destruct (count_quiet _ (quiet_prefix _ _ _ _ level H)) as [-> ->].
Qed.

(** A run in which the [try] statement around the project parser lets
    an exception through. *)
Lemma run_cli_load_raises w cli_args t args level tl e :
  parse_args w cli_args = (t, Ok args) ->
  lookup "logging" args = Some level ->
  load_project w args = (tl, Raise e) ->
  run_cli w cli_args = (t ++ diagnostics w ++ http_events level ++ tl, Raise e).
Proof.
  intros Hparse Hl Hload.
  rewrite (run_cli_accepted _ _ _ _ Hparse), (run_cli_from_eq _ _ _ Hl), Hload.
  rewrite (bind_ok (_, Ok tt) _ _ _ eq_refl).
  rewrite (bind_raise (_, Raise e) _ _ _ eq_refl).
  cbn [fst snd]. now rewrite <- app_assoc.
Qed.

Lemma quiet_critical w (l : list PyVal) :
  Forall quiet
    (map (fun arg => ELog CRITICAL (LMsg (py_str (repr_str w) arg))) l).
Proof.
  apply Forall_forall. intros ev Hev. apply in_map_iff in Hev.
  destruct Hev as [x [<- _]]. exact I.
Qed.

(** X1.  When the project parser raises an exception of class
    [Exception] that is not a YAML scanner error, [run_cli] logs
    [str(arg)] at critical severity for each of its [args], in order;
    then, unless the exception is a [UserException], the three lines that
    ask for a bug report; and it returns 1.  No generator is looked up or
    constructed. *)
Theorem loader_exception_is_reported w cli_args t args path cfg e :
  parse_args w cli_args = (t, Ok args) ->
  lookup "project" args = Some path ->
  lookup "cfg_pairs" args = Some cfg ->
  Parser_parse w path cfg = Raise e ->
  is_ScannerError e = false ->
  is_Exception e = true ->
  exists level,
    lookup "logging" args = Some level
    /\ run_cli w cli_args
       = (t ++ diagnostics w ++ http_events level
            ++ EParse path cfg
               :: map (fun arg => ELog CRITICAL (LMsg (py_str (repr_str w) arg)))
                      (exc_args e)
               ++ (if is_UserException e then [] else bug_report),
          Ok (VInt 1))
    /\ count_construct (fst (run_cli w cli_args)) = 0
    /\ count_generate (fst (run_cli w cli_args)) = 0.
Proof.
  intros Hparse Hpath Hcfg Hload Hscan Hexc.
  destruct (parsed_attrs _ _ _ _ Hparse) as [level [p' [c' [tg [Hl _]]]]].
  exists level. split; [exact Hl |].
  rewrite (run_cli_not_loaded _ _ _ _ _ _ _ Hparse Hl
             (load_exception w args path cfg Hpath Hcfg e Hload Hscan Hexc)).
  split; [reflexivity |]. cbn [fst].
  destruct (counts_after_prefix w cli_args t args level
              (EParse path cfg
                 :: map (fun arg => ELog CRITICAL (LMsg (py_str (repr_str w) arg)))
                        (exc_args e)
                 ++ (if is_UserException e then [] else bug_report)) Hparse)
    as [-> ->].
  apply count_quiet. constructor; [exact I |]. apply Forall_app. split.
  - apply quiet_critical.
  - destruct (is_UserException e); [constructor | apply quiet_bug_report].
Qed.

(** The property X1 at the command line [-t win proj.kbdgen], with a
    project parser that raises a [UserException] with two arguments. *)
Lemma loader_exception_witness :
  exists level,
    lookup "logging" Demo.parsed = Some level
    /\ run_cli (Demo.world (Raise Demo.user_exception) (Ok VNone)) Demo.cli
       = ([] ++ diagnostics (Demo.world (Raise Demo.user_exception) (Ok VNone))
            ++ http_events level
            ++ EParse (VStr "proj.kbdgen") VNone
               :: map (fun arg =>
                         ELog CRITICAL
                           (LMsg (py_str
                                    (repr_str (Demo.world
                                                 (Raise Demo.user_exception)
                                                 (Ok VNone))) arg)))
                      (exc_args Demo.user_exception)
               ++ (if is_UserException Demo.user_exception
                   then [] else bug_report),
          Ok (VInt 1))
    /\ count_construct
         (fst (run_cli (Demo.world (Raise Demo.user_exception) (Ok VNone))
                       Demo.cli)) = 0
    /\ count_generate
         (fst (run_cli (Demo.world (Raise Demo.user_exception) (Ok VNone))
                       Demo.cli)) = 0.
Proof.
  apply (loader_exception_is_reported
           (Demo.world (Raise Demo.user_exception) (Ok VNone)) Demo.cli []
           Demo.parsed (VStr "proj.kbdgen") VNone Demo.user_exception);
    vm_compute; reflexivity.
Defined.

(** A [UserException] is reported by its arguments alone; a [KeyError]
    gets the request for a bug report as well. *)
Example user_exception_run :
  run_cli (Demo.world (Raise Demo.user_exception) (Ok VNone)) Demo.cli
  = (diagnostics Demo.fine
       ++ [EParse (VStr "proj.kbdgen") VNone;
           ELog CRITICAL (LMsg "Layout file not found.");
           ELog CRITICAL (LMsg "3")],
     Ok (VInt 1))
  /\ run_cli (Demo.world (Raise Demo.key_error) (Ok VNone)) Demo.cli
     = (diagnostics Demo.fine
          ++ [EParse (VStr "proj.kbdgen") VNone;
              ELog CRITICAL (LMsg "layouts")]
          ++ bug_report,
        Ok (VInt 1)).
Proof.
  split; vm_compute; reflexivity.
Qed.

(** X2.  An exception of the project parser that is not of class
    [Exception] (a [KeyboardInterrupt], a [SystemExit]) is not caught:
    it leaves [run_cli] right after the call, nothing is logged for it
    and no generator is constructed. *)
Theorem loader_interrupt_propagates w cli_args t args path cfg e :
  parse_args w cli_args = (t, Ok args) ->
  lookup "project" args = Some path ->
  lookup "cfg_pairs" args = Some cfg ->
  Parser_parse w path cfg = Raise e ->
  is_ScannerError e = false ->
  is_Exception e = false ->
  exists level,
    lookup "logging" args = Some level
    /\ run_cli w cli_args
       = (t ++ diagnostics w ++ http_events level ++ [EParse path cfg],
          Raise e)
    /\ count_construct (fst (run_cli w cli_args)) = 0.
Proof.
  intros Hparse Hpath Hcfg Hload Hscan Hexc.
  destruct (parsed_attrs _ _ _ _ Hparse) as [level [p' [c' [tg [Hl _]]]]].
  exists level. split; [exact Hl |].
  rewrite (run_cli_load_raises _ _ _ _ _ _ _ Hparse Hl
             (load_propagates w args path cfg Hpath Hcfg e Hload Hscan Hexc)).
  split; [reflexivity |]. cbn [fst].
  now destruct (counts_after_prefix w cli_args t args level
                  [EParse path cfg] Hparse) as [-> _].
Qed.

(** The property X2 at the command line [-t win proj.kbdgen], with a
    project parser that is interrupted. *)
Lemma loader_interrupt_witness :
  exists level,
    lookup "logging" Demo.parsed = Some level
    /\ run_cli (Demo.world (Raise Demo.keyboard_interrupt) (Ok VNone)) Demo.cli
       = ([] ++ diagnostics (Demo.world (Raise Demo.keyboard_interrupt)
                                        (Ok VNone))
            ++ http_events level ++ [EParse (VStr "proj.kbdgen") VNone],
          Raise Demo.keyboard_interrupt)
    /\ count_construct
         (fst (run_cli (Demo.world (Raise Demo.keyboard_interrupt) (Ok VNone))
                       Demo.cli)) = 0.
Proof.
  apply (loader_interrupt_propagates
           (Demo.world (Raise Demo.keyboard_interrupt) (Ok VNone)) Demo.cli []
           Demo.parsed (VStr "proj.kbdgen") VNone Demo.keyboard_interrupt);
    vm_compute; reflexivity.
Defined.

(** X3.  An exception raised while the generator instance is
    constructed is not caught, whatever its class, a [KbdgenException]
    included: it leaves [run_cli] after the project is loaded, and
    [generate] is never called. *)
Theorem constructor_failure_propagates
  w cli_args t args path cfg s cls project e :
  parse_args w cli_args = (t, Ok args) ->
  lookup "project" args = Some path ->
  lookup "cfg_pairs" args = Some cfg ->
  lookup "target" args = Some (VStr s) ->
  lookup s (gen w) = Some cls ->
  Parser_parse w path cfg = Ok project ->
  is_None project = false ->
  construct w cls project args = Raise e ->
  exists level,
    lookup "logging" args = Some level
    /\ run_cli w cli_args
       = (t ++ diagnostics w ++ http_events level
            ++ [EParse path cfg; EConstruct cls project args],
          Raise e)
    /\ count_generate (fst (run_cli w cli_args)) = 0.
Proof.
  intros Hparse Hpath Hcfg Htarget Hcls Hload Hnone Hcons.
  destruct (parsed_attrs _ _ _ _ Hparse) as [level [p' [c' [tg [Hl _]]]]].
  exists level. split; [exact Hl |].
  rewrite (run_cli_loaded _ _ _ _ _ _ _ Hparse Hl
             (load_ok w args path cfg Hpath Hcfg project Hload Hnone)).
  rewrite (dispatch_construct_raises w args project s cls Htarget Hcls e Hcons).
  cbn [fst snd app]. split; [reflexivity |].
  now destruct (counts_after_prefix w cli_args t args level
                  [EParse path cfg; EConstruct cls project args] Hparse)
    as [_ ->].
Qed.

(** The property X3 at the command line [-t win proj.kbdgen], with a
    generator class whose constructor raises a [KbdgenException]. *)
Lemma constructor_failure_witness :
  exists level,
    lookup "logging" Demo.parsed = Some level
    /\ run_cli (Demo.failing_constructor Demo.kbdgen_exception) Demo.cli
       = ([] ++ diagnostics (Demo.failing_constructor Demo.kbdgen_exception)
            ++ http_events level
            ++ [EParse (VStr "proj.kbdgen") VNone;
                EConstruct (Class "WindowsGenerator") Demo.project Demo.parsed],
          Raise Demo.kbdgen_exception)
    /\ count_generate
         (fst (run_cli (Demo.failing_constructor Demo.kbdgen_exception)
                       Demo.cli)) = 0.
Proof.
  apply (constructor_failure_propagates
           (Demo.failing_constructor Demo.kbdgen_exception) Demo.cli []
           Demo.parsed (VStr "proj.kbdgen") VNone "win"
           (Class "WindowsGenerator") Demo.project Demo.kbdgen_exception);
    vm_compute; reflexivity.
Defined.

(** X4.  The argument parser accepts a target that is a list (a lone
    [--] attached to [-t] leaves the empty list, which the check of the
    choices never sees).  With such a target [run_cli] loads the project
    first and then fails in the lookup of the registry, with the
    [TypeError] of an unhashable key, which it does not catch; no
    generator is constructed. *)
Theorem list_target_is_type_error w cli_args t args path cfg l project :
  parse_args w cli_args = (t, Ok args) ->
  lookup "project" args = Some path ->
  lookup "cfg_pairs" args = Some cfg ->
  lookup "target" args = Some (VList l) ->
  Parser_parse w path cfg = Ok project ->
  is_None project = false ->
  exists level,
    lookup "logging" args = Some level
    /\ run_cli w cli_args
       = (t ++ diagnostics w ++ http_events level ++ [EParse path cfg],
          Raise (TypeError_ "unhashable type: 'list'"))
    /\ count_construct (fst (run_cli w cli_args)) = 0.
Proof.
  intros Hparse Hpath Hcfg Htarget Hload Hnone.
  destruct (parsed_attrs _ _ _ _ Hparse) as [level [p' [c' [tg [Hl _]]]]].
  exists level. split; [exact Hl |].
  rewrite (run_cli_loaded _ _ _ _ _ _ _ Hparse Hl
             (load_ok w args path cfg Hpath Hcfg project Hload Hnone)).
  rewrite (dispatch_unhashable w args project l Htarget).
  cbn [fst snd]. rewrite app_nil_r. split; [reflexivity |].
  now destruct (counts_after_prefix w cli_args t args level
                  [EParse path cfg] Hparse) as [-> _].
Qed.

(** The property X4 at the command line [-t-- proj.kbdgen], which the
    argument parser accepts with the target [[]]. *)
Lemma list_target_witness :
  exists level,
    lookup "logging" Demo.parsed_dashes = Some level
    /\ run_cli Demo.fine Demo.cli_dashes
       = ([] ++ diagnostics Demo.fine ++ http_events level
            ++ [EParse (VStr "proj.kbdgen") VNone],
          Raise (TypeError_ "unhashable type: 'list'"))
    /\ count_construct (fst (run_cli Demo.fine Demo.cli_dashes)) = 0.
Proof.
  apply (list_target_is_type_error Demo.fine Demo.cli_dashes []
           Demo.parsed_dashes (VStr "proj.kbdgen") VNone [] Demo.project);
    vm_compute; reflexivity.
Defined.

(** *** What [run_cli] returns *)

(** X5.  When [run_cli] returns, it returns 1 or [None], nothing else.
    It returns 1 only when no generator was constructed and [generate]
    was not called.  It returns [None] only
    after it constructed one generator; then it called [generate] once,
    whether [generate] worked or raised a [KbdgenException], unless
    reading the [output_dir] of the instance raised a [KbdgenException],
    which is logged like one of [generate] and leaves [generate]
    uncalled. *)
Theorem run_cli_returns_one_or_none w cli_args t v :
  run_cli w cli_args = (t, Ok v) ->
  (v = VInt 1 /\ count_construct t = 0 /\ count_generate t = 0)
  \/ (v = VNone /\ count_construct t = 1
      /\ (count_generate t = 1
          \/ (count_generate t = 0
              /\ exists cls project options x e,
                   In (EConstruct cls project options) t
                   /\ construct w cls project options = Ok x
                   /\ output_dir w x = Raise e
                   /\ is_KbdgenException e = true
                   /\ In (ELog ERROR (LExc e)) t))).
Proof.
  intros Hrun.
  destruct (parse_args w cli_args) as [tp [args | e]] eqn:Hparse;
    [| rewrite (run_cli_rejected _ _ _ _ Hparse) in Hrun; discriminate].
  destruct (parsed_attrs _ _ _ _ Hparse)
    as [level [path [cfg [target [Hl [Hpath [Hcfg [Htarget Hok]]]]]]]].
  assert (Hfail : forall tl,
    Forall quiet tl ->
    run_cli w cli_args
    = (tp ++ diagnostics w ++ http_events level ++ tl, Ok (VInt 1)) ->
    v = VInt 1 /\ count_construct t = 0 /\ count_generate t = 0).
  { intros tl Hq E. rewrite E in Hrun. apply pair_equal_spec in Hrun.
    destruct Hrun as [<- [= <-]]. split; [reflexivity |].
    destruct (counts_after_prefix w cli_args tp args level tl Hparse)
      as [-> ->].
    now apply count_quiet. }
  destruct (Parser_parse w path cfg) as [project | e] eqn:Hload.
  - destruct (is_None project) eqn:Hnone.
    + left. eapply Hfail;
        [| apply (run_cli_not_loaded _ _ _ _ _ _ _ Hparse Hl
                    (load_empty w args path cfg Hpath Hcfg project Hload Hnone))].
      repeat constructor.
    + rewrite (run_cli_loaded _ _ _ _ _ _ _ Hparse Hl
                 (load_ok w args path cfg Hpath Hcfg project Hload Hnone))
        in Hrun.
      destruct Hok as [[s [-> Hs]] | [l ->]].
      * apply mem_str_lookup in Hs. destruct Hs as [cls Hcls].
        destruct (construct w cls project args) as [x | e] eqn:Hcons.
        -- right.
           destruct (output_dir w x) as [dir | e] eqn:Hdir.
           ++ assert (Hdone : forall tl,
                Forall quiet tl ->
                dispatch w args project
                = ([EConstruct cls project args; EGenerate x dir] ++ tl,
                   Ok VNone) ->
                v = VNone /\ count_construct t = 1 /\ count_generate t = 1).
              { intros tl Hq E. rewrite E in Hrun. cbn [fst snd] in Hrun.
                apply pair_equal_spec in Hrun.
                destruct Hrun as [<- [= <-]]. split; [reflexivity |].
                destruct (counts_after_prefix w cli_args tp args level
                            ([EParse path cfg]
                               ++ [EConstruct cls project args;
                                   EGenerate x dir] ++ tl) Hparse)
                  as [-> ->].
                cbn [app count_construct count_generate].
                now destruct (count_quiet _ Hq) as [-> ->]. }
              assert (Hone : v = VNone /\ count_construct t = 1
                             /\ count_generate t = 1).
              { destruct (generate w x dir) as [r | e] eqn:Hgen.
                - apply (Hdone []); [constructor |].
                  apply (dispatch_generated w args project s cls Htarget Hcls
                           x dir r Hcons Hdir Hgen).
                - destruct (is_KbdgenException e) eqn:He.
                  + apply (Hdone [ELog ERROR (LExc e)]);
                      [repeat constructor |].
                    apply (dispatch_kbdgen_exception w args project s cls
                             Htarget Hcls x dir e Hcons Hdir Hgen He).
                  + rewrite (dispatch_other_exception w args project s cls
                               Htarget Hcls x dir e Hcons Hdir Hgen He)
                      in Hrun.
                    discriminate. }
              destruct Hone as [Hv [Hc Hg]]. auto.
           ++ rewrite (dispatch_output_dir_raises w args project s cls
                         Htarget Hcls x e Hcons Hdir) in Hrun.
              destruct (is_KbdgenException e) eqn:He; [| discriminate].
              cbn [fst snd] in Hrun. apply pair_equal_spec in Hrun.
              destruct Hrun as [<- [= <-]]. split; [reflexivity |].
              destruct (counts_after_prefix w cli_args tp args level
                          ([EParse path cfg]
                             ++ [EConstruct cls project args;
                                 ELog ERROR (LExc e)]) Hparse)
                as [-> ->].
              split; [reflexivity |]. right. split; [reflexivity |].
              exists cls, project, args, x, e.
              split; [| split; [exact Hcons | split; [exact Hdir |
                        split; [exact He |]]]];
                rewrite !app_assoc; apply in_or_app; right; simpl; tauto.
        -- rewrite (dispatch_construct_raises w args project s cls
                      Htarget Hcls e Hcons) in Hrun.
           discriminate.
      * rewrite (dispatch_unhashable w args project l Htarget) in Hrun.
        discriminate.
  - destruct (is_ScannerError e) eqn:Hscan.
    + left. eapply Hfail;
        [| apply (run_cli_not_loaded _ _ _ _ _ _ _ Hparse Hl
                    (load_scanner_error w args path cfg Hpath Hcfg e
                       Hload Hscan))].
      repeat constructor.
    + destruct (is_Exception e) eqn:Hexc.
      * left. eapply Hfail;
          [| apply (run_cli_not_loaded _ _ _ _ _ _ _ Hparse Hl
                      (load_exception w args path cfg Hpath Hcfg e
                         Hload Hscan Hexc))].
        constructor; [exact I |]. apply Forall_app. split.
        -- apply quiet_critical.
        -- destruct (is_UserException e); [constructor | apply quiet_bug_report].
      * rewrite (run_cli_load_raises _ _ _ _ _ _ _ Hparse Hl
                   (load_propagates w args path cfg Hpath Hcfg e
                      Hload Hscan Hexc)) in Hrun.
        discriminate.
Qed.

(** The property X5 on a run in which reading [output_dir] raises a
    [KbdgenException], at [-t win proj.kbdgen]. *)
Lemma run_cli_returns_witness :
  (VNone = VInt 1
   /\ count_construct (fst (run_cli Demo.no_output_dir Demo.cli)) = 0
   /\ count_generate (fst (run_cli Demo.no_output_dir Demo.cli)) = 0)
  \/ (VNone = VNone
      /\ count_construct (fst (run_cli Demo.no_output_dir Demo.cli)) = 1
      /\ (count_generate (fst (run_cli Demo.no_output_dir Demo.cli)) = 1
          \/ (count_generate (fst (run_cli Demo.no_output_dir Demo.cli)) = 0
              /\ exists cls project options x e,
                   In (EConstruct cls project options)
                      (fst (run_cli Demo.no_output_dir Demo.cli))
                   /\ construct Demo.no_output_dir cls project options = Ok x
                   /\ output_dir Demo.no_output_dir x = Raise e
                   /\ is_KbdgenException e = true
                   /\ In (ELog ERROR (LExc e))
                         (fst (run_cli Demo.no_output_dir Demo.cli))))).
Proof.
  apply (run_cli_returns_one_or_none Demo.no_output_dir Demo.cli
           (fst (run_cli Demo.no_output_dir Demo.cli)) VNone).
  vm_compute. reflexivity.
Defined.

(** There, [generate] is not called and [run_cli] returns [None]. *)
Example output_dir_raises :
  run_cli Demo.no_output_dir Demo.cli
  = (diagnostics Demo.fine
       ++ [EParse (VStr "proj.kbdgen") VNone;
           EConstruct (Class "WindowsGenerator") Demo.project Demo.parsed;
           ELog ERROR (LExc Demo.kbdgen_exception)],
     Ok VNone).
Proof.
  vm_compute. reflexivity.
Qed.

(** *** The diagnostic dump *)

(** X6.  [print_diagnostics] always returns.  It logs three records and
    then one per environment variable, in the order of [os.environ], all
    of them at debug level; it prints nothing and logs nothing at another
    level. *)
Theorem print_diagnostics_records w :
  snd (print_diagnostics w) = Ok tt
  /\ List.length (fst (print_diagnostics w))
     = 3 + List.length (os_environ w)
  /\ Forall (fun ev => exists msg, ev = ELog DEBUG (LMsg msg))
            (fst (print_diagnostics w))
  /\ skipn 3 (fst (print_diagnostics w))
     = map (fun kv => ELog DEBUG (LMsg ("  " ^^ fst kv ^^ " = "
                                         ^^ repr_str w (snd kv))))
           (os_environ w).
Proof.
  rewrite print_diagnostics_eq. unfold diagnostics. cbn [fst snd].
  split; [reflexivity |]. split.
  - rewrite length_app, length_map. reflexivity.
  - split; [| reflexivity].
    apply Forall_app. split; [repeat constructor; eauto |].
    apply Forall_forall. intros ev Hev. apply in_map_iff in Hev.
    destruct Hev as [kv [<- _]]. eauto.
Qed.

(** *** The command lines that are refused *)

Lemma parser_choices_plain w a :
  In a (p_actions (p w)) ->
  choices a = None \/ (type_ a = None /\ nargs a = NargsNone).
Proof.
  intros Ha. each_action Ha; simpl; auto.
Qed.

(** X7.  When [parse_args] does not return, it raises [SystemExit] and
    nothing else, and [run_cli] ends with it.  The status is 0 or 2; with
    status 2 the last thing written is the line [kbdgen: error: ...] of
    [parser.error] on the standard error.  Whatever the argument parser
    refuses (an invalid [--logging] level, a target that is not a key of
    the registry, a missing target or project) ends this way: never with
    another exception, and [run_cli] does not return 1. *)
Theorem refused_command_line_exits w cli_args t e :
  parse_args w cli_args = (t, Raise e) ->
  run_cli w cli_args = (t, Raise e)
  /\ (e = SystemExit_ 0
      \/ (e = SystemExit_ 2
          /\ exists before message,
               t = before ++ [EStderr ("kbdgen: error: " ^^ message ^^ nl)])).
Proof.
  intros H. split; [now apply run_cli_rejected |].
  pose proof (raises_parse_args (p w) (parser_choices_plain w) cli_args) as Hr.
  unfold raises in Hr. unfold parse_args in H. rewrite H in Hr. exact Hr.
Qed.

(** The property X7 at the command line [--logging loud -t win
    proj.kbdgen]. *)
Lemma refused_command_line_witness :
  run_cli Demo.fine ["--logging"; "loud"; "-t"; "win"; "proj.kbdgen"]
  = ([EStderr ("usage: kbdgen [-h] -t {win,mac,android} project" ^^ nl);
      EStderr ("kbdgen: error: argument --logging: Invalid logging level."
               ^^ nl)],
     Raise (SystemExit_ 2))
  /\ (SystemExit_ 2 = SystemExit_ 0
      \/ (SystemExit_ 2 = SystemExit_ 2
          /\ exists before message,
               [EStderr ("usage: kbdgen [-h] -t {win,mac,android} project"
                         ^^ nl);
                EStderr ("kbdgen: error: argument --logging: "
                         ^^ "Invalid logging level." ^^ nl)]
               = before ++ [EStderr ("kbdgen: error: " ^^ message ^^ nl)])).
Proof.
  apply (refused_command_line_exits Demo.fine
           ["--logging"; "loud"; "-t"; "win"; "proj.kbdgen"]).
  vm_compute. reflexivity.
Defined.

(** [--version] and [--help] leave with status 0, a command line without
    target and project with status 2. *)
Example exit_statuses :
  snd (parse_args Demo.fine ["--version"; "-t"]) = Raise (SystemExit_ 0)
  /\ snd (parse_args Demo.fine ["-h"]) = Raise (SystemExit_ 0)
  /\ snd (parse_args Demo.fine []) = Raise (SystemExit_ 2).
Proof.
  split; [| split]; vm_compute; reflexivity.
Qed.

(** *** The namespace of an accepted command line *)

Lemma level_5 v : level_ok v -> (py_eq_int v 5 = true <-> v = VInt 5).
Proof.
  intros [[n [-> _]] | [l ->]]; simpl.
  - rewrite Z.eqb_eq. split; [now intros -> | now intros [= ->]].
  - split; discriminate.
Qed.

(** X8.  The namespace of an accepted command line has the twenty
    attributes that the [add_argument] calls name.  Its [logging] is one
    of the six levels of [logging_type] (50, 40, 30, 20, 10, 5) or, from
    a lone [--] attached to the option, a list; so the test
    [args.logging == 5] of [run_cli] holds exactly for the level of
    [trace].  Its five flags are booleans. *)
Theorem accepted_namespace_shape w cli_args t args :
  parse_args w cli_args = (t, Ok args) ->
  Forall (fun k => exists v, lookup k args = Some v) attribute_names
  /\ (exists v, lookup "logging" args = Some v /\ level_ok v
                /\ (py_eq_int v 5 = true <-> v = VInt 5))
  /\ (forall k, In k flag_names -> exists b, lookup k args = Some (VBool b)).
Proof.
  intros H. split.
  - unfold attribute_names.
    repeat (constructor;
            [apply (parsed_has _ _ _ _ _ H); vm_compute; discriminate |]).
    constructor.
  - apply parse_args_state in H. destruct H as [st [H [-> _]]].
    apply parse_state_shape in H. destruct H as [[[v [Hv Hok]] Hflags] _].
    split; [| exact Hflags].
    exists v. split; [exact Hv |]. split; [exact Hok | now apply level_5].
Qed.

(** The property X8 at the command line [-t win proj.kbdgen]. *)
Lemma accepted_namespace_witness :
  Forall (fun k => exists v, lookup k Demo.parsed = Some v) attribute_names
  /\ (exists v, lookup "logging" Demo.parsed = Some v /\ level_ok v
                /\ (py_eq_int v 5 = true <-> v = VInt 5))
  /\ (forall k, In k flag_names ->
                exists b, lookup k Demo.parsed = Some (VBool b)).
Proof.
  apply (accepted_namespace_shape Demo.fine Demo.cli []).
  vm_compute. reflexivity.
Defined.

(** X9.  An option that is not given leaves its attribute at the default
    of its [add_argument] call: whatever else is on an accepted command
    line, an attribute that no [take_action] call of the argument parser
    wrote to holds the default of its action ([output] is ["."],
    [kbd_branch] is ["main"], [logging] is 20, [flags] is [[]], the flags
    are [False], the others [None]). *)
Theorem options_not_given_keep_defaults w cli_args t args :
  parse_args w cli_args = (t, Ok args) ->
  exists st,
    parse_known_args_state (p w) cli_args = (t, Ok st)
    /\ args = st_namespace st
    /\ forall a d,
         In a (parser_actions w) -> dest a = Some d ->
         (forall c, In c (st_calls st) -> dest (fst (fst c)) <> Some d) ->
         lookup d args = Some (default a).
Proof.
  intros H. apply parse_args_state in H. destruct H as [st [H [-> _]]].
  exists st. split; [exact H |]. split; [reflexivity |].
  apply parse_state_shape in H. destruct H as [_ [Hun _]]. exact Hun.
Qed.

(** The property X9 at the command line [-t win proj.kbdgen]. *)
Lemma options_not_given_witness :
  exists st,
    parse_known_args_state (p Demo.fine) Demo.cli = ([], Ok st)
    /\ Demo.parsed = st_namespace st
    /\ forall a d,
         In a (parser_actions Demo.fine) -> dest a = Some d ->
         (forall c, In c (st_calls st) -> dest (fst (fst c)) <> Some d) ->
         lookup d Demo.parsed = Some (default a).
Proof.
  apply (options_not_given_keep_defaults Demo.fine Demo.cli []).
  vm_compute. reflexivity.
Defined.

(** The defaults at [-t win proj.kbdgen], and [-o] given twice. *)
Example defaults_of_a_short_command_line :
  lookup "output" Demo.parsed = Some (VStr ".")
  /\ lookup "kbd_branch" Demo.parsed = Some (VStr "main")
  /\ lookup "logging" Demo.parsed = Some (VInt 20)
  /\ lookup "flags" Demo.parsed = Some (VList [])
  /\ lookup "cfg_pairs" Demo.parsed = Some VNone
  /\ lookup "output"
       (Demo.namespace_of ["-o"; "a"; "-t"; "win"; "--out=b"; "proj.kbdgen"])
     = Some (VStr "b").
Proof.
  repeat split; vm_compute; reflexivity.
Qed.

(** X10.  A command line is accepted only if it gave the target and the
    project: among the [take_action] calls of an accepted command line
    there is one of the action of [-t/--target] and one of the positional
    [project]. *)
Theorem accepted_took_target_and_project w cli_args t args :
  parse_args w cli_args = (t, Ok args) ->
  exists st ct cp,
    parse_known_args_state (p w) cli_args = (t, Ok st)
    /\ In ct (st_calls st) /\ fst (fst ct) = target_action w
    /\ In cp (st_calls st) /\ dest (fst (fst cp)) = Some "project"
    /\ option_strings (fst (fst cp)) = [].
Proof.
  intros H. apply parse_args_state in H. destruct H as [st [H [_ _]]].
  pose proof (parse_state_shape _ _ _ _ H) as [_ [_ Hseen]].
  pose proof (parse_state_inv _ _ _ _ H) as [_ [_ [_ Hcalls]]].
  pose proof (parse_state_required _ _ _ _ H) as Hreq.
  assert (Hcall : forall n,
    In n (st_seen st) ->
    exists c, In c (st_calls st) /\ ident (fst (fst c)) = n
              /\ In (fst (fst c)) (p_actions (p w))).
  { intros n Hn. unfold seen_calls in Hseen. rewrite Hseen in Hn.
    apply in_rev, in_map_iff in Hn. destruct Hn as [c [Hc Hin]].
    exists c. split; [exact Hin |]. split; [exact Hc |].
    rewrite Forall_forall in Hcalls. now apply Hcalls. }
  destruct (Hcall 13) as [ct [Hct [Hit Hat]]].
  { apply (Hreq (target_action w)); [| reflexivity | discriminate].
    unfold p, parser_actions. cbn [p_actions]. do 13 right. now left. }
  destruct (Hcall 15) as [cp [Hcp [Hip Hap]]].
  { apply (Hreq (mkAction 15 [] (Some "project") NargsNone Store
                          VNone None "None" true None));
      [| reflexivity | discriminate].
    unfold p, parser_actions. cbn [p_actions]. do 15 right. now left. }
  exists st, ct, cp. split; [exact H |].
  split; [exact Hct |]. split.
  { revert Hit. generalize (fst (fst ct)) Hat. intros a Ha.
    each_action Ha; simpl; intros Hi; try discriminate Hi; reflexivity. }
  split; [exact Hcp |].
  revert Hip. generalize (fst (fst cp)) Hap. intros a Ha.
  each_action Ha; simpl; intros Hi; try discriminate Hi; split; reflexivity.
Qed.

(** The property X10 at the command line [-t win proj.kbdgen]. *)
Lemma accepted_took_witness :
  exists st ct cp,
    parse_known_args_state (p Demo.fine) Demo.cli = ([], Ok st)
    /\ In ct (st_calls st) /\ fst (fst ct) = target_action Demo.fine
    /\ In cp (st_calls st) /\ dest (fst (fst cp)) = Some "project"
    /\ option_strings (fst (fst cp)) = [].
Proof.
  apply (accepted_took_target_and_project Demo.fine Demo.cli [] Demo.parsed).
  vm_compute. reflexivity.
Defined.

(** *** What is constructed, and what is asked to generate *)

Lemma in_after_prefix w cli_args tp args level tail ev :
  parse_args w cli_args = (tp, Ok args) -> ~ quiet ev ->
  In ev (tp ++ diagnostics w ++ http_events level ++ tail) -> In ev tail.
Proof.
  intros H Hev Hin. rewrite prefix_assoc in Hin. apply in_app_or in Hin.
  destruct Hin as [Hin | Hin]; [| exact Hin].
  pose proof (quiet_prefix w cli_args tp args level H) as Hq.
  rewrite Forall_forall in Hq. now apply Hq in Hin.
Qed.

Lemma quiet_no_construct l cls project options :
  Forall quiet l -> ~ In (EConstruct cls project options) l.
Proof.
  intros Hq Hin. rewrite Forall_forall in Hq. now apply Hq in Hin.
Qed.

Lemma quiet_no_generate l x out :
  Forall quiet l -> ~ In (EGenerate x out) l.
Proof.
  intros Hq Hin. rewrite Forall_forall in Hq. now apply Hq in Hin.
Qed.

(** X11.  [run_cli] constructs nothing but the generator that the
    registry names for the parsed target, and only from a project that
    the project parser returned: whenever a run constructs an instance
    of a class with a project and options, the command line was
    accepted, the options are the whole namespace of [parse_args], the
    project is the one (not [None]) that the project parser returned for
    [args.project] and [args.cfg_pairs], and the class is the entry of
    the registry under [args.target].  And whenever a run calls
    [generate], it calls it on an instance that this constructor
    returned, with the [output_dir] of that instance. *)
Theorem dispatch_protocol w cli_args t r :
  run_cli w cli_args = (t, r) ->
  (forall cls project options,
     In (EConstruct cls project options) t ->
     exists tp path cfg s,
       parse_args w cli_args = (tp, Ok options)
       /\ lookup "project" options = Some path
       /\ lookup "cfg_pairs" options = Some cfg
       /\ Parser_parse w path cfg = Ok project
       /\ is_None project = false
       /\ lookup "target" options = Some (VStr s)
       /\ lookup s (gen w) = Some cls)
  /\ (forall x out,
        In (EGenerate x out) t ->
        output_dir w x = Ok out
        /\ exists cls project options,
             In (EConstruct cls project options) t
             /\ construct w cls project options = Ok x).
Proof.
  intros Hrun.
  destruct (parse_args w cli_args) as [tp [args | e]] eqn:Hparse.
  2:{ rewrite (run_cli_rejected _ _ _ _ Hparse) in Hrun.
      apply pair_equal_spec in Hrun. destruct Hrun as [<- _].
      pose proof (parse_args_events w cli_args) as Hev. rewrite Hparse in Hev.
      apply quiet_parse in Hev.
      split; intros; exfalso;
        [eapply quiet_no_construct | eapply quiet_no_generate]; eauto. }
  destruct (parsed_attrs _ _ _ _ Hparse)
    as [level [path [cfg [target [Hl [Hpath [Hcfg [Htarget Hok]]]]]]]].
  assert (Hnone : forall tl r',
    Forall quiet tl ->
    run_cli w cli_args
    = (tp ++ diagnostics w ++ http_events level ++ tl, r') ->
    (forall cls project options,
       In (EConstruct cls project options) t -> False)
    /\ (forall x out, In (EGenerate x out) t -> False)).
  { intros tl r' Hq E. rewrite E in Hrun. apply pair_equal_spec in Hrun.
    destruct Hrun as [<- _].
    split; intros;
      [eapply (quiet_no_construct tl) | eapply (quiet_no_generate tl)];
      eauto; eapply in_after_prefix; eauto; exact (fun H => H). }
  assert (Hq0 : forall tl r',
    Forall quiet tl ->
    run_cli w cli_args
    = (tp ++ diagnostics w ++ http_events level ++ tl, r') ->
    (forall cls project options,
       In (EConstruct cls project options) t ->
       exists tp0 path0 cfg0 s,
         (tp, Ok args) = (tp0, Ok options)
         /\ lookup "project" options = Some path0
         /\ lookup "cfg_pairs" options = Some cfg0
         /\ Parser_parse w path0 cfg0 = Ok project
         /\ is_None project = false
         /\ lookup "target" options = Some (VStr s)
         /\ lookup s (gen w) = Some cls)
    /\ (forall x out,
          In (EGenerate x out) t ->
          output_dir w x = Ok out
          /\ exists cls project options,
               In (EConstruct cls project options) t
               /\ construct w cls project options = Ok x)).
  { intros tl r' Hq E. destruct (Hnone tl r' Hq E) as [H1 H2].
    split; intros; exfalso; eauto. }
  destruct (Parser_parse w path cfg) as [project | e] eqn:Hload.
  - destruct (is_None project) eqn:Hn.
    + eapply Hq0;
        [| apply (run_cli_not_loaded _ _ _ _ _ _ _ Hparse Hl
                    (load_empty w args path cfg Hpath Hcfg project Hload Hn))].
      repeat constructor.
    + pose proof (run_cli_loaded _ _ _ _ _ _ _ Hparse Hl
                    (load_ok w args path cfg Hpath Hcfg project Hload Hn))
        as Hrun'.
      destruct Hok as [[s [-> Hs]] | [l ->]].
      * apply mem_str_lookup in Hs. destruct Hs as [cls Hcls].
        assert (Hcons : forall tl r',
          dispatch w args project
          = (EConstruct cls project args :: tl, r') ->
          (forall x out, In (EGenerate x out) tl ->
                         output_dir w x = Ok out
                         /\ construct w cls project args = Ok x) ->
          Forall (fun ev => match ev with
                            | EConstruct _ _ _ => False
                            | _ => True
                            end) tl ->
          (forall cls0 project0 options,
             In (EConstruct cls0 project0 options) t ->
             exists tp0 path0 cfg0 s0,
               (tp, Ok args) = (tp0, Ok options)
               /\ lookup "project" options = Some path0
               /\ lookup "cfg_pairs" options = Some cfg0
               /\ Parser_parse w path0 cfg0 = Ok project0
               /\ is_None project0 = false
               /\ lookup "target" options = Some (VStr s0)
               /\ lookup s0 (gen w) = Some cls0)
          /\ (forall x out,
                In (EGenerate x out) t ->
                output_dir w x = Ok out
                /\ exists cls0 project0 options,
                     In (EConstruct cls0 project0 options) t
                     /\ construct w cls0 project0 options = Ok x)).
        { intros tl r' E Hgen Hnc. rewrite E in Hrun'. cbn [fst snd] in Hrun'.
          rewrite Hrun' in Hrun. apply pair_equal_spec in Hrun.
          destruct Hrun as [<- _].
          split.
          - intros cls0 project0 options Hin.
            apply (in_after_prefix w cli_args tp args level) in Hin;
              [| exact Hparse | exact (fun H => H)].
            destruct Hin as [Hin | [Hin | Hin]]; [discriminate Hin | |].
            + injection Hin as <- <- <-.
              exists tp, path, cfg, s. repeat split; assumption.
            + exfalso. rewrite Forall_forall in Hnc. apply (Hnc _ Hin).
          - intros x out Hin.
            apply (in_after_prefix w cli_args tp args level) in Hin;
              [| exact Hparse | exact (fun H => H)].
            destruct Hin as [Hin | [Hin | Hin]];
              [discriminate Hin | discriminate Hin |].
            destruct (Hgen x out Hin) as [Hout Hx].
            split; [exact Hout |]. exists cls, project, args.
            split; [| exact Hx].
            rewrite !app_assoc. apply in_or_app. right. now left. }
        destruct (construct w cls project args) as [x | e] eqn:Hc.
        -- destruct (output_dir w x) as [dir | e] eqn:Hdir.
           ++ destruct (generate w x dir) as [r0 | e] eqn:Hg;
                [| destruct (is_KbdgenException e) eqn:He].
              ** apply (Hcons _ _ (dispatch_generated w args project s cls
                                     Htarget Hcls x dir r0 Hc Hdir Hg)).
                 --- intros x0 out [[= <- <-] | []]. auto.
                 --- repeat constructor.
              ** apply (Hcons _ _ (dispatch_kbdgen_exception w args project
                                     s cls Htarget Hcls x dir e Hc Hdir Hg He)).
                 --- intros x0 out [[= <- <-] | [Hd | []]];
                       [auto | discriminate Hd].
                 --- repeat constructor.
              ** apply (Hcons _ _ (dispatch_other_exception w args project
                                     s cls Htarget Hcls x dir e Hc Hdir Hg He)).
                 --- intros x0 out [[= <- <-] | []]. auto.
                 --- repeat constructor.
           ++ apply (Hcons _ _ (dispatch_output_dir_raises w args project
                                  s cls Htarget Hcls x e Hc Hdir)).
              ** intros x0 out Hin. exfalso.
                 destruct (is_KbdgenException e);
                   [destruct Hin as [Hd | []]; discriminate Hd | destruct Hin].
              ** destruct (is_KbdgenException e); repeat constructor.
        -- apply (Hcons _ _ (dispatch_construct_raises w args project s cls
                               Htarget Hcls e Hc)).
           ++ intros x0 out [].
           ++ constructor.
      * rewrite (dispatch_unhashable w args project l Htarget) in Hrun'.
        cbn [fst snd] in Hrun'. eapply (Hq0 [EParse path cfg]);
          [repeat constructor | exact Hrun'].
  - destruct (is_ScannerError e) eqn:Hscan.
    + eapply Hq0;
        [| apply (run_cli_not_loaded _ _ _ _ _ _ _ Hparse Hl
                    (load_scanner_error w args path cfg Hpath Hcfg e
                       Hload Hscan))].
      repeat constructor.
    + destruct (is_Exception e) eqn:Hexc.
      * eapply Hq0;
          [| apply (run_cli_not_loaded _ _ _ _ _ _ _ Hparse Hl
                      (load_exception w args path cfg Hpath Hcfg e
                         Hload Hscan Hexc))].
        constructor; [exact I |]. apply Forall_app. split.
        -- apply quiet_critical.
        -- destruct (is_UserException e); [constructor | apply quiet_bug_report].
      * eapply Hq0;
          [| apply (run_cli_load_raises _ _ _ _ _ _ _ Hparse Hl
                      (load_propagates w args path cfg Hpath Hcfg e
                         Hload Hscan Hexc))].
        repeat constructor.
Qed.

(** The property X11 on a run that works, at [-t win proj.kbdgen]. *)
Lemma dispatch_protocol_witness :
  (forall cls project options,
     In (EConstruct cls project options) (fst (run_cli Demo.fine Demo.cli)) ->
     exists tp path cfg s,
       parse_args Demo.fine Demo.cli = (tp, Ok options)
       /\ lookup "project" options = Some path
       /\ lookup "cfg_pairs" options = Some cfg
       /\ Parser_parse Demo.fine path cfg = Ok project
       /\ is_None project = false
       /\ lookup "target" options = Some (VStr s)
       /\ lookup s (gen Demo.fine) = Some cls)
  /\ (forall x out,
        In (EGenerate x out) (fst (run_cli Demo.fine Demo.cli)) ->
        output_dir Demo.fine x = Ok out
        /\ exists cls project options,
             In (EConstruct cls project options)
                (fst (run_cli Demo.fine Demo.cli))
             /\ construct Demo.fine cls project options = Ok x).
Proof.
  apply (dispatch_protocol Demo.fine Demo.cli
           (fst (run_cli Demo.fine Demo.cli))
           (snd (run_cli Demo.fine Demo.cli))).
  vm_compute. reflexivity.
Defined.

(** *** Options given more than once *)

(** X12.  The last one wins: after an accepted command line, an
    attribute that [take_action] calls wrote to holds what the last of
    them wrote, [True] for a [store_true] flag and the argument strings
    of that take (one string, or the list of them for [nargs="*"]) for an
    option without [type=] and [choices=]; the earlier takes leave no
    trace. *)
Theorem last_option_wins w cli_args t args :
  parse_args w cli_args = (t, Ok args) ->
  exists st,
    parse_known_args_state (p w) cli_args = (t, Ok st)
    /\ args = st_namespace st
    /\ forall before a strs os after d v,
         st_calls st = before ++ (a, strs, os) :: after ->
         dest a = Some d ->
         (forall c, In c after -> dest (fst (fst c)) <> Some d) ->
         stored_value a strs = Some v ->
         lookup d args = Some v.
Proof.
  intros H. apply parse_args_state in H. destruct H as [st [H [-> _]]].
  exists st. split; [exact H |]. split; [reflexivity |].
  exact (parse_state_last_take _ _ _ _ H).
Qed.

(** The property X12 at the command line
    [-o a -f x -t win --out=b -f -- proj.kbdgen]. *)
Lemma last_option_witness :
  exists st,
    parse_known_args_state (p Demo.fine) Demo.cli_twice
    = ([], Ok st)
    /\ Demo.parsed_twice = st_namespace st
    /\ forall before a strs os after d v,
         st_calls st = before ++ (a, strs, os) :: after ->
         dest a = Some d ->
         (forall c, In c after -> dest (fst (fst c)) <> Some d) ->
         stored_value a strs = Some v ->
         lookup d Demo.parsed_twice = Some v.
Proof.
  apply (last_option_wins Demo.fine Demo.cli_twice [] Demo.parsed_twice).
  vm_compute. reflexivity.
Defined.

(** There, [output] is the second value and [flags] the empty list of
    the second [-f]. *)
Example options_given_twice :
  lookup "output" Demo.parsed_twice = Some (VStr "b")
  /\ lookup "flags" Demo.parsed_twice = Some (VList [])
  /\ lookup "project" Demo.parsed_twice = Some (VStr "proj.kbdgen").
Proof.
  repeat split; vm_compute; reflexivity.
Qed.

End Extras.
